(** * aistore: LOM copy management, streaming transport receiver, async dispatcher

    A shallow embedding of
    - [cluster/lcopy.go]   (module [Cluster]),
    - [transport/recv.go]  (module [Transport]),
    - [ais/tgtasync.go]    (module [Ais]),
    followed by the properties of the specification that are stated about
    them (modules [ClusterProps], [TransportProps], [AisProps]).

    What these files call and the repository's sources here do not hold is
    either a parameter (a field of the world, a variable of a section) or a
    definition made from the specification's words, marked as such. *)

From Stdlib Require Import ZArith Lia.
From Stdlib Require Import Strings.Byte.
From stdpp Require Import base option list gmap strings sets fin_maps.

(** ** Results of calls that may panic or loop

    Go code either returns, panics (a nil-map write, a slice bound, a failed
    [Assert]), or keeps looping.  Loops are given fuel; running out of it is
    a result of its own, never confused with a return. *)

Inductive res (A : Type) : Type :=
  | Ret (a : A)
  | Panic (why : string)
  | OutOfFuel.
Arguments Ret {A} a.
Arguments Panic {A} why.
Arguments OutOfFuel {A}.

#[global] Instance res_ret : MRet res := λ A a, Ret a.
#[global] Instance res_bind : MBind res := λ A B f m,
  match m with
  | Ret a => f a
  | Panic why => Panic why
  | OutOfFuel => OutOfFuel
  end.

(** ** 64-bit integers *)

Definition wrap64 (z : Z) : Z := ((z + 2 ^ 63) mod 2 ^ 64 - 2 ^ 63)%Z.
Definition add64 (a b : Z) : Z := wrap64 (a + b).
Definition int64_range (z : Z) : Prop := (- 2 ^ 63 ≤ z < 2 ^ 63)%Z.

Module Cluster.

(** *** Data: mountpaths, buckets, LOM *)

(** [fs.MountpathInfo]: the path, and the [FlagWaitingDD] bit that
    [IsAnySet(fs.FlagWaitingDD)] tests. *)
Record MountpathInfo : Type := { Path : string; WaitingDD : bool }.

#[global] Instance MountpathInfo_eq_dec : EqDecision MountpathInfo.
Proof. solve_decision. Defined.

(** [fs.MPI = map[string]*MountpathInfo]. *)
Abbreviation MPI := (gmap string MountpathInfo).

Record Bck : Type := { BckName : string; Provider : string; BID : Z }.

#[global] Instance Bck_eq_dec : EqDecision Bck.
Proof. solve_decision. Defined.

Record MirrorConf : Type := { Enabled : bool; Copies : Z }.

Inductive ContentType : Type := ObjectType | WorkfileType.

(** System calls whose failure the code looks at. *)
Inductive syscall : Type :=
  SysUnlink | SysSetXattr | SysCopy | SysRename | SysAccess | SysStat.

Inductive error : Type :=
  | ErrCopyDoesNotExist (copyFQN : string) (numCopies : nat)
  | ErrIO (op : syscall) (path : string)
  | ErrNoMountpaths
  | ErrInit (fqn : string)
  | ErrBadDataCksum.

(** [lom.md]: [copies = None] is Go's nil map, [Some m] an allocated one. *)
Record lmeta : Type := {
  uname : string;
  copies : option MPI;
  dirty : bool;
  version : string;
  cksum : option (string * string)   (* (type, value); None: empty checksum *)
}.

Record LOM : Type := {
  FQN : string;
  HrwFQN : string;
  ObjName : string;
  bck : Bck;
  mpathInfo : MountpathInfo;
  md : lmeta;
  mirrorConf : MirrorConf;          (* lom.MirrorConf() *)
  writeImmediate : bool             (* lom.WritePolicy().IsImmediate() *)
}.

Definition set_md (lom : LOM) (m : lmeta) : LOM :=
  {| FQN := FQN lom; HrwFQN := HrwFQN lom; ObjName := ObjName lom; bck := bck lom;
     mpathInfo := mpathInfo lom; md := m; mirrorConf := mirrorConf lom;
     writeImmediate := writeImmediate lom |}.

Definition set_copies (lom : LOM) (c : option MPI) : LOM :=
  set_md lom {| uname := uname (md lom); copies := c; dirty := dirty (md lom);
                version := version (md lom); cksum := cksum (md lom) |}.

(** Modelled from the spec: [lom.md.makeDirty()] is not among the sources;
    section 4.2, "mark [md.dirty] and return". *)
Definition makeDirty (lom : LOM) : LOM :=
  set_md lom {| uname := uname (md lom); copies := copies (md lom); dirty := true;
                version := version (md lom); cksum := cksum (md lom) |}.

(** Reading a nil map is reading an empty one. *)
Definition cmap (lom : LOM) : MPI := default ∅ (copies (md lom)).
(** [len(lom.md.copies)] *)
Definition ncopies (lom : LOM) : nat := size (cmap lom).

(** *** The world outside the LOM

    Files on the mountpaths, the mountpath registry ([fs.GetAvail],
    [fs.GetAllMpathUtils]), the HRW oracle, the FQN composer, and which system
    calls fail.  [InitLOM] is what [lom.Init] makes of a clone, [LoadEqual]
    whether the file at a path loads to a LOM [Equal] to the given one, and
    [copyCksum] the checksum [cos.CopyFile] computes.  Go ranges over a map in
    an unspecified order: [map_order] is the order taken, any permutation of
    the entries. *)

Inductive event : Type :=
  | EvUnlink (fqn : string) (ok : bool)
  | EvFSHC (fqn : string).

Record World : Type := {
  files : gset string;
  io_fault : syscall → string → bool;
  avail : MPI;
  mpathUtil : string → Z;
  HrwMpath : string → error + MountpathInfo;
  MakePathFQN : MountpathInfo → Bck → ContentType → string → string;
  InitLOM : LOM → error + LOM;
  LoadEqual : string → LOM → bool;
  copyCksum : string → string → string;
  map_order : list (string * MountpathInfo) → list (string * MountpathInfo);
  map_order_perm : ∀ l, map_order l ≡ₚ l;
  fslog : list event
}.

Definition set_files_log (w : World) (fs : gset string) (lg : list event) : World :=
  {| files := fs; io_fault := io_fault w; avail := avail w; mpathUtil := mpathUtil w;
     HrwMpath := HrwMpath w; MakePathFQN := MakePathFQN w; InitLOM := InitLOM w;
     LoadEqual := LoadEqual w; copyCksum := copyCksum w;
     map_order := map_order w; map_order_perm := map_order_perm w; fslog := lg |}.

(** [for k, v := range m] *)
Definition range (w : World) (m : MPI) : list (string * MountpathInfo) :=
  map_order w (map_to_list m).

(** Modelled from the spec: [cos.RemoveFile] is not among the sources; section
    4.2, "unlink", with "I/O errors" that the caller logs.  The world decides
    whether the call fails; when it does not, the file is gone. *)
Definition RemoveFile (w : World) (path : string) : World * option error :=
  if io_fault w SysUnlink path
  then (set_files_log w (files w) (fslog w ++ [EvUnlink path false]), Some (ErrIO SysUnlink path))
  else (set_files_log w (files w ∖ {[path]}) (fslog w ++ [EvUnlink path true]), None).

(** Modelled from the spec: [T.FSHC(err, fqn)] is not among the sources;
    section 4.2, "notify the filesystem health checker".  The notification is
    recorded. *)
Definition FSHC (w : World) (fqn : string) : World :=
  set_files_log w (files w) (fslog w ++ [EvFSHC fqn]).

(** *** lcopy.go *)

(** [func (lom *LOM) NumCopies() int { return cos.Max(len(lom.md.copies), 1) }] *)
Definition NumCopies (lom : LOM) : nat := Nat.max (ncopies lom) 1.
(** [func (lom *LOM) HasCopies() bool { return lom.NumCopies() > 1 }] *)
Definition HasCopies (lom : LOM) : bool := bool_decide (1 < NumCopies lom).

(** [GetCopies] (the lock assertion is a debug build's). *)
Definition GetCopies (lom : LOM) : MPI := cmap lom.

(** Modelled from the spec: [IsHRW] is not among the sources; section 3,
    'A LOM is "HRW" iff fqn == hrw_fqn'. *)
Definition IsHRW (lom : LOM) : bool := bool_decide (HrwFQN lom = FQN lom).

Definition IsCopy (lom : LOM) : bool :=
  if IsHRW lom then false
  else bool_decide (is_Some (cmap lom !! FQN lom)).

(** [whingeCopy]: logs (and asserts in a debug build) when the LOM is a copy. *)
Definition whingeCopy (lom : LOM) : bool := IsCopy lom.

(** [delete(lom.md.copies, copyFQN); if len(lom.md.copies) <= 1 { lom.md.copies = nil }] *)
Definition delCopyMd (lom : LOM) (copyFQN : string) : LOM :=
  let c := delete copyFQN <$> copies (md lom) in
  if bool_decide (size (default ∅ c) ≤ 1) then set_copies lom None
  else set_copies lom c.

(** Modelled from the spec: [persistMdOnCopies] is not among the sources;
    section 4.2, "persist metadata to every copy in a loop: on any copy's
    persist failure, drop that copy from metadata", and "Caller is obligated to
    call [Persist] afterward": the metadata is written to the copies in map
    order, the LOM's own FQN left out (its metadata is the caller's to write,
    with [Persist]); the first failing write ends the loop and its copy is
    returned with the error. *)
Fixpoint persistCopies (w : World) (own : string) (l : list (string * MountpathInfo))
    (last : string) : string * option error :=
  match l with
  | [] => (last, None)
  | (copyFQN, _) :: l' =>
      if bool_decide (copyFQN = own) then persistCopies w own l' copyFQN
      else if io_fault w SysSetXattr copyFQN
      then (copyFQN, Some (ErrIO SysSetXattr copyFQN))
      else persistCopies w own l' copyFQN
  end.

Definition persistMdOnCopies (w : World) (lom : LOM) : string * option error :=
  persistCopies w (FQN lom) (range w (cmap lom)) "".

(** The [for { ... }] loop of [syncMetaWithCopies]; one unit of fuel per
    iteration. *)
Fixpoint persistLoop (fuel : nat) (w : World) (lom : LOM) : res (World * LOM * option error) :=
  match fuel with
  | O => OutOfFuel
  | S fuel' =>
      match persistMdOnCopies w lom with
      | (_, None) => Ret (w, lom, None)
      | (copyFQN, Some err) =>
          let lom := delCopyMd lom copyFQN in
          (* fs.Access(copyFQN) fails for a reason other than "does not exist" *)
          let w := if bool_decide (copyFQN ∈ files w) && io_fault w SysAccess copyFQN
                   then FSHC w copyFQN else w in
          persistLoop fuel' w lom
      end
  end.

Definition syncMetaWithCopies (w : World) (lom : LOM) : res (World * LOM * option error) :=
  if negb (HasCopies lom) then Ret (w, lom, None)
  else if negb (writeImmediate lom) then Ret (w, makeDirty lom, None)
  else persistLoop (S (ncopies lom)) w lom.

(** [AddCopy]: [make] on a nil map, two stores, then the sync. *)
Definition AddCopy (w : World) (lom : LOM) (copyFQN : string) (mpi : MountpathInfo)
  : res (World * LOM * option error) :=
  let c := cmap lom in
  let c := <[copyFQN := mpi]> c in
  let c := <[FQN lom := mpathInfo lom]> c in
  syncMetaWithCopies w (set_copies lom (Some c)).

(** Step 1 of [DelCopies]: the loop that checks and deletes, one FQN at a time. *)
Fixpoint delCopiesMd (lom : LOM) (numCopies : nat) (copiesFQN : list string)
  : LOM * option error :=
  match copiesFQN with
  | [] => (lom, None)
  | copyFQN :: rest =>
      match cmap lom !! copyFQN with
      | None => (lom, Some (ErrCopyDoesNotExist copyFQN numCopies))
      | Some _ => delCopiesMd (delCopyMd lom copyFQN) numCopies rest
      end
  end.

(** Step 3 of [DelCopies]: errors are logged and skipped. *)
Definition removeFiles (w : World) (copiesFQN : list string) : World :=
  foldl (λ w copyFQN, fst (RemoveFile w copyFQN)) w copiesFQN.

Definition DelCopies (w : World) (lom : LOM) (copiesFQN : list string)
  : res (World * LOM * option error) :=
  let numCopies := NumCopies lom in
  match delCopiesMd lom numCopies copiesFQN with
  | (lom, Some err) => Ret (w, lom, Some err)
  | (lom, None) =>
      '(w, lom, err) ← syncMetaWithCopies w lom;
      match err with
      | Some e => Ret (w, lom, Some e)
      | None => Ret (removeFiles w copiesFQN, lom, None)
      end
  end.

Definition DelAllCopies (w : World) (lom : LOM) : res (World * LOM * option error) :=
  let copiesFQN := filter (λ copyFQN, copyFQN ≠ FQN lom) (fst <$> range w (cmap lom)) in
  DelCopies w lom copiesFQN.

(** [DelExtraCopies]: one pass over the available mountpaths. *)
Definition delExtraStep (lom : LOM) (fqn : list string)
    (acc : World * bool * option error) (e : string * MountpathInfo)
  : World * bool * option error :=
  let '(w, removed, err) := acc in
  let copyFQN := MakePathFQN w e.2 (bck lom) ObjectType (ObjName lom) in
  match cmap lom !! copyFQN with
  | Some _ => (w, removed, err)
  | None =>
      match RemoveFile w copyFQN with
      | (w, Some err1) => (w, removed, Some err1)
      | (w, None) =>
          match fqn with
          | f :: _ => if bool_decide (f = copyFQN) then (w, true, err) else (w, removed, err)
          | [] => (w, removed, err)
          end
      end
  end.

Definition DelExtraCopies (w : World) (lom : LOM) (fqn : list string)
  : World * bool * option error :=
  if whingeCopy lom then (w, false, None)
  else foldl (delExtraStep lom fqn) (w, false, None) (range w (avail w)).

(** [LBGet] and [leastUtilCopy] *)
Definition leastUtilStep (w : World) (lom : LOM)
    (acc : string * Z) (e : string * MountpathInfo) : string * Z :=
  let '(fqn, minUtil) := acc in
  let '(copyFQN, copyMPI) := e in
  if bool_decide (copyFQN ≠ FQN lom) then
    let util := mpathUtil w (Path copyMPI) in
    if (util <? minUtil)%Z then (copyFQN, util) else (fqn, minUtil)
  else (fqn, minUtil).

Definition leastUtilCopy (w : World) (lom : LOM) : string :=
  let minUtil := mpathUtil w (Path (mpathInfo lom)) in
  let copies := GetCopies lom in
  fst (foldl (leastUtilStep w lom) (FQN lom, minUtil) (range w copies)).

Definition LBGet (w : World) (lom : LOM) : string :=
  if negb (HasCopies lom) then FQN lom else leastUtilCopy w lom.

Definition haveMpath (w : World) (lom : LOM) (mpath : string) : bool :=
  if bool_decide (ncopies lom = 0) then bool_decide (Path (mpathInfo lom) = mpath)
  else existsb (λ e, bool_decide (Path e.2 = mpath)) (range w (cmap lom)).

Definition leastNoCopyStep (w : World) (lom : LOM)
    (acc : Z * option MountpathInfo) (e : string * MountpathInfo) : Z * option MountpathInfo :=
  let '(minUtil, mi) := acc in
  let '(mpath, mpathInfo) := e in
  if haveMpath w lom mpath || WaitingDD mpathInfo then (minUtil, mi)
  else
    let util := mpathUtil w mpath in
    if (util <? minUtil)%Z then (util, Some mpathInfo) else (minUtil, mi).

Definition LeastUtilNoCopy (w : World) (lom : LOM) : option MountpathInfo :=
  snd (foldl (leastNoCopyStep w lom) (101%Z, None) (range w (avail w))).

(** The pruning loop of [ToMpath].  The range runs over the map that
    [lom.md.copies] named when the loop started: every entry of it is visited,
    also after [delCopyMd] has set the field to nil. *)
Definition pruneStep (w : World) (acc : LOM * Z) (e : string * MountpathInfo) : LOM * Z :=
  let '(lom, gotCopies) := acc in
  let '(fqn, mpi) := e in
  match avail w !! Path mpi with
  | Some mpathInfo =>
      if WaitingDD mpathInfo then (delCopyMd lom fqn, gotCopies)
      else (lom, (gotCopies + 1)%Z)
  | None => (delCopyMd lom fqn, gotCopies)
  end.

Definition ToMpath (w : World) (lom : LOM) : LOM * option MountpathInfo * bool :=
  match HrwMpath w (uname (md lom)) with
  | inl _ => (lom, None, false)
  | inr hrwMi =>
      if bool_decide (Path (mpathInfo lom) ≠ Path hrwMi) then (lom, Some hrwMi, true)
      else
        let mirror := mirrorConf lom in
        if negb (Enabled mirror) || (Copies mirror <? 2)%Z then (lom, None, false)
        else
          let expCopies := Copies mirror in
          let '(lom, gotCopies) := foldl (pruneStep w) (lom, 0%Z) (range w (cmap lom)) in
          if (expCopies <=? gotCopies)%Z then (lom, None, false)
          else (lom, LeastUtilNoCopy w lom, false)
  end.

(** *** Copying: the helpers [Copy] and [Copy2FQN] call *)

(** [os.Stat(path)] returned no error. *)
Definition Stat (w : World) (path : string) : bool :=
  bool_decide (path ∈ files w) && negb (io_fault w SysStat path).

(** Modelled from the spec: [cos.CopyFile] is not among the sources; section
    4.2, "stream bytes fqn -> workfile".  The destination exists afterwards,
    unless the world fails the call. *)
Definition CopyFile (w : World) (src dst : string) : World * option error :=
  if io_fault w SysCopy dst then (w, Some (ErrIO SysCopy dst))
  else (set_files_log w (files w ∪ {[dst]}) (fslog w), None).

(** Modelled from the spec: [cos.Rename] is not among the sources; section
    4.2, "atomically rename workfile -> destination". *)
Definition Rename (w : World) (src dst : string) : World * option error :=
  if io_fault w SysRename dst then (w, Some (ErrIO SysRename dst))
  else (set_files_log w (files w ∖ {[src]} ∪ {[dst]}) (fslog w), None).

(** Modelled from the spec: [Persist] is not among the sources; section 6,
    "metadata is persisted alongside each replica": the write of the LOM's own
    metadata, at its own FQN. *)
Definition Persist (w : World) (lom : LOM) : option error :=
  if io_fault w SysSetXattr (FQN lom) then Some (ErrIO SysSetXattr (FQN lom)) else None.

(** [fs.WorkfileCopy], the prefix of a copy's workfile name. *)
Definition WorkfileCopy : string := "copy".
(** [lomInitialVersion] *)
Definition lomInitialVersion : string := "1".
(** [cos.ChecksumNone] *)
Definition ChecksumNone : string := "none".

(** Modelled from the spec: [lom.Clone(fqn)] is not among the sources; section
    4.2, "Clone this LOM as dst bound to dstFQN": the same descriptor under
    another FQN. *)
Definition Clone (lom : LOM) (fqn : string) : LOM :=
  {| FQN := fqn; HrwFQN := HrwFQN lom; ObjName := ObjName lom; bck := bck lom;
     mpathInfo := mpathInfo lom; md := md lom; mirrorConf := mirrorConf lom;
     writeImmediate := writeImmediate lom |}.

Definition SetVersion (lom : LOM) (v : string) : LOM :=
  set_md lom {| uname := uname (md lom); copies := copies (md lom); dirty := dirty (md lom);
                version := v; cksum := cksum (md lom) |}.

Definition SetCksum (lom : LOM) (c : option (string * string)) : LOM :=
  set_md lom {| uname := uname (md lom); copies := copies (md lom); dirty := dirty (md lom);
                version := version (md lom); cksum := c |}.

(** Modelled from the spec: [Bck.Equal] is not among the sources; section 3,
    "Bucket equality optionally requires matching backend_id". *)
Definition BckEqual (a b : Bck) (sameID : bool) : bool :=
  bool_decide (BckName a = BckName b) && bool_decide (Provider a = Provider b)
  && (negb sameID || bool_decide (BID a = BID b)).

Definition isMirror (lom dst : LOM) : bool :=
  Enabled (mirrorConf lom) && bool_decide (ObjName lom = ObjName dst)
  && BckEqual (bck lom) (bck dst) true.

(** The tail of [Copy] from the label [add]. *)
Definition copyAdd (w : World) (lom : LOM) (copyFQN : string) (mi : MountpathInfo)
  : res (World * LOM * option error) :=
  '(w, lom, _) ← AddCopy w lom copyFQN mi;
  match Persist w lom with
  | Some err => Ret (w, delCopyMd lom copyFQN, Some err)
  | None => syncMetaWithCopies w lom
  end.

Definition Copy (w : World) (lom : LOM) (mi : MountpathInfo)
  : res (World * LOM * option error) :=
  let copyFQN := MakePathFQN w mi (bck lom) ObjectType (ObjName lom) in
  let workFQN := MakePathFQN w mi (bck lom) WorkfileType (WorkfileCopy +:+ "." +:+ ObjName lom) in
  if Stat w copyFQN && LoadEqual w copyFQN lom then copyAdd w lom copyFQN mi
  else
    match CopyFile w (FQN lom) workFQN with
    | (w, Some err) => Ret (w, lom, Some err)
    | (w, None) =>
        match Rename w workFQN copyFQN with
        | (w, Some err) => Ret (fst (RemoveFile w workFQN), lom, Some err)
        | (w, None) => copyAdd w lom copyFQN mi
        end
    end.

(** The mirror branch of [Copy2FQN] ("persist"), entered with the source, the
    destination descriptor and the destination FQN. *)
Definition copy2Mirror (w : World) (lom dst : LOM) (dstFQN : string)
  : res (World * LOM * option LOM * option error) :=
  let '(lc, dc) :=
    match copies (md lom) with
    | None => (∅, Some ∅)
    | Some c => (c, copies (md dst))
    end in
  match dc with
  | None => Panic "assignment to entry in nil map"
  | Some dc =>
      let lc := <[FQN lom := mpathInfo lom]> (<[dstFQN := mpathInfo dst]> lc) in
      let dc := <[FQN lom := mpathInfo lom]> (<[dstFQN := mpathInfo dst]> dc) in
      let dst := set_copies dst (Some dc) in
      '(w, lom, err) ← syncMetaWithCopies w (set_copies lom (Some lc));
      match err with
      | Some e =>
          let w := match cmap lom !! FQN dst with
                   | None => fst (RemoveFile w (FQN dst))
                   | Some _ => w
                   end in
          Ret (w, lom, Some dst, Some e)
      | None => Ret (w, lom, Some dst, Persist w lom)
      end
  end.

Definition Copy2FQN (w : World) (lom : LOM) (dstFQN : string)
  : res (World * LOM * option LOM * option error) :=
  let cksumType := match cksum (md lom) with
                   | None => ChecksumNone
                   | Some (ty, _) => ty
                   end in
  match InitLOM w (Clone lom dstFQN) with
  | inl err => Ret (w, lom, Some (Clone lom dstFQN), Some err)
  | inr dst =>
      let dst := set_copies dst None in
      let dst := if isMirror dst lom
                 then match copies (md lom) with
                      | Some c => set_copies dst (Some c)
                      | None => dst
                      end
                 else dst in
      let dst := if negb (BckEqual (bck dst) (bck lom) false)
                 then SetVersion dst lomInitialVersion else dst in
      let workFQN := MakePathFQN w (mpathInfo dst) (bck dst) WorkfileType
                       (WorkfileCopy +:+ "." +:+ ObjName dst) in
      match CopyFile w (FQN lom) workFQN with
      | (w, Some err) => Ret (w, lom, Some dst, Some err)
      | (w, None) =>
          match Rename w workFQN dstFQN with
          | (w, Some err) => Ret (fst (RemoveFile w workFQN), lom, Some dst, Some err)
          | (w, None) =>
              let dstCksum := Some (cksumType, copyCksum w (FQN lom) cksumType) in
              if bool_decide (cksumType ≠ ChecksumNone)
                 && negb (bool_decide (dstCksum = cksum (md lom)))
              then Ret (w, lom, None, Some ErrBadDataCksum)
              else
                let dst := if bool_decide (cksumType ≠ ChecksumNone)
                           then SetCksum dst dstCksum else dst in
                if isMirror lom dst then copy2Mirror w lom dst dstFQN
                else
                  match Persist w dst with
                  | Some err => Ret (fst (RemoveFile w (FQN dst)), lom, Some dst, Some err)
                  | None => Ret (w, lom, Some dst, None)
                  end
          end
      end
  end.

(** *** Vocabulary of the statements *)

(** The would-be object FQNs, one per available mountpath in range order, that
    are not keys of [md.copies]: what [DelExtraCopies] unlinks. *)
Definition extraFQNs (w : World) (lom : LOM) : list string :=
  filter (λ f, cmap lom !! f = None)
         ((λ e, MakePathFQN w e.2 (bck lom) ObjectType (ObjName lom)) <$> range w (avail w)).

(** The unlink of [f] as it is logged: it succeeds unless the world faults it. *)
Definition unlinkEvent (w : World) (f : string) : event :=
  EvUnlink f (negb (io_fault w SysUnlink f)).

(** Among the copies the sync dropped, those the health checker is told
    about: the file is there and [fs.Access] fails on it. *)
Definition notified (w : World) (dropped : list string) : list string :=
  filter (λ f, f ∈ files w ∧ io_fault w SysAccess f = true) dropped.

(** The copies invariant of section 3: [md.copies] is empty, or holds the
    LOM's own FQN among at least two entries. *)
Definition copies_ok (lom : LOM) : Prop :=
  cmap lom = ∅ ∨ (is_Some (cmap lom !! FQN lom) ∧ 2 ≤ ncopies lom).

(** *** A concrete world and concrete LOMs

    Three mountpaths; FQNs laid out as in section 6 of the specification,
    [{mountpath}/{content_type}/{bucket}/{objname}]. *)

Definition mpA : MountpathInfo := {| Path := "/mp/a"; WaitingDD := false |}.
Definition mpB : MountpathInfo := {| Path := "/mp/b"; WaitingDD := false |}.
Definition mpC : MountpathInfo := {| Path := "/mp/c"; WaitingDD := false |}.

Definition bucket0 : Bck := {| BckName := "bck"; Provider := "ais"; BID := 7 |}.

Definition fqn_of (mi : MountpathInfo) (b : Bck) (ct : ContentType) (name : string) : string :=
  Path mi +:+ "/" +:+ (match ct with ObjectType => "obj" | WorkfileType => "work" end)
  +:+ "/" +:+ BckName b +:+ "/" +:+ name.

Definition fqnA : string := "/mp/a/obj/bck/o".
Definition fqnB : string := "/mp/b/obj/bck/o".
Definition fqnC : string := "/mp/c/obj/bck/o".
Definition fqnD : string := "/mp/d/obj/bck/o".

Definition world0 : World :=
  {| files := {[fqnA; fqnB; fqnC]};
     io_fault := λ _ _, false;
     avail := {[ "/mp/a" := mpA; "/mp/b" := mpB; "/mp/c" := mpC ]};
     mpathUtil := λ p, if bool_decide (p = "/mp/a") then 10%Z else 90%Z;
     HrwMpath := λ _, inr mpA;
     MakePathFQN := fqn_of;
     InitLOM := λ lom, inr lom;
     LoadEqual := λ _ _, false;
     copyCksum := λ _ _, "";
     map_order := λ l, l;
     map_order_perm := λ l, Permutation_refl l;
     fslog := [] |}.

Definition md0 (c : option MPI) : lmeta :=
  {| uname := "bck/o"; copies := c; dirty := false; version := "1"; cksum := None |}.

Definition lom_at (fqn : string) (mi : MountpathInfo) (c : option MPI) : LOM :=
  {| FQN := fqn; HrwFQN := fqnA; ObjName := "o"; bck := bucket0; mpathInfo := mi;
     md := md0 c; mirrorConf := {| Enabled := true; Copies := 2 |};
     writeImmediate := true |}.

(** No copies; the object and two replicas; the object and three map entries. *)
Definition lom0 : LOM := lom_at fqnA mpA None.
Definition lom2 : LOM := lom_at fqnA mpA (Some {[ fqnA := mpA; fqnB := mpB ]}).
Definition lom3 : LOM := lom_at fqnA mpA (Some {[ fqnA := mpA; fqnB := mpB; fqnC := mpC ]}).

(** The snapshot of the available mountpaths was taken while [/mp/a] was
    away; the HRW oracle already has it again. *)
Definition world_late : World :=
  {| files := files world0; io_fault := io_fault world0;
     avail := {[ "/mp/b" := mpB; "/mp/c" := mpC ]};
     mpathUtil := mpathUtil world0; HrwMpath := HrwMpath world0;
     MakePathFQN := MakePathFQN world0; InitLOM := InitLOM world0;
     LoadEqual := LoadEqual world0; copyCksum := copyCksum world0;
     map_order := map_order world0; map_order_perm := map_order_perm world0;
     fslog := [] |}.

(** The world in which the metadata cannot be written at the copy on [/mp/b]. *)
Definition world_xattrB : World :=
  {| files := files world0;
     io_fault := λ op path, match op with
                            | SysSetXattr => bool_decide (path = fqnB)
                            | _ => false
                            end;
     avail := avail world0;
     mpathUtil := mpathUtil world0; HrwMpath := HrwMpath world0;
     MakePathFQN := MakePathFQN world0; InitLOM := InitLOM world0;
     LoadEqual := LoadEqual world0; copyCksum := copyCksum world0;
     map_order := map_order world0; map_order_perm := map_order_perm world0;
     fslog := [] |}.

(** A LOM on [/mp/c] whose [md.copies] names two other files and not its own. *)
Definition lom_stray : LOM := lom_at fqnC mpC (Some {[ fqnA := mpA; fqnB := mpB ]}).

(** A copy's mountpath is in use: among the available ones and not draining
    (the test of the pruning loop of [ToMpath]). *)
Definition mpathInUse (w : World) (mpi : MountpathInfo) : bool :=
  match avail w !! Path mpi with
  | Some mpathInfo => negb (WaitingDD mpathInfo)
  | None => false
  end.

(** The entries of [md.copies] on mountpaths in use. *)
Definition goodCopies (w : World) (lom : LOM) : MPI :=
  filter (λ e : string * MountpathInfo, mpathInUse w e.2 = true) (cmap lom).

(** What [delCopyMd] leaves of a map after its [delete]: nil when at most one
    entry is left. *)
Definition pruned (m : MPI) : MPI := if bool_decide (size m ≤ 1) then ∅ else m.

End Cluster.

Module Transport.

Local Open Scope Z_scope.

(** *** Bytes, slices, the request body *)

Definition byteZ (b : byte) : Z := Z.of_N (Byte.to_N b).

(** Big-endian value of a run of bytes. *)
Definition be_value (bs : list byte) : Z := foldl (λ acc b, (acc * 256 + byteZ b)%Z) 0%Z bs.

(** Go's [int] and [int64] are 64 bits wide here; [uint64(x)] of an [int64]. *)
Definition uint64 (z : Z) : Z := (z mod 2 ^ 64)%Z.

Definition sizeofI64 : Z := 8.

(** [from[lo:hi]]; a bound out of range panics. *)
Definition slice (from : list byte) (lo hi : Z) : res (list byte) :=
  if ((0 <=? lo) && (lo <=? hi) && (hi <=? Z.of_nat (length from)))%Z
  then Ret (take (Z.to_nat (hi - lo)) (drop (Z.to_nat lo) from))
  else Panic "slice bounds out of range".

(** [from[off:]] *)
Definition slice_from (from : list byte) (off : Z) : res (list byte) :=
  slice from off (Z.of_nat (length from)).

(** [binary.BigEndian.Uint64(b)]; fewer than 8 bytes panic. *)
Definition Uint64 (b : list byte) : res Z :=
  if (8 <=? length b)%nat then Ret (be_value (take 8 b))
  else Panic "index out of range".

(** Errors of the request body's [Read]: [io.EOF], or anything else. *)
Inductive ioerr : Type :=
  | IoEOF
  | IoErr (msg : string).

#[global] Instance ioerr_eq_dec : EqDecision ioerr.
Proof. solve_decision. Defined.

Inductive error : Type :=
  | ReadErr (e : ioerr)                              (* an error of the body *)
  | ErrBreakage1 (hlen : Z)                          (* stream breakage type #1 *)
  | ErrBreakage2 (hlen : Z) (checksum chc : Z).      (* stream breakage type #2 *)

#[global] Instance error_eq_dec : EqDecision error.
Proof. solve_decision. Defined.

(** [io.EOF] *)
Definition EOF : error := ReadErr IoEOF.

(** The request body is what its [Read] calls will deliver: chunks of bytes,
    a chunk possibly ending in an error; after the last chunk, [io.EOF]. *)
Record Chunk : Type := { cdata : list byte; cerr : option ioerr }.
Abbreviation Body := (list Chunk).

(** [body.Read(p)] with [len(p) = k]: the bytes read, the error, the rest. *)
Definition Read (body : Body) (k : nat) : list byte * option error * Body :=
  match body with
  | [] => ([], Some EOF, [])
  | c :: rest =>
      if (k <? length (cdata c))%nat
      then (take k (cdata c), None, {| cdata := drop k (cdata c); cerr := cerr c |} :: rest)
      else (cdata c, ReadErr <$> cerr c, rest)
  end.

(** The buffer after a read has stored [bs] at its start. *)
Definition fill (buf bs : list byte) : list byte := bs ++ drop (length bs) buf.

(** Modelled from the spec: [common.Assert] is not among the sources; section
    4.6 has the loop rely on it ("the underlying error must be non-nil"): a
    false condition panics. *)
Definition Assert (cond : bool) (msg : string) : res unit :=
  if cond then Ret () else Panic msg.

(** *** Headers and their extraction *)

Record Header : Type := {
  Bucket : list byte;
  Objname : list byte;
  Opaque : list byte;
  Dsize : Z
}.

Definition extString (off : Z) (from : list byte) : res (Z * list byte) :=
  b ← slice_from from off;
  u ← Uint64 b;
  let l := wrap64 u in
  let off := add64 off sizeofI64 in
  s ← slice from off (add64 off l);
  Ret (add64 off l, s).

Definition extByte (off : Z) (from : list byte) : res (Z * list byte) :=
  b ← slice_from from off;
  u ← Uint64 b;
  let l := wrap64 u in
  let off := add64 off sizeofI64 in
  s ← slice from off (add64 off l);
  Ret (add64 off l, s).

Definition extInt64 (off : Z) (from : list byte) : res (Z * Z) :=
  b ← slice_from from off;
  u ← Uint64 b;
  let size := wrap64 u in
  Ret (add64 off sizeofI64, size).

Definition extUint64 (off : Z) (from : list byte) : res (Z * Z) :=
  b ← slice_from from off;
  size ← Uint64 b;
  Ret (add64 off sizeofI64, size).

(** *** Handler state *)

Record Stats : Type := { Num : Z; Size : Z; Offset : Z }.
Definition zeroStats : Stats := {| Num := 0; Size := 0; Offset := 0 |}.

Record handler : Type := {
  trname : string;
  sessions : gmap Z Stats;
  oldSessions : gmap Z Z          (* session id -> time closed, in nanoseconds *)
}.

(** [time.Minute], in nanoseconds. *)
Definition cleanupTimeout : Z := 60 * 1000000000.

Record objReader : Type := { hdr : Header; off : Z; hlen : Z }.

(** What [next] returns. *)
Record frame : Type := {
  obj : option objReader;
  sessid : Z;
  hl64 : Z;
  err : option error
}.

(** What the receive loop does, in order: a [next] that returned, a call of
    the callback. *)
Inductive event : Type :=
  | EvFrame (f : frame)
  | EvCallback (sessid : Z) (h : Header).

Inductive reject : Type :=
  | InvalidMethod
  | InvalidTrname
  | StreamError (e : error).

(** Nothing written (the 200 of [net/http]), or
    [common.InvalidHandlerDetailed], the 400 of section 4.6. *)
Inductive response : Type :=
  | RespOK
  | RespBadRequest (why : reject).

Record Request : Type := {
  Method : string;
  URLBase : string;       (* path.Base(r.URL.Path) *)
  rbody : Body
}.

(** *** recv.go

    Not among the sources, and taken as parameters: the constant
    [MaxHeaderSize], the hash [xoshiro256.Hash] on 64-bit words, the test
    [Header.IsLast], the environment's [debug] switch.  The callback registered
    with the handler reads the object it is handed: [callback h body] is the
    list of buffer lengths of the [Read] calls it makes on the object reader,
    given the header and what the body still holds. *)

Section Receiver.

Variable MaxHeaderSize : nat.
Variable Hash : Z → Z.
Variable IsLast : Header → bool.
Variable debug : bool.
Variable callback : Header → Body → list nat.

Definition ExtHeader (body : list byte) (hlen : Z) : res (Header * Z) :=
  '(off, bucket) ← extString 0 body;
  '(off, objname) ← extString off body;
  '(off, opaque) ← extByte off body;
  '(off, sessid) ← extInt64 off body;
  '(off, dsize) ← extInt64 off body;
  _ ← (if debug then Assert (bool_decide (off = hlen)) "off != hlen" else Ret ());
  Ret ({| Bucket := bucket; Objname := objname; Opaque := opaque; Dsize := dsize |}, sessid).

(** [iterator.next], second half: the header announced by a valid prefix is
    read and parsed.  [hl64] is the header length of the prefix. *)
Definition nextHeader (hl64 : Z) (body : Body) (headerBuf : list byte)
  : res (frame * Body * list byte) :=
  let hlen := hl64 in
  _ ← (if debug then Assert (hlen <? Z.of_nat (length headerBuf)) "hlen" else Ret ());
  let hl64 := add64 hl64 (sizeofI64 * 2) in
  _ ← slice headerBuf 0 hlen;
  let '(bs, err, body) := Read body (Z.to_nat hlen) in
  let headerBuf := fill headerBuf bs in
  if bool_decide (length bs = 0%nat) then
    Ret ({| obj := None; sessid := 0; hl64 := hl64; err := err |}, body, headerBuf)
  else
    _ ← (if debug then Assert (bool_decide (Z.of_nat (length bs) = hlen)) "n != hlen"
         else Ret ());
    '(hdr, sessid) ← ExtHeader headerBuf hlen;
    if IsLast hdr then
      Ret ({| obj := None; sessid := sessid; hl64 := hl64; err := Some EOF |},
           body, headerBuf)
    else
      Ret ({| obj := Some {| hdr := hdr; off := 0; hlen := 0 |};
              sessid := sessid; hl64 := hl64; err := err |}, body, headerBuf).

(** [iterator.next]: the body and the header buffer go in and come out.  The
    16-byte prefix is read and validated, then the header. *)
Definition next (body : Body) (headerBuf : list byte) : res (frame * Body * list byte) :=
  _ ← slice headerBuf 0 (sizeofI64 * 2);
  let '(bs, err, body) := Read body (Z.to_nat (sizeofI64 * 2)) in
  let headerBuf := fill headerBuf bs in
  if (Z.of_nat (length bs) <? sizeofI64 * 2)%Z then
    _ ← Assert (bool_decide (err ≠ None))
          "expecting an error or EOF as the reason for failing to read 16 bytes";
    Ret ({| obj := None; sessid := 0; hl64 := 0; err := err |}, body, headerBuf)
  else
    '(_, hl64) ← extInt64 0 headerBuf;
    let hlen := hl64 in
    if (Z.of_nat (length headerBuf) <? hlen)%Z then
      Ret ({| obj := None; sessid := 0; hl64 := hl64; err := Some (ErrBreakage1 hlen) |},
           body, headerBuf)
    else
      tail ← slice_from headerBuf sizeofI64;
      '(_, checksum) ← extUint64 0 tail;
      let chc := Hash (uint64 hl64) in
      if bool_decide (checksum ≠ chc) then
        Ret ({| obj := None; sessid := 0; hl64 := hl64;
                err := Some (ErrBreakage2 hlen checksum chc) |}, body, headerBuf)
      else nextHeader hl64 body headerBuf.

(** [objReader.Read(b)] with [len(b) = lenb]. *)
Definition objRead (o : objReader) (body : Body) (lenb : nat)
  : res (nat * option error * objReader * Body) :=
  let rem := wrap64 (Dsize (hdr o) - off o) in
  lenb ← (if (rem <? Z.of_nat lenb)%Z
          then (if (0 <=? rem)%Z then Ret (Z.to_nat rem)
                else Panic "slice bounds out of range")
          else Ret lenb);
  let '(bs, err, body) := Read body lenb in
  let n := length bs in
  let o := {| hdr := hdr o; off := add64 (off o) (Z.of_nat n); hlen := hlen o |} in
  match err with
  | None =>
      if (Dsize (hdr o) <=? off o)%Z then
        _ ← (if debug then Assert (bool_decide (off o = Dsize (hdr o))) "off != Dsize"
             else Ret ());
        Ret (n, Some EOF, o, body)
      else Ret (n, None, o, body)
  | Some e => Ret (n, Some e, o, body)
  end.

(** The callback at work: its [Read] calls, one after the other. *)
Fixpoint objReads (o : objReader) (body : Body) (lens : list nat) : res Body :=
  match lens with
  | [] => Ret body
  | lenb :: lens =>
      '(_, _, o, body) ← objRead o body lenb;
      objReads o body lens
  end.

Definition addStats (sessid : Z) (num size offset : Z) (h : handler) : handler :=
  {| trname := trname h;
     sessions := alter (λ st, {| Num := add64 (Num st) num; Size := add64 (Size st) size;
                                 Offset := add64 (Offset st) offset |}) sessid (sessions h);
     oldSessions := oldSessions h |}.

(** The head of an iteration: the session is looked up, created if new, and
    the header length is added to its offset. *)
Definition openFrame (h : handler) (f : frame) : handler :=
  if bool_decide (sessid f ≠ 0) then
    let h := match sessions h !! sessid f with
             | None => {| trname := trname h;
                          sessions := <[sessid f := zeroStats]> (sessions h);
                          oldSessions := oldSessions h |}
             | Some _ => h
             end in
    if bool_decide (hl64 f ≠ 0) then addStats (sessid f) 0 0 (hl64 f) h else h
  else h.

(** The [for] loop of [receive] up to its exit: it returns when [next] has
    yielded no object together with an error, with the handler as the frames
    have left it, that last frame, and the log. *)
Fixpoint receiveLoop (fuel : nat) (h : handler) (body : Body) (headerBuf : list byte)
    (log : list event) : res (handler * frame * list event) :=
  match fuel with
  | O => OutOfFuel
  | S fuel' =>
      '(f, body, headerBuf) ← next body headerBuf;
      let log := log ++ [EvFrame f] in
      let h := openFrame h f in
      match obj f with
      | Some objReader =>
          body ← objReads objReader body (callback (hdr objReader) body);
          let log := log ++ [EvCallback (sessid f) (hdr objReader)] in
          if bool_decide (sessid f ≠ 0) then
            let h := addStats (sessid f) 1 (Dsize (hdr objReader)) (Dsize (hdr objReader)) h in
            receiveLoop fuel' h body headerBuf log
          else Panic "nil pointer dereference"
      | None =>
          match err f with
          | Some _ => Ret (h, f, log)
          | None => receiveLoop fuel' h body headerBuf log
          end
      end
  end.

(** "delayed cleanup old sessions": the sweep, then the tombstone. *)
Definition sweepStep (now : Z) (h : handler) (e : Z * Z) : handler :=
  let '(id, timeClosed) := e in
  if (cleanupTimeout <? now - timeClosed)%Z
  then {| trname := trname h; sessions := delete id (sessions h);
          oldSessions := delete id (oldSessions h) |}
  else h.

Definition sweep (now : Z) (h : handler) : handler :=
  foldl (sweepStep now) h (map_to_list (oldSessions h)).

(** The exit of the loop: [if err != nil { if sessid != 0 { ... } ...; return }]. *)
Definition closeSession (now : Z) (h : handler) (f : frame) : handler :=
  if bool_decide (sessid f ≠ 0) then
    let h := sweep now h in
    {| trname := trname h; sessions := sessions h;
       oldSessions := <[sessid f := now]> (oldSessions h) |}
  else h.

Definition closeResponse (f : frame) : response :=
  match err f with
  | Some e => if bool_decide (e ≠ EOF) then RespBadRequest (StreamError e) else RespOK
  | None => RespOK
  end.

(** A body weighs its bytes plus one per chunk; each frame costs at least 16. *)
Definition weight (body : Body) : nat := sum_list ((λ c, S (length (cdata c))) <$> body).

Definition receive (now : Z) (h : handler) (r : Request)
  : res (handler * response * list event) :=
  if bool_decide (Method r ≠ "PUT") then Ret (h, RespBadRequest InvalidMethod, [])
  else if bool_decide (URLBase r ≠ trname h) then Ret (h, RespBadRequest InvalidTrname, [])
  else
    let headerBuf := replicate MaxHeaderSize x00 in
    '(h, f, log) ← receiveLoop (S (weight (rbody r))) h (rbody r) headerBuf [];
    Ret (closeSession now h f, closeResponse f, log).

End Receiver.

(** *** Vocabulary of the statements *)

Definition sumZ (l : list Z) : Z := foldr Z.add 0 l.

(** The frames [next] returned for a session, and the headers of the objects
    the callback was called with for it. *)
Definition session_frames (s : Z) (log : list event) : list frame :=
  omap (λ e, match e with
             | EvFrame f => if bool_decide (sessid f = s) then Some f else None
             | EvCallback _ _ => None
             end) log.

Definition session_callbacks (s : Z) (log : list event) : list Header :=
  omap (λ e, match e with
             | EvCallback s' h => if bool_decide (s' = s) then Some h else None
             | EvFrame _ => None
             end) log.

(** The object bytes a frame announces: [Dsize] when it carries an object,
    none for a frame without one. *)
Definition payload (f : frame) : Z :=
  match obj f with
  | Some o => Dsize (hdr o)
  | None => 0
  end.

(** *** A concrete receiver

    The wire format of section 6, as a sender writes it. *)

Definition byte_of (z : Z) : byte := default x00 (Byte.of_N (Z.to_N (z mod 256))).

Definition put_u64 (z : Z) : list byte :=
  (λ i : nat, byte_of (z / 2 ^ (8 * (7 - Z.of_nat i)))) <$> seq 0 8.

Definition put_bytes (bs : list byte) : list byte := put_u64 (Z.of_nat (length bs)) ++ bs.

Definition header_bytes (h : Header) (sessid : Z) : list byte :=
  put_bytes (Bucket h) ++ put_bytes (Objname h) ++ put_bytes (Opaque h)
  ++ put_u64 sessid ++ put_u64 (Dsize h).

Definition frame_bytes (Hash : Z → Z) (h : Header) (sessid : Z) : list byte :=
  let hb := header_bytes h sessid in
  put_u64 (Z.of_nat (length hb)) ++ put_u64 (Hash (Z.of_nat (length hb))) ++ hb.

(** Stand-ins for the parameters: a header buffer of 128 bytes, some hash,
    the last-frame marker of section 6 ([dsize == 0]), no debugging, and a
    callback that reads its object with one [Read] of [Dsize] bytes. *)
Definition hash0 (x : Z) : Z := (x * 2654435761 + 40503) mod 2 ^ 64.
Definition isLast0 (h : Header) : bool := bool_decide (Dsize h = 0).
Definition callback0 (h : Header) (_ : Body) : list nat := [Z.to_nat (Dsize h)].

Definition hdr_obj (dsize : Z) : Header :=
  {| Bucket := [x62]; Objname := [x6f]; Opaque := []; Dsize := dsize |}.

Definition chunk (bs : list byte) : Chunk := {| cdata := bs; cerr := None |}.

(** One object of three bytes on session 8; the body ends without a
    last-frame marker. *)
Definition body_obj8 : Body :=
  [chunk (frame_bytes hash0 (hdr_obj 3) 8); chunk [xab; xab; xab]].


(** The same frame with its hash word off by one, and a frame announcing a
    header of 129 bytes. *)
Definition body_bad_hash : Body :=
  [chunk (put_u64 42 ++ put_u64 (hash0 42 + 1) ++ replicate 42 x00)].
Definition body_long_header : Body :=
  [chunk (put_u64 129 ++ put_u64 (hash0 129) ++ replicate 129 x00)].

(** A prefix whose length word is [2^64 - 1] (eight bytes [0xff]), with the
    hash of that word, and the same with the hash word off by one. *)
Definition body_huge_header : Body :=
  [chunk (put_u64 (2 ^ 64 - 1) ++ put_u64 (hash0 (2 ^ 64 - 1)))].
Definition body_huge_bad_hash : Body :=
  [chunk (put_u64 (2 ^ 64 - 1) ++ put_u64 (hash0 (2 ^ 64 - 1) + 1))].

Definition handler0 : handler := {| trname := "t"; sessions := ∅; oldSessions := ∅ |}.

(** Session 7 was closed at time 0 and its statistics are still held. *)
Definition handler7 : handler :=
  {| trname := "t";
     sessions := {[ 7 := {| Num := 3; Size := 30; Offset := 300 |} ]};
     oldSessions := {[ 7 := 0 ]} |}.

Definition put (body : Body) : Request := {| Method := "PUT"; URLBase := "t"; rbody := body |}.


Definition stats_in_range (st : Stats) : Prop :=
  int64_range (Num st) ∧ int64_range (Size st) ∧ int64_range (Offset st).

(** Statistics advanced by the totals of a log. *)
Definition bump (st : Stats) (num size offset : Z) : Stats :=
  {| Num := wrap64 (Num st + num); Size := wrap64 (Size st + size);
     Offset := wrap64 (Offset st + offset) |}.

(** A session's entry after the frames of a log: untouched without a frame of
    the session, created if missing and advanced otherwise. *)
Definition after (o : option Stats) (s : Z) (log : list event) : option Stats :=
  match session_frames s log with
  | [] => o
  | _ :: _ =>
      Some (bump (default zeroStats o)
                 (Z.of_nat (length (session_callbacks s log)))
                 (sumZ (Dsize <$> session_callbacks s log))
                 (sumZ ((λ f, hl64 f + payload f) <$> session_frames s log)))
  end.

(** The handler when an iteration is through with its frame. *)
Definition frameDone (h : handler) (f : frame) : handler :=
  match obj f with
  | Some o => addStats (sessid f) 1 (Dsize (hdr o)) (Dsize (hdr o)) (openFrame h f)
  | None => openFrame h f
  end.

(** The events of one iteration of the receive loop. *)
Definition iter_events (f : frame) : list event :=
  EvFrame f :: match obj f with
               | Some o => [EvCallback (sessid f) (hdr o)]
               | None => []
               end.

(** Breakage errors, as against the errors of the body. *)
Definition is_breakage (e : error) : Prop :=
  match e with
  | ErrBreakage1 _ | ErrBreakage2 _ _ _ => True
  | ReadErr _ => False
  end.

(** All the bytes a body still holds, chunk after chunk. *)
Definition bodyBytes (body : Body) : list byte := concat (cdata <$> body).

(** An object of five bytes at its start, in a body that goes on with the
    last-frame marker of its session; and an object whose header announces a
    negative size. *)
Definition obj5 : objReader := {| hdr := hdr_obj 5; off := 0; hlen := 0 |}.
Definition body_obj5 : Body :=
  [chunk (replicate 5 xab ++ frame_bytes hash0 (hdr_obj 0) 8)].
Definition obj_neg : objReader := {| hdr := hdr_obj (-1); off := 0; hlen := 0 |}.

End Transport.

Module Ais.

Local Open Scope Z_scope.

(** *** Data *)

(** [bcklist.ErrGone], the bucket-is-gone errors that [cmn.IsErrBucketNought]
    recognises, and the rest. *)
Inductive error : Type :=
  | ErrGone
  | ErrBucketNought (msg : string)
  | ErrOther (msg : string).

#[global] Instance error_eq_dec : EqDecision error.
Proof. solve_decision. Defined.

(** [err.Error()] *)
Definition errorText (e : error) : string :=
  match e with
  | ErrGone => "gone"
  | ErrBucketNought msg => msg
  | ErrOther msg => msg
  end.

(** The [taskAction] query parameter and the action of the message. *)
Inductive TaskAction : Type := TaskStart | TaskResult | TaskOther (s : string).
Inductive Action : Type := ActListObjects | ActSummaryBucket | ActOther (s : string).

#[global] Instance TaskAction_eq_dec : EqDecision TaskAction.
Proof. solve_decision. Defined.
#[global] Instance Action_eq_dec : EqDecision Action.
Proof. solve_decision. Defined.

Record BucketList : Type := { UUID : string; Entries : list string }.

(** [bcklist.BckListResp] *)
Record BckListResp : Type := {
  BckList : BucketList;
  Status : Z;
  Err : option error
}.

(** An xaction of the registry: whether it is a [*bcklist.BckListTask] (a
    task is known by a number), and what [Finished()] and [Result()] return. *)
Record Xact : Type := {
  listTask : option nat;
  Finished : bool;
  Result : string * option error
}.

(** Calls into the xaction registry and the tasks, in the order made. *)
Inductive call : Type :=
  | CallRenewBckList (uuid : string)
  | CallIncPending (task : nat)
  | CallDo (task : nat) (ta : TaskAction)
  | CallRenewSummary
  | CallGetXact (uuid : string).

(** The registry and its tasks answer by the number of the call: [renewAns n]
    is what the [n]-th [RenewBckListNewXact] returns, [doAns m] what the task
    sends back on the [m]-th [Do]. *)
Record Registry : Type := {
  renewAns : nat → error + nat;
  doAns : nat → BckListResp;
  summaryAns : option error;
  getXact : string → option Xact;
  writeJSONok : bool;
  calls : list call
}.

Definition logCall (reg : Registry) (c : call) : Registry :=
  {| renewAns := renewAns reg; doAns := doAns reg; summaryAns := summaryAns reg;
     getXact := getXact reg; writeJSONok := writeJSONok reg; calls := calls reg ++ [c] |}.

Definition isRenew (c : call) : bool :=
  match c with CallRenewBckList _ => true | _ => false end.
Definition isDo (c : call) : bool :=
  match c with CallDo _ _ => true | _ => false end.

Definition renewCount (reg : Registry) : nat := length (filter (λ c, isRenew c = true) (calls reg)).
Definition doCount (reg : Registry) : nat := length (filter (λ c, isDo c = true) (calls reg)).

(** What is written to the client: [invalmsghdlr] and its variants (with the
    status when one is passed), [WriteHeader], [writeJSON], or nothing. *)
Inductive response : Type :=
  | HTTPError (msg : string) (status : option Z) (silent : bool)
  | WriteHeader (status : Z)
  | WriteJSON (uuid : string)
  | NoWrite.

Definition StatusAccepted : Z := 202.
Definition StatusNotFound : Z := 404.
Definition StatusGone : Z := 410.
Definition StatusInternalServerError : Z := 500.

(** *** tgtasync.go *)

(** [xaction.Registry.RenewBckListNewXact] *)
Definition RenewBckListNewXact (reg : Registry) (uuid : string)
  : Registry * option nat * option error :=
  let ans := renewAns reg (renewCount reg) in
  let reg := logCall reg (CallRenewBckList uuid) in
  match ans with
  | inl e => (reg, None, Some e)
  | inr task => (reg, Some task, None)
  end.

Definition IncPending (reg : Registry) (task : nat) : Registry :=
  logCall reg (CallIncPending task).

(** [waitBckListResp]: [xact.Do(action, msg, ch)], then the one response. *)
Definition waitBckListResp (reg : Registry) (task : nat) (ta : TaskAction)
  : Registry * BucketList * Z * option error :=
  let resp := doAns reg (doCount reg) in
  (logCall reg (CallDo task ta), BckList resp, Status resp, Err resp).

(** The renew-increment-wait sequence; [status] and [err] are the variables
    of [doAsync] it assigns. *)
Definition renewIncWait (reg : Registry) (uuid : string) (ta : TaskAction) (status : Z)
  : res (Registry * Z * option error) :=
  let '(reg, xactList, err) := RenewBckListNewXact reg uuid in
  match err with
  | None =>
      match xactList with
      | Some task =>
          let reg := IncPending reg task in
          let '(reg, _, status, err) := waitBckListResp reg task ta in
          Ret (reg, status, err)
      | None => Panic "nil pointer dereference"
      end
  | Some e => Ret (reg, status, Some e)
  end.

Record Query : Type := { taskAction : TaskAction; silent : bool }.

Definition doAsync (reg : Registry) (query : Query) (action : Action) (uuid : string)
  : res (Registry * response * bool) :=
  let ta := taskAction query in
  if bool_decide (ta = TaskStart) then
    let status := StatusInternalServerError in
    r ← match action with
        | ActListObjects =>
            '(reg, status, err) ← renewIncWait reg uuid ta status;
            '(reg, status, err) ← (if bool_decide (err = Some ErrGone)
                                   then renewIncWait reg uuid ta status
                                   else Ret (reg, status, err));
            Ret (inr (reg, status, err))
        | ActSummaryBucket =>
            Ret (inr (logCall reg CallRenewSummary, status, summaryAns reg))
        | ActOther a =>
            Ret (inl (reg, HTTPError ("invalid action: " +:+ a) None false, false))
        end;
    match r with
    | inl out => Ret out
    | inr (reg, status, Some e) => Ret (reg, HTTPError (errorText e) (Some status) false, false)
    | inr (reg, status, None) => Ret (reg, WriteHeader StatusAccepted, true)
    end
  else
    let xact := getXact reg uuid in
    let reg := logCall reg (CallGetXact uuid) in
    match xact with
    | None =>
        Ret (reg, HTTPError ("Task " +:+ uuid +:+ " not found") (Some StatusNotFound)
                    (silent query), false)
    | Some xact =>
        if bool_decide (action = ActListObjects) then
          match listTask xact with
          | Some task =>
              let reg := IncPending reg task in
              let '(reg, bckList, status, err) := waitBckListResp reg task ta in
              match err with
              | Some e => Ret (reg, HTTPError (errorText e) (Some status) (silent query), false)
              | None =>
                  if bool_decide (ta = TaskResult) then
                    if bool_decide (UUID bckList ≠ "")
                    then Ret (reg, WriteJSON (UUID bckList), writeJSONok reg)
                    else Panic "assertion failed"
                  else Ret (reg, WriteHeader status, true)
              end
          | None =>
              Ret (reg, HTTPError (uuid +:+ " is not bucket list task") None false, false)
          end
        else if negb (Finished xact) then Ret (reg, WriteHeader StatusAccepted, true)
        else
          match Result xact with
          | (_, Some e) =>
              match e with
              | ErrBucketNought _ =>
                  Ret (reg, HTTPError (errorText e) (Some StatusGone) false, false)
              | _ => Ret (reg, HTTPError (errorText e) None false, false)
              end
          | (result, None) =>
              if bool_decide (ta = TaskResult)
              then Ret (reg, WriteJSON result, writeJSONok reg)
              else Ret (reg, NoWrite, true)
          end
    end.

(** *** Vocabulary of the statements *)

(** What one renew-increment-wait sequence leaves in [status] and [err], when
    its renew is the [n]-th and its [Do], if any, the [m]-th. *)
Definition seqOutcome (reg : Registry) (n m : nat) (status : Z) : Z * option error :=
  match renewAns reg n with
  | inl e => (status, Some e)
  | inr _ => (Status (doAns reg m), Err (doAns reg m))
  end.

(** The [Do] calls of the sequence whose renew is the [n]-th. *)
Definition seqDos (reg : Registry) (n : nat) : nat :=
  match renewAns reg n with
  | inl _ => 0
  | inr _ => 1
  end.

(** The calls of the sequence whose renew is the [n]-th, in the order made:
    the renew, and, when it yields a task, the increment of the task's pending
    count and the [Do] that [waitBckListResp] sends it. *)
Definition seqCalls (reg : Registry) (n : nat) (uuid : string) (ta : TaskAction) : list call :=
  CallRenewBckList uuid ::
  match renewAns reg n with
  | inl _ => []
  | inr task => [CallIncPending task; CallDo task ta]
  end.

(** *** A concrete registry: the first task is gone, the second answers 200. *)

Definition registry0 : Registry :=
  {| renewAns := λ n, inr n;
     doAns := λ m, match m with
                   | O => {| BckList := {| UUID := "u"; Entries := [] |};
                             Status := StatusGone; Err := Some ErrGone |}
                   | S _ => {| BckList := {| UUID := "u"; Entries := [] |};
                               Status := 200; Err := None |}
                   end;
     summaryAns := None;
     getXact := λ _, None;
     writeJSONok := true;
     calls := [] |}.

Definition startQuery : Query := {| taskAction := TaskStart; silent := false |}.

(** Every [Do] sent to a task comes right after the increment of that task's
    pending count, and every increment is followed by its [Do]. *)
Fixpoint paired (l : list call) : bool :=
  match l with
  | [] => true
  | CallIncPending task :: CallDo task' _ :: l' => bool_decide (task = task') && paired l'
  | CallIncPending _ :: _ => false
  | CallDo _ _ :: _ => false
  | _ :: l' => paired l'
  end.

Definition isGetXact (c : call) : bool :=
  match c with CallGetXact _ => true | _ => false end.

End Ais.

(** * Properties *)

Module ClusterProps.

Import Cluster.

(** *** Basic facts: ranging over a map, [delCopyMd] *)

Lemma elem_of_range (w : World) (m : MPI) (k : string) (v : MountpathInfo) :
  (k, v) ∈ range w m ↔ m !! k = Some v.
Proof.
  unfold range. rewrite (map_order_perm w (map_to_list m)).
  apply elem_of_map_to_list.
Qed.

Lemma NoDup_fst_range (w : World) (m : MPI) : NoDup (fst <$> range w m).
Proof.
  unfold range. rewrite (map_order_perm w (map_to_list m)).
  apply NoDup_fst_map_to_list.
Qed.

Lemma length_range (w : World) (m : MPI) : length (range w m) = size m.
Proof.
  unfold range. rewrite (map_order_perm w (map_to_list m)).
  apply length_map_to_list.
Qed.

Lemma cmap_set_copies (lom : LOM) (c : option MPI) :
  cmap (set_copies lom c) = default ∅ c.
Proof. reflexivity. Qed.

Lemma cmap_delCopyMd (lom : LOM) (f : string) :
  cmap (delCopyMd lom f) =
  if bool_decide (size (delete f (cmap lom)) ≤ 1) then ∅ else delete f (cmap lom).
Proof.
  unfold delCopyMd, cmap. destruct (copies (md lom)) as [c|]; simpl.
  - case_bool_decide; reflexivity.
  - rewrite delete_empty, map_size_empty. reflexivity.
Qed.

Lemma delCopyMd_subseteq (lom : LOM) (f : string) : cmap (delCopyMd lom f) ⊆ cmap lom.
Proof.
  rewrite cmap_delCopyMd. case_bool_decide.
  - apply map_empty_subseteq.
  - apply delete_subseteq.
Qed.

Lemma delCopyMd_lookup (lom : LOM) (f : string) : cmap (delCopyMd lom f) !! f = None.
Proof.
  rewrite cmap_delCopyMd. case_bool_decide.
  - apply lookup_empty.
  - apply lookup_delete_eq.
Qed.

Lemma delCopyMd_not_single (lom : LOM) (f : string) : ncopies (delCopyMd lom f) ≠ 1.
Proof.
  unfold ncopies. rewrite cmap_delCopyMd. case_bool_decide.
  - rewrite map_size_empty. lia.
  - lia.
Qed.

Lemma delCopyMd_decreases (lom : LOM) (f : string) :
  is_Some (cmap lom !! f) → ncopies (delCopyMd lom f) < ncopies lom.
Proof.
  intros Hv. unfold ncopies. rewrite cmap_delCopyMd.
  pose proof (map_size_delete_Some f (cmap lom) Hv) as Hsz.
  assert (size (cmap lom) ≠ 0) as Hne.
  { intros H0. apply map_size_empty_inv in H0. rewrite H0, lookup_empty in Hv.
    by destruct Hv. }
  case_bool_decide.
  - rewrite map_size_empty. lia.
  - lia.
Qed.

Lemma delCopyMd_le (lom : LOM) (f : string) : ncopies (delCopyMd lom f) ≤ ncopies lom.
Proof. unfold ncopies. apply map_subseteq_size, delCopyMd_subseteq. Qed.

Lemma delCopyMd_fields (lom : LOM) (f : string) :
  FQN (delCopyMd lom f) = FQN lom ∧ mpathInfo (delCopyMd lom f) = mpathInfo lom
  ∧ writeImmediate (delCopyMd lom f) = writeImmediate lom.
Proof. unfold delCopyMd. case_bool_decide; done. Qed.

(** *** [syncMetaWithCopies] *)

Lemma persistCopies_fails (w : World) (own : string) (l : list (string * MountpathInfo))
    (last f : string) (e : error) :
  persistCopies w own l last = (f, Some e) →
  f ∈ l.*1 ∧ f ≠ own ∧ io_fault w SysSetXattr f = true ∧ e = ErrIO SysSetXattr f.
Proof.
  revert last. induction l as [|[k v] l IH]; intros last; simpl.
  - intros [= _ ?].
  - case_bool_decide as Hown.
    + intros (? & ? & ? & ?)%IH. split_and!; [by right | done..].
    + destruct (io_fault w SysSetXattr k) eqn:Hk.
      * intros [= <- <-]. split_and!; [left | done..].
      * intros (? & ? & ? & ?)%IH. split_and!; [by right | done..].
Qed.

Lemma persistCopies_succeeds (w : World) (own : string) (l : list (string * MountpathInfo))
    (last : string) :
  (persistCopies w own l last).2 = None ↔
  ∀ f, f ∈ l.*1 → f ≠ own → io_fault w SysSetXattr f = false.
Proof.
  revert last. induction l as [|[k v] l IH]; intros last; simpl.
  - split; [|done]. intros _ f Hf. by apply elem_of_nil in Hf.
  - case_bool_decide as Hown.
    + rewrite IH. split.
      * intros H f [->|Hf]%elem_of_cons Hne; [done | by apply H].
      * intros H f Hf. apply H. by right.
    + destruct (io_fault w SysSetXattr k) eqn:Hk; simpl.
      * split; [done|]. intros H. rewrite (H k) in Hk; [done | left | done].
      * rewrite IH. split.
        -- intros H f [->|Hf]%elem_of_cons Hne; [done | by apply H].
        -- intros H f Hf. apply H. by right.
Qed.

Lemma persistMdOnCopies_fails (w : World) (lom : LOM) (f : string) (e : error) :
  persistMdOnCopies w lom = (f, Some e) →
  is_Some (cmap lom !! f) ∧ f ≠ FQN lom ∧ io_fault w SysSetXattr f = true.
Proof.
  intros (H & Hne & Hio & _)%persistCopies_fails. split_and!; [|done..].
  apply list_elem_of_fmap in H as [[k v] [-> Hkv]].
  apply elem_of_range in Hkv. by exists v.
Qed.

(** The sync ends on a persist that succeeds: every copy left, other than the
    LOM's own, takes the metadata. *)
Lemma persistMdOnCopies_succeeds (w : World) (lom : LOM) :
  (persistMdOnCopies w lom).2 = None ↔
  ∀ f, is_Some (cmap lom !! f) → f ≠ FQN lom → io_fault w SysSetXattr f = false.
Proof.
  unfold persistMdOnCopies. rewrite persistCopies_succeeds. split.
  - intros H f [v Hv] Hne. apply H; [|done].
    apply list_elem_of_fmap. exists (f, v). split; [done|]. by apply elem_of_range.
  - intros H f Hf Hne. apply H; [|done].
    apply list_elem_of_fmap in Hf as [[k v] [-> Hkv]].
    apply elem_of_range in Hkv. by exists v.
Qed.

Lemma persistLoop_returns (fuel : nat) : ∀ (w : World) (lom : LOM),
  ncopies lom < fuel →
  ∃ w' lom', persistLoop fuel w lom = Ret (w', lom', None)
             ∧ cmap lom' ⊆ cmap lom
             ∧ FQN lom' = FQN lom ∧ mpathInfo lom' = mpathInfo lom
             ∧ (ncopies lom ≠ 1 → ncopies lom' ≠ 1)
             ∧ files w' = files w.
Proof.
  induction fuel as [|fuel IH]; intros w lom Hlt; [lia|].
  simpl. destruct (persistMdOnCopies w lom) as [f [e|]] eqn:Hp.
  - pose proof (persistMdOnCopies_fails _ _ _ _ Hp) as (Hin & _).
    pose proof (delCopyMd_decreases lom f Hin) as Hdec.
    set (w1 := if bool_decide (f ∈ files w) && io_fault w SysAccess f
               then FSHC w f else w).
    destruct (IH w1 (delCopyMd lom f)) as (w' & lom' & Hr & Hsub & HF & HM & H1 & Hfiles);
      [lia|].
    exists w', lom'. split; [exact Hr|].
    destruct (delCopyMd_fields lom f) as (HF' & HM' & _).
    repeat split.
    + etrans; [exact Hsub | apply delCopyMd_subseteq].
    + congruence.
    + congruence.
    + intros _. apply H1, delCopyMd_not_single.
    + rewrite Hfiles. unfold w1. by destruct (_ && _).
  - exists w, lom. repeat split; done.
Qed.

Lemma persistLoop_fuel_mono (fuel : nat) : ∀ (w : World) (lom : LOM) r (fuel' : nat),
  persistLoop fuel w lom = Ret r → fuel ≤ fuel' → persistLoop fuel' w lom = Ret r.
Proof.
  induction fuel as [|fuel IH]; intros w lom r fuel' Hr Hle; [done|].
  destruct fuel' as [|fuel']; [lia|]. simpl in *.
  destruct (persistMdOnCopies w lom) as [f [e|]]; [|done].
  apply IH; [done | lia].
Qed.

Lemma syncMetaWithCopies_returns (w : World) (lom : LOM) :
  ∃ w' lom', syncMetaWithCopies w lom = Ret (w', lom', None)
             ∧ cmap lom' ⊆ cmap lom
             ∧ FQN lom' = FQN lom ∧ mpathInfo lom' = mpathInfo lom
             ∧ (ncopies lom ≠ 1 → ncopies lom' ≠ 1)
             ∧ files w' = files w.
Proof.
  unfold syncMetaWithCopies.
  destruct (HasCopies lom); cbn [negb]; [|by exists w, lom].
  destruct (writeImmediate lom); cbn [negb]; [|by exists w, (makeDirty lom)].
  apply persistLoop_returns. lia.
Qed.

Lemma persistMdOnCopies_FSHC (w : World) (f : string) (lom : LOM) :
  persistMdOnCopies (FSHC w f) lom = persistMdOnCopies w lom.
Proof.
  unfold persistMdOnCopies. change (range (FSHC w f) (cmap lom)) with (range w (cmap lom)).
  generalize "". induction (range w (cmap lom)) as [|[k v] l IH]; intros last; simpl; [done|].
  rewrite !IH. done.
Qed.

(** The persist loop, iteration by iteration: the copies it drops, in order. *)
Lemma persistLoop_trace (n : nat) : ∀ (w : World) (lom : LOM),
  ncopies lom ≤ n →
  ∃ dropped w' lom',
    length dropped ≤ ncopies lom
    ∧ lom' = foldl delCopyMd lom dropped
    ∧ (∀ i f, dropped !! i = Some f →
         let lom_i := foldl delCopyMd lom (take i dropped) in
         persistMdOnCopies w lom_i = (f, Some (ErrIO SysSetXattr f))
         ∧ is_Some (cmap lom_i !! f)
         ∧ cmap (delCopyMd lom_i f) !! f = None
         ∧ ncopies (delCopyMd lom_i f) < ncopies lom_i)
    ∧ (persistMdOnCopies w lom').2 = None
    ∧ files w' = files w ∧ io_fault w' = io_fault w
    ∧ fslog w' = fslog w ++ (EvFSHC <$> notified w dropped)
    ∧ (∀ fuel, length dropped < fuel → persistLoop fuel w lom = Ret (w', lom', None))
    ∧ (∀ fuel, fuel ≤ length dropped → persistLoop fuel w lom = OutOfFuel).
Proof.
  induction n as [|n IH]; intros w lom Hle.
  - (* an empty map: the first persist succeeds *)
    assert (cmap lom = ∅) as Hempty by (apply map_size_empty_inv; unfold ncopies in Hle; lia).
    assert ((persistMdOnCopies w lom).2 = None) as Hp.
    { apply persistMdOnCopies_succeeds. intros f [v Hv]. by rewrite Hempty, lookup_empty in Hv. }
    exists [], w, lom. split_and!; [simpl; lia | done | | done | done | done | | |].
    + intros i f Hi. by rewrite lookup_nil in Hi.
    + unfold notified. by rewrite filter_nil, fmap_nil, app_nil_r.
    + intros [|fuel] Hlt; [simpl in Hlt; lia|]. simpl.
      destruct (persistMdOnCopies w lom) as [f o]. simpl in Hp. by rewrite Hp.
    + intros fuel Hf. simpl in Hf. by assert (fuel = 0) as -> by lia.
  - destruct (persistMdOnCopies w lom) as [f [e|]] eqn:Hp.
    + pose proof Hp as (Hin & Hne & Hio & ->)%persistCopies_fails.
      apply persistMdOnCopies_fails in Hp as Hp'. destruct Hp' as (Hsome & _).
      pose proof (delCopyMd_decreases lom f Hsome) as Hdec.
      set (w1 := if bool_decide (f ∈ files w) && io_fault w SysAccess f
                 then FSHC w f else w).
      assert (files w1 = files w ∧ io_fault w1 = io_fault w
              ∧ (∀ l, persistMdOnCopies w1 l = persistMdOnCopies w l)
              ∧ (∀ l, notified w1 l = notified w l)
              ∧ fslog w1 = fslog w ++ (EvFSHC <$> notified w [f])) as (Hf1 & Hio1 & Hp1 & Hn1 & Hl1).
      { assert (notified w [f] = if bool_decide (f ∈ files w) && io_fault w SysAccess f
                                 then [f] else []) as ->.
        { unfold notified. rewrite filter_cons, filter_nil.
          destruct (decide (f ∈ files w ∧ io_fault w SysAccess f = true)) as [[H1 H2]|Hn].
          - by rewrite bool_decide_eq_true_2, H2.
          - destruct (bool_decide (f ∈ files w)) eqn:Hfile; [|done].
            apply bool_decide_eq_true in Hfile.
            destruct (io_fault w SysAccess f); [|done]. by destruct Hn. }
        unfold w1. destruct (_ && _).
        - split_and!; intros; try exact eq_refl. apply persistMdOnCopies_FSHC.
        - split_and!; intros; try exact eq_refl. simpl. by rewrite app_nil_r. }
      destruct (IH w1 (delCopyMd lom f)) as
        (dropped & w' & lom' & Hlen & Hlom & Hsteps & Hend & Hfiles & Hio' & Hlog & Hfuel & Hout);
        [lia|].
      exists (f :: dropped), w', lom'.
      split_and!.
      * simpl. lia.
      * done.
      * intros [|i] g Hi lom_i.
        -- simpl in Hi. injection Hi as <-. subst lom_i. simpl.
           split_and!; [done | done | apply delCopyMd_lookup | done].
        -- simpl in Hi. subst lom_i. simpl.
           rewrite <- Hp1. by apply Hsteps.
      * by rewrite <- Hp1.
      * congruence.
      * congruence.
      * rewrite Hlog, Hl1, Hn1, <- app_assoc, <- fmap_app. f_equal. f_equal.
        unfold notified. by rewrite <- filter_app.
      * intros [|fuel] Hlt; [simpl in Hlt; lia|]. cbn [persistLoop].
        rewrite Hp. fold w1. apply Hfuel. simpl in Hlt. lia.
      * intros [|fuel] Hlt; [done|]. cbn [persistLoop].
        rewrite Hp. fold w1. apply Hout. simpl in Hlt. lia.
    + exists [], w, lom. split_and!; [simpl; lia | done | | by rewrite Hp | done | done | | |].
      * intros i g Hi. by rewrite lookup_nil in Hi.
      * unfold notified. by rewrite filter_nil, fmap_nil, app_nil_r.
      * intros [|fuel] Hlt; [simpl in Hlt; lia|]. simpl. by rewrite Hp.
      * intros fuel Hf. simpl in Hf. by assert (fuel = 0) as -> by lia.
Qed.

(** C9. [syncMetaWithCopies] terminates on every LOM.  Without copies it
    returns at once, and under a write policy that is not immediate it marks
    the metadata dirty and returns.  On the immediate path the persist loop
    drops, one per failing iteration, the copies [dropped]: each of them is the
    copy the failing persist named, a key of [md.copies] at that moment, gone
    from the map afterwards, and the map is strictly smaller each time; there
    are at most as many failures as there were copies.  The loop ends on a
    persist that succeeds (that of an emptied map included) and never returns
    an error; it takes exactly one iteration more than it drops copies; the
    health checker is told about the dropped copies whose file is there but
    cannot be accessed, and no file is touched. *)
Theorem syncMetaWithCopies_terminates (w : World) (lom : LOM) :
  (HasCopies lom = false → syncMetaWithCopies w lom = Ret (w, lom, None))
  ∧ (HasCopies lom = true → writeImmediate lom = false →
     syncMetaWithCopies w lom = Ret (w, makeDirty lom, None))
  ∧ (HasCopies lom = true → writeImmediate lom = true →
     ∃ dropped w' lom',
       syncMetaWithCopies w lom = Ret (w', lom', None)
       ∧ length dropped ≤ ncopies lom
       ∧ lom' = foldl delCopyMd lom dropped
       ∧ (∀ i f, dropped !! i = Some f →
            let lom_i := foldl delCopyMd lom (take i dropped) in
            persistMdOnCopies w lom_i = (f, Some (ErrIO SysSetXattr f))
            ∧ is_Some (cmap lom_i !! f)
            ∧ cmap (delCopyMd lom_i f) !! f = None
            ∧ ncopies (delCopyMd lom_i f) < ncopies lom_i)
       ∧ (persistMdOnCopies w lom').2 = None
       ∧ files w' = files w
       ∧ fslog w' = fslog w ++ (EvFSHC <$> notified w dropped)
       ∧ (∀ fuel, length dropped < fuel → persistLoop fuel w lom = Ret (w', lom', None))
       ∧ (∀ fuel, fuel ≤ length dropped → persistLoop fuel w lom = OutOfFuel)).
Proof.
  split_and!.
  - intros H. unfold syncMetaWithCopies. by rewrite H.
  - intros H1 H2. unfold syncMetaWithCopies. by rewrite H1, H2.
  - intros H1 H2. unfold syncMetaWithCopies. rewrite H1, H2. cbn [negb].
    destruct (persistLoop_trace (ncopies lom) w lom (le_n _)) as
      (dropped & w' & lom' & Hlen & Hlom & Hsteps & Hend & Hfiles & _ & Hlog & Hfuel & Hout).
    exists dropped, w', lom'. split_and!; [|done..].
    apply Hfuel. lia.
Qed.

(** On the concrete world where the write at the copy on [/mp/b] fails: of the
    three entries the sync drops that one, in two iterations, and keeps the
    other two. *)
Lemma syncMetaWithCopies_terminates_witness :
  ∃ w' lom',
    syncMetaWithCopies world_xattrB lom3 = Ret (w', lom', None)
    ∧ lom' = delCopyMd lom3 fqnB
    ∧ cmap lom' = {[ fqnA := mpA; fqnC := mpC ]}
    ∧ persistLoop 1 world_xattrB lom3 = OutOfFuel.
Proof.
  destruct (syncMetaWithCopies_terminates world_xattrB lom3) as (_ & _ & Hloop).
  destruct (Hloop eq_refl eq_refl)
    as (dropped & w' & lom' & Hr & Hlen & Hlom & Hsteps & Hend & _ & _ & _ & Hout).
  exists w', lom'.
  assert (lom' = delCopyMd lom3 fqnB) as Hl.
  { vm_compute in Hr. injection Hr as _ <-. by vm_compute. }
  split_and!; [done | done | rewrite Hl; by vm_compute |].
  apply Hout. destruct dropped as [|f dropped]; [|simpl; lia].
  simpl in Hlom. rewrite Hlom in Hl. exfalso.
  apply (f_equal (λ l, cmap l !! fqnB)) in Hl. by vm_compute in Hl.
Defined.

(** *** [DelCopies] *)

Lemma foldl_delCopyMd_subseteq (F : list string) : ∀ lom,
  cmap (foldl delCopyMd lom F) ⊆ cmap lom.
Proof.
  induction F as [|f F IH]; intros lom; simpl; [done|].
  etrans; [apply IH | apply delCopyMd_subseteq].
Qed.

Lemma delCopiesMd_ok (F : list string) : ∀ lom n lom',
  delCopiesMd lom n F = (lom', None) →
  lom' = foldl delCopyMd lom F ∧ ∀ f, f ∈ F → cmap lom' !! f = None.
Proof.
  induction F as [|f F IH]; intros lom n lom'; simpl.
  - intros [= <-]. split; [done|]. intros f Hf. by apply elem_of_nil in Hf.
  - destruct (cmap lom !! f) eqn:Hf; [|done].
    intros H. apply IH in H as [-> Hall]. split; [done|].
    intros g [->|Hg]%elem_of_cons; [|by apply Hall].
    eapply lookup_weaken_None; [apply delCopyMd_lookup|].
    apply foldl_delCopyMd_subseteq.
Qed.

Lemma foldl_delCopyMd_lookup (F : list string) : ∀ lom g,
  g ∈ F → cmap (foldl delCopyMd lom F) !! g = None.
Proof.
  induction F as [|f F IH]; intros lom g Hg; simpl; [by apply elem_of_nil in Hg|].
  apply elem_of_cons in Hg as [->|Hg]; [|by apply IH].
  eapply lookup_weaken_None; [apply delCopyMd_lookup | apply foldl_delCopyMd_subseteq].
Qed.

Lemma delCopiesMd_err (F : list string) : ∀ lom n lom' e,
  delCopiesMd lom n F = (lom', Some e) →
  ∃ pre f post, F = pre ++ f :: post ∧ e = ErrCopyDoesNotExist f n
                ∧ lom' = foldl delCopyMd lom pre ∧ cmap lom' !! f = None
                ∧ ∀ i g, pre !! i = Some g →
                         is_Some (cmap (foldl delCopyMd lom (take i pre)) !! g).
Proof.
  induction F as [|f F IH]; intros lom n lom' e; simpl; [done|].
  destruct (cmap lom !! f) eqn:Hf.
  - intros H. apply IH in H as (pre & g & post & -> & -> & -> & Hg & Hpre).
    exists (f :: pre), g, post. split_and!; [done..|].
    intros [|i] h Hi; simpl in *.
    + injection Hi as <-. by eexists.
    + by apply Hpre.
  - intros [= <- <-]. exists [], f, F. split_and!; [done..|].
    intros i g Hi. by rewrite lookup_nil in Hi.
Qed.

Lemma DelCopies_returns (w : World) (lom : LOM) (F : list string) :
  ∃ r, DelCopies w lom F = Ret r.
Proof.
  unfold DelCopies. destruct (delCopiesMd _ _ _) as [lom1 [e|]]; [by eexists|].
  destruct (syncMetaWithCopies_returns w lom1) as (w' & lom' & -> & _).
  by eexists.
Qed.

(** C1, as the code has it.  When [DelCopies] fails with the
    copy-does-not-exist error on the FQN [f], [f] stands in the argument list
    after a prefix [pre] of FQNs that were each a key of [md.copies] when their
    turn came and have been dropped from it (by [delCopyMd], which sets a map
    left with at most one entry to nil); [f] is not a key of the map that is
    left, and nothing else was touched.  [md.copies] is what it was before the
    call exactly when that prefix is empty, which is exactly when the first
    argument is not a key of [md.copies] before the call.  When [DelCopies]
    succeeds, no FQN of the argument list is left in [md.copies]. *)
Theorem DelCopies_error_after_prefix (w : World) (lom : LOM) (F : list string)
    (w' : World) (lom' : LOM) :
  (∀ f n, DelCopies w lom F = Ret (w', lom', Some (ErrCopyDoesNotExist f n)) →
     ∃ pre post, F = pre ++ f :: post
                 ∧ (∀ i g, pre !! i = Some g →
                           is_Some (cmap (foldl delCopyMd lom (take i pre)) !! g))
                 ∧ lom' = foldl delCopyMd lom pre
                 ∧ (∀ g, g ∈ pre → cmap lom' !! g = None)
                 ∧ cmap lom' !! f = None
                 ∧ w' = w ∧ n = NumCopies lom
                 ∧ (copies (md lom') = copies (md lom) ↔ pre = [])
                 ∧ (pre = [] ↔ ∀ g, head F = Some g → cmap lom !! g = None))
  ∧ (DelCopies w lom F = Ret (w', lom', None) → ∀ f, f ∈ F → cmap lom' !! f = None)
  ∧ (∃ r, DelCopies w lom F = Ret r).
Proof.
  split_and!; [| |apply DelCopies_returns].
  - intros f n. unfold DelCopies.
    destruct (delCopiesMd lom (NumCopies lom) F) as [lom1 [e|]] eqn:Hd.
    + intros [= <- <- ->].
      apply delCopiesMd_err in Hd as (pre & g & post & -> & [= <- <-] & -> & Hg & Hpre).
      exists pre, post.
      assert (∀ h, h ∈ pre → cmap (foldl delCopyMd lom pre) !! h = None) as Hgone.
      { intros h Hh. by apply foldl_delCopyMd_lookup. }
      split_and!; try done.
      * split; [|by intros ->].
        destruct pre as [|h pre]; [done|]. intros Heq. exfalso.
        destruct (Hpre 0 h eq_refl) as [mi Hmi]. simpl in Hmi.
        specialize (Hgone h ltac:(left)).
        unfold cmap in Hgone at 1. rewrite Heq in Hgone. fold (cmap lom) in Hgone.
        congruence.
      * split.
        -- intros -> h. simpl. by intros [= <-].
        -- intros Hhead. destruct pre as [|h pre]; [done|]. exfalso.
           destruct (Hpre 0 h eq_refl) as [mi Hmi]. simpl in Hmi.
           rewrite (Hhead h eq_refl) in Hmi. done.
    + destruct (syncMetaWithCopies_returns w lom1) as (w2 & lom2' & -> & _).
      simpl. done.
  - unfold DelCopies.
    destruct (delCopiesMd lom (NumCopies lom) F) as [lom1 [e|]] eqn:Hd; [done|].
    destruct (syncMetaWithCopies_returns w lom1) as (w2 & lom2' & -> & Hsub & _).
    simpl. intros [= <- <-] f Hf.
    apply delCopiesMd_ok in Hd as [_ Hall].
    eapply lookup_weaken_None; [by apply Hall | done].
Qed.

(** C1, as stated, fails: with copies on three mountpaths, deleting the copy
    on [/mp/b] and a copy on [/mp/d] that does not exist fails on the second
    FQN after the first one has been dropped from [md.copies]. *)
Lemma DelCopies_partial_deletion :
  ∃ lom', DelCopies world0 lom3 [fqnB; fqnD]
          = Ret (world0, lom', Some (ErrCopyDoesNotExist fqnD 3))
          ∧ cmap lom3 !! fqnD = None
          ∧ cmap lom3 !! fqnB = Some mpB
          ∧ cmap lom' !! fqnB = None
          ∧ copies (md lom') ≠ copies (md lom3).
Proof.
  eexists. split; [vm_compute; reflexivity|].
  split_and!; [by vm_compute..|].
  intros H. apply (f_equal (λ c, default ∅ c !! fqnB)) in H. vm_compute in H. done.
Qed.

(** *** [LBGet] *)

(** The scan of [leastUtilCopy] over any list of entries: the utilization kept
    is a lower bound of the start and of every other copy seen, and the
    candidate is either the start or the first entry that reached that
    utilization. *)
Lemma leastUtil_scan (w : World) (lom : LOM) (c0 : string) (u0 : Z)
    (l : list (string * MountpathInfo)) :
  let r := foldl (leastUtilStep w lom) (c0, u0) l in
  (r.2 ≤ u0)%Z
  ∧ (∀ e, e ∈ l → e.1 ≠ FQN lom → (r.2 ≤ mpathUtil w (Path e.2))%Z)
  ∧ (r = (c0, u0)
     ∨ ∃ pre mi post, l = pre ++ (r.1, mi) :: post
         ∧ r.1 ≠ FQN lom ∧ r.2 = mpathUtil w (Path mi) ∧ (r.2 < u0)%Z
         ∧ ∀ e, e ∈ pre → e.1 ≠ FQN lom → (r.2 < mpathUtil w (Path e.2))%Z).
Proof.
  induction l as [|[k v] l IH] using rev_ind; simpl.
  - split_and!; [lia | by intros e ?%elem_of_nil | by left].
  - rewrite foldl_app. simpl.
    destruct (foldl (leastUtilStep w lom) (c0, u0) l) as [c u] eqn:Hf.
    simpl in IH. destruct IH as (Hle & Hall & Hcase).
    unfold leastUtilStep. case_bool_decide as Hk.
    + destruct (Z.ltb_spec (mpathUtil w (Path v)) u) as [Hlt|Hge]; simpl.
      * split_and!; [lia | |].
        -- intros e [He|He%list_elem_of_singleton]%elem_of_app Hne.
           ++ specialize (Hall e He Hne). lia.
           ++ subst e. simpl. lia.
        -- right. exists l, v, []. split_and!; try done; [lia|].
           intros e He Hne. specialize (Hall e He Hne). lia.
      * split_and!; [done | |].
        -- intros e [He|He%list_elem_of_singleton]%elem_of_app Hne.
           ++ by apply Hall.
           ++ subst e. simpl. lia.
        -- destruct Hcase as [Heq | (pre & mi & post & -> & ? & ? & ? & ?)]; [by left|].
           right. exists pre, mi, (post ++ [(k, v)]).
           rewrite <- app_assoc. done.
    + simpl. split_and!; [done | |].
      * intros e [He|He%list_elem_of_singleton]%elem_of_app Hne.
        -- by apply Hall.
        -- subst e. simpl in Hne. done.
      * destruct Hcase as [Heq | (pre & mi & post & -> & ? & ? & ? & ?)]; [by left|].
        right. exists pre, mi, (post ++ [(k, v)]).
        rewrite <- app_assoc. done.
Qed.

(** C5. Without copies [LBGet] returns the LOM's own FQN.  With copies it
    returns either the LOM's own FQN or the FQN of another entry of
    [md.copies]; the utilization [u] of the mountpath of what it returns (the
    LOM's own mountpath for its own FQN) is at most that of the LOM's own
    mountpath and of every other copy's mountpath.  Ties go to the incumbent:
    the LOM's own FQN is given up only for a strictly smaller utilization, and
    every copy ranged over before the one returned has a strictly greater
    utilization. *)
Theorem LBGet_least_utilized (w : World) (lom : LOM) :
  (NumCopies lom ≤ 1 → LBGet w lom = FQN lom)
  ∧ (1 < NumCopies lom →
     ∃ u : Z,
       ((LBGet w lom = FQN lom ∧ u = mpathUtil w (Path (mpathInfo lom)))
        ∨ (LBGet w lom ≠ FQN lom
           ∧ (u < mpathUtil w (Path (mpathInfo lom)))%Z
           ∧ ∃ pre mi post,
               range w (GetCopies lom) = pre ++ (LBGet w lom, mi) :: post
               ∧ cmap lom !! LBGet w lom = Some mi
               ∧ u = mpathUtil w (Path mi)
               ∧ ∀ e, e ∈ pre → e.1 ≠ FQN lom → (u < mpathUtil w (Path e.2))%Z))
       ∧ (u ≤ mpathUtil w (Path (mpathInfo lom)))%Z
       ∧ ∀ copyFQN mi, cmap lom !! copyFQN = Some mi → copyFQN ≠ FQN lom →
                       (u ≤ mpathUtil w (Path mi))%Z).
Proof.
  unfold LBGet, HasCopies. split.
  - intros H. rewrite bool_decide_eq_false_2 by lia. done.
  - intros H. rewrite bool_decide_eq_true_2 by lia. cbn [negb].
    unfold leastUtilCopy.
    pose proof (leastUtil_scan w lom (FQN lom) (mpathUtil w (Path (mpathInfo lom)))
                  (range w (GetCopies lom))) as Hs.
    cbv zeta in *.
    destruct (foldl _ _ _) as [c u]. simpl in *.
    destruct Hs as (Hle & Hall & Hcase).
    exists u. split_and!.
    + destruct Hcase as [[= -> ->] | (pre & mi & post & Hl & Hne & Hu & Hlt & Hpre)];
        [by left|].
      right. split_and!; [done..|].
      exists pre, mi, post. split_and!; try done.
      apply (elem_of_range w). unfold GetCopies in Hl. rewrite Hl.
      apply elem_of_app. right. left.
    + done.
    + intros f mi Hf Hne. apply (Hall (f, mi)); [|done].
      by apply elem_of_range.
Qed.

(** *** [ToMpath] *)

(** C4. [ToMpath] returns [isHrw = true] exactly when the HRW oracle yields a
    mountpath and its path differs from the path of the LOM's mountpath; when
    the oracle fails [isHrw] is false. *)
Theorem ToMpath_isHrw_iff (w : World) (lom : LOM) :
  (ToMpath w lom).2 = true
  ↔ ∃ hrwMi, HrwMpath w (uname (md lom)) = inr hrwMi
             ∧ Path (mpathInfo lom) ≠ Path hrwMi.
Proof.
  unfold ToMpath. destruct (HrwMpath w (uname (md lom))) as [e|hrwMi].
  - simpl. split; [done | by intros (? & ? & _)].
  - case_bool_decide as Hp.
    + simpl. split; [|done]. intros _. by exists hrwMi.
    + assert (∀ x : LOM * option MountpathInfo * bool, x.2 = false →
              x.2 = true ↔ ∃ m, inr (A:=error) hrwMi = inr m ∧ Path (mpathInfo lom) ≠ Path m)
        as Hfalse.
      { intros x ->. split; [done|]. intros (m & [= <-] & Hne). by destruct Hp. }
      destruct (_ || _); [by apply Hfalse|].
      destruct (foldl _ _ _) as [lom' got].
      destruct (_ <=? _)%Z; by apply Hfalse.
Qed.

(** *** [DelExtraCopies] *)

Lemma delExtraStep_skip (lom : LOM) (fqn : list string) (w : World) (rem : bool)
    (err : option error) (p : string) (mi : MountpathInfo) :
  is_Some (cmap lom !! MakePathFQN w mi (bck lom) ObjectType (ObjName lom)) →
  delExtraStep lom fqn (w, rem, err) (p, mi) = (w, rem, err).
Proof. intros [v Hv]. unfold delExtraStep. simpl. by rewrite Hv. Qed.

Lemma delExtraStep_fail (lom : LOM) (fqn : list string) (w : World) (rem : bool)
    (err : option error) (p : string) (mi : MountpathInfo) :
  let f := MakePathFQN w mi (bck lom) ObjectType (ObjName lom) in
  cmap lom !! f = None → io_fault w SysUnlink f = true →
  delExtraStep lom fqn (w, rem, err) (p, mi)
  = (set_files_log w (files w) (fslog w ++ [EvUnlink f false]), rem,
     Some (ErrIO SysUnlink f)).
Proof.
  intros f Hf Hio. unfold delExtraStep, RemoveFile. simpl. fold f. by rewrite Hf, Hio.
Qed.

Lemma delExtraStep_ok (lom : LOM) (fqn : list string) (w : World) (rem : bool)
    (err : option error) (p : string) (mi : MountpathInfo) :
  let f := MakePathFQN w mi (bck lom) ObjectType (ObjName lom) in
  cmap lom !! f = None → io_fault w SysUnlink f = false →
  delExtraStep lom fqn (w, rem, err) (p, mi)
  = (set_files_log w (files w ∖ {[f]}) (fslog w ++ [EvUnlink f true]),
     bool_decide (head fqn = Some f) || rem, err).
Proof.
  intros f Hf Hio. unfold delExtraStep, RemoveFile. simpl. fold f. rewrite Hf, Hio.
  destruct fqn as [|g ?]; simpl; [done|].
  case_bool_decide as Hg.
  - subst g. by rewrite bool_decide_eq_true_2.
  - rewrite bool_decide_eq_false_2; [done|]. intros [= ?]. done.
Qed.

Lemma delExtra_scan (lom : LOM) (fqn : list string) (l : list (string * MountpathInfo)) :
  ∀ (w0 : World) (rem0 : bool) (err0 : option error),
  let targets := filter (λ f, cmap lom !! f = None)
                   ((λ e, MakePathFQN w0 e.2 (bck lom) ObjectType (ObjName lom)) <$> l) in
  let r := foldl (delExtraStep lom fqn) (w0, rem0, err0) l in
  fslog r.1.1 = fslog w0 ++ (unlinkEvent w0 <$> targets)
  ∧ files r.1.1
    = files w0 ∖ list_to_set (filter (λ f, io_fault w0 SysUnlink f = false) targets)
  ∧ (r.1.2 = true ↔
     rem0 = true
     ∨ ∃ f, head fqn = Some f ∧ f ∈ targets ∧ io_fault w0 SysUnlink f = false).
Proof.
  induction l as [|[p mi] l IH]; intros w0 rem0 err0; cbv zeta.
  - simpl. rewrite app_nil_r. split_and!; [done | by rewrite difference_empty_L |].
    split; [by left|]. intros [?|(f & _ & Hf & _)]; [done|]. by apply elem_of_nil in Hf.
  - rewrite fmap_cons. cbn [foldl snd].
    set (f := MakePathFQN w0 mi (bck lom) ObjectType (ObjName lom)).
    destruct (cmap lom !! f) as [v|] eqn:Hf.
    + rewrite delExtraStep_skip by (by exists v).
      rewrite filter_cons_False by (rewrite Hf; done). apply (IH w0 rem0 err0).
    + rewrite filter_cons_True by done.
      destruct (io_fault w0 SysUnlink f) eqn:Hio.
      * rewrite delExtraStep_fail by done. fold f.
        specialize (IH (set_files_log w0 (files w0) (fslog w0 ++ [EvUnlink f false]))
                      rem0 (Some (ErrIO SysUnlink f))).
        cbv zeta in IH. cbn [MakePathFQN io_fault files fslog set_files_log] in IH.
        destruct IH as (Hlog & Hfiles & Hrem). split_and!.
        -- rewrite Hlog, <- app_assoc. cbn [fmap list_fmap app]. unfold unlinkEvent.
           cbn [io_fault set_files_log]. rewrite Hio. done.
        -- rewrite Hfiles. rewrite filter_cons_False by (rewrite Hio; done). done.
        -- rewrite Hrem. split; (intros [?|(g & Hh & Hg & Hgio)]; [by left|right]);
             exists g; split_and!; try done.
           ++ by right.
           ++ apply elem_of_cons in Hg as [->|Hg]; [congruence|done].
      * rewrite delExtraStep_ok by done. fold f.
        specialize (IH (set_files_log w0 (files w0 ∖ {[f]}) (fslog w0 ++ [EvUnlink f true]))
                      (bool_decide (head fqn = Some f) || rem0) err0).
        cbv zeta in IH. cbn [MakePathFQN io_fault files fslog set_files_log] in IH.
        destruct IH as (Hlog & Hfiles & Hrem). split_and!.
        -- rewrite Hlog, <- app_assoc. cbn [fmap list_fmap app]. unfold unlinkEvent.
           cbn [io_fault set_files_log]. rewrite Hio. done.
        -- rewrite Hfiles. rewrite filter_cons_True by done.
           rewrite list_to_set_cons. cbn [files set_files_log].
           apply difference_difference_l_L.
        -- rewrite Hrem, orb_true_iff, bool_decide_eq_true. split.
           ++ intros [[?|?]|(g & Hh & Hg & Hgio)]; [|by left|].
              ** right. exists f. split_and!; [done|left|done].
              ** right. exists g. split_and!; [done|by right|done].
           ++ intros [?|(g & Hh & Hg & Hgio)]; [by left; right|].
              apply elem_of_cons in Hg as [->|Hg].
              ** by left; left.
              ** right. by exists g.
Qed.

Lemma elem_of_extraFQNs (w : World) (lom : LOM) (f : string) :
  f ∈ extraFQNs w lom
  ↔ cmap lom !! f = None
    ∧ ∃ p mi, avail w !! p = Some mi
              ∧ f = MakePathFQN w mi (bck lom) ObjectType (ObjName lom).
Proof.
  unfold extraFQNs. rewrite list_elem_of_filter, list_elem_of_fmap.
  split.
  - intros (Hf & [p mi] & -> & He). split; [done|]. exists p, mi.
    by apply elem_of_range in He.
  - intros (Hf & p & mi & Hp & ->). split; [done|]. exists (p, mi).
    split; [done|]. by apply elem_of_range.
Qed.

(** C10. For a LOM that is not itself a copy, [DelExtraCopies] calls
    [RemoveFile], in range order over the available mountpaths, on exactly the
    would-be object FQNs that are not keys of [md.copies] ([extraFQNs]); the
    files whose unlink did not fail are gone afterwards; [removed] is true
    exactly when the optional argument is one of the FQNs whose unlink
    succeeded.  In particular, with an empty [md.copies] and the LOM's own FQN
    being the would-be FQN on an available mountpath, the LOM's own FQN is
    unlinked: unless that unlink fails, the object file itself is deleted. *)
Theorem DelExtraCopies_unlinks (w : World) (lom : LOM) (fqn : list string) :
  IsCopy lom = false →
  let r := DelExtraCopies w lom fqn in
  fslog r.1.1 = fslog w ++ (unlinkEvent w <$> extraFQNs w lom)
  ∧ (∀ f, f ∈ extraFQNs w lom
          ↔ cmap lom !! f = None
            ∧ ∃ p mi, avail w !! p = Some mi
                      ∧ f = MakePathFQN w mi (bck lom) ObjectType (ObjName lom))
  ∧ files r.1.1
    = files w ∖ list_to_set (filter (λ f, io_fault w SysUnlink f = false) (extraFQNs w lom))
  ∧ (r.1.2 = true ↔
     ∃ f, head fqn = Some f ∧ f ∈ extraFQNs w lom ∧ io_fault w SysUnlink f = false)
  ∧ (cmap lom = ∅ →
     ∀ p mi, avail w !! p = Some mi →
             MakePathFQN w mi (bck lom) ObjectType (ObjName lom) = FQN lom →
             unlinkEvent w (FQN lom) ∈ fslog r.1.1
             ∧ (io_fault w SysUnlink (FQN lom) = false → FQN lom ∉ files r.1.1)).
Proof.
  intros Hcopy. cbv zeta. unfold DelExtraCopies, whingeCopy. rewrite Hcopy.
  pose proof (delExtra_scan lom fqn (range w (avail w)) w false None) as Hs.
  cbv zeta in Hs. fold (extraFQNs w lom) in Hs.
  destruct Hs as (Hlog & Hfiles & Hrem).
  split_and!; [done | apply elem_of_extraFQNs | done | |].
  - rewrite Hrem. split; [|by right]. by intros [?|?].
  - intros Hempty p mi Hp Hmk.
    assert (FQN lom ∈ extraFQNs w lom) as Hin.
    { apply elem_of_extraFQNs. split; [by rewrite Hempty, lookup_empty|].
      by exists p, mi. }
    split.
    + rewrite Hlog. apply elem_of_app. right. by apply list_elem_of_fmap_2.
    + intros Hio. rewrite Hfiles. intros [_ Hnot]%elem_of_difference.
      apply Hnot. apply elem_of_list_to_set, list_elem_of_filter. done.
Qed.

(** On the concrete world: the object [lom0] has no copies and sits at its HRW
    location; [DelExtraCopies] unlinks the would-be FQN on each of the three
    mountpaths, the object's own file among them. *)
Lemma DelExtraCopies_unlinks_witness :
  IsCopy lom0 = false
  ∧ (DelExtraCopies world0 lom0 [fqnA]).1.2 = true
  ∧ fqnA ∉ files (DelExtraCopies world0 lom0 [fqnA]).1.1.
Proof.
  split; [reflexivity|].
  destruct (DelExtraCopies_unlinks world0 lom0 [fqnA] eq_refl)
    as (_ & _ & _ & Hrem & Hown).
  split.
  - apply Hrem. exists fqnA. split_and!; [reflexivity | | reflexivity].
    apply elem_of_extraFQNs. split; [reflexivity|]. by exists "/mp/a", mpA.
  - by apply (Hown eq_refl "/mp/a" mpA).
Defined.

(** *** The copies invariant *)

Lemma size_ge_2 (m : MPI) (k1 k2 : string) :
  k1 ≠ k2 → is_Some (m !! k1) → is_Some (m !! k2) → 2 ≤ size m.
Proof.
  intros Hne H1 H2.
  pose proof (map_size_delete_Some k1 m H1) as Hd.
  assert (size (delete k1 m) ≠ 0) as Hnz.
  { intros H0%map_size_empty_inv.
    rewrite <- (lookup_delete_ne m k1 k2), H0, lookup_empty in H2 by done.
    by destruct H2. }
  lia.
Qed.

Lemma copies_ok_delCopyMd (lom : LOM) (f : string) :
  copies_ok lom → f ≠ FQN lom → copies_ok (delCopyMd lom f).
Proof.
  intros Hok Hne. unfold copies_ok, ncopies.
  destruct (delCopyMd_fields lom f) as (-> & _).
  rewrite cmap_delCopyMd. case_bool_decide as Hsz; [by left|]. right.
  destruct Hok as [Hempty|[Hown _]].
  - rewrite Hempty, delete_empty, map_size_empty in Hsz. lia.
  - rewrite lookup_delete_ne by done. split; [done | lia].
Qed.

Lemma copies_ok_stores (lom : LOM) (c : MPI) (copyFQN : string) (mpi mi : MountpathInfo) :
  copyFQN ≠ FQN lom →
  copies_ok (set_copies lom (Some (<[FQN lom := mi]> (<[copyFQN := mpi]> c)))).
Proof.
  intros Hne. right. unfold ncopies. rewrite cmap_set_copies. simpl. split.
  - rewrite lookup_insert_eq. by eexists.
  - apply (size_ge_2 _ (FQN lom) copyFQN); [done | |].
    + rewrite lookup_insert_eq. by eexists.
    + rewrite lookup_insert_ne, lookup_insert_eq by done. by eexists.
Qed.

Lemma persistLoop_keeps_ok (fuel : nat) : ∀ (w : World) (lom : LOM) w' lom' e,
  persistLoop fuel w lom = Ret (w', lom', e) → copies_ok lom →
  copies_ok lom' ∧ FQN lom' = FQN lom ∧ io_fault w' = io_fault w.
Proof.
  induction fuel as [|fuel IH]; intros w lom w' lom' e; simpl; [done|].
  destruct (persistMdOnCopies w lom) as [f [err|]] eqn:Hp.
  - intros Hr Hok.
    pose proof (persistMdOnCopies_fails _ _ _ _ Hp) as (_ & Hne & _).
    destruct (delCopyMd_fields lom f) as (HF & _).
    apply IH in Hr as (Hok' & HF' & Hio').
    + split_and!; [done | congruence |].
      rewrite Hio'. by destruct (_ && _).
    + by apply copies_ok_delCopyMd.
  - by intros [= <- <- <-].
Qed.

Lemma sync_keeps_ok (w : World) (lom : LOM) w' lom' e :
  syncMetaWithCopies w lom = Ret (w', lom', e) → copies_ok lom →
  copies_ok lom' ∧ FQN lom' = FQN lom ∧ io_fault w' = io_fault w.
Proof.
  unfold syncMetaWithCopies.
  destruct (HasCopies lom); cbn [negb]; [|by intros [= <- <- <-]].
  destruct (writeImmediate lom); cbn [negb]; [|by intros [= <- <- <-]].
  apply persistLoop_keeps_ok.
Qed.

Lemma AddCopy_keeps_ok (w : World) (lom : LOM) (copyFQN : string) (mpi : MountpathInfo) :
  copyFQN ≠ FQN lom →
  ∃ w' lom', AddCopy w lom copyFQN mpi = Ret (w', lom', None)
             ∧ copies_ok lom' ∧ FQN lom' = FQN lom ∧ io_fault w' = io_fault w.
Proof.
  intros Hne. unfold AddCopy.
  destruct (syncMetaWithCopies_returns w
              (set_copies lom (Some (<[FQN lom:=mpathInfo lom]> (<[copyFQN:=mpi]> (cmap lom))))))
    as (w' & lom' & Hr & _).
  exists w', lom'. split; [done|].
  apply sync_keeps_ok in Hr; [done |]. by apply copies_ok_stores.
Qed.

Lemma delCopiesMd_keeps_ok (F : list string) : ∀ lom n lom' e,
  delCopiesMd lom n F = (lom', e) → FQN lom ∉ F → copies_ok lom →
  copies_ok lom' ∧ FQN lom' = FQN lom.
Proof.
  induction F as [|f F IH]; intros lom n lom' e; simpl.
  - by intros [= <- <-].
  - intros Hd Hnin Hok. apply not_elem_of_cons in Hnin as [Hne Hnin].
    destruct (cmap lom !! f); [|by injection Hd as <- <-].
    destruct (delCopyMd_fields lom f) as (HF & _).
    apply IH in Hd as [? ?]; [split; [done|congruence] | by rewrite HF |].
    by apply copies_ok_delCopyMd.
Qed.

Lemma DelCopies_keeps_ok (w : World) (lom : LOM) (F : list string) :
  FQN lom ∉ F → copies_ok lom →
  ∃ w' lom' e, DelCopies w lom F = Ret (w', lom', e) ∧ copies_ok lom'.
Proof.
  intros Hnin Hok. unfold DelCopies.
  destruct (delCopiesMd lom (NumCopies lom) F) as [lom1 e] eqn:Hd.
  apply delCopiesMd_keeps_ok in Hd as [Hok1 HF1]; [|done..].
  destruct e as [e|]; [by exists w, lom1, (Some e)|].
  destruct (syncMetaWithCopies_returns w lom1) as (w' & lom' & Hr & _).
  rewrite Hr. simpl. exists (removeFiles w' F), lom', None. split; [done|].
  apply sync_keeps_ok in Hr as [? _]; done.
Qed.

(** [Copy] from the label [add]: when [Persist] fails the entry just stored is
    taken out again, which keeps the invariant as well. *)
Lemma copyAdd_keeps_ok (w : World) (lom : LOM) (copyFQN : string) (mi : MountpathInfo) :
  copyFQN ≠ FQN lom →
  ∃ w' lom' e, copyAdd w lom copyFQN mi = Ret (w', lom', e) ∧ copies_ok lom'
    ∧ (e = None ↔ io_fault w SysSetXattr (FQN lom) = false).
Proof.
  intros Hne. unfold copyAdd.
  destruct (AddCopy_keeps_ok w lom copyFQN mi Hne) as (w1 & lom1 & -> & Hok1 & HF1 & Hio1).
  simpl. unfold Persist. rewrite Hio1, HF1.
  destruct (io_fault w SysSetXattr (FQN lom)).
  - exists w1, (delCopyMd lom1 copyFQN), (Some (ErrIO SysSetXattr (FQN lom))).
    split_and!; [done | | done].
    apply copies_ok_delCopyMd; [done | by rewrite HF1].
  - destruct (syncMetaWithCopies_returns w1 lom1) as (w' & lom' & Hr & _).
    exists w', lom', None. split_and!; [done | | done].
    by apply sync_keeps_ok in Hr as [? _].
Qed.

Lemma Copy_keeps_ok (w : World) (lom : LOM) (mi : MountpathInfo) :
  MakePathFQN w mi (bck lom) ObjectType (ObjName lom) ≠ FQN lom → copies_ok lom →
  ∃ w' lom' e, Copy w lom mi = Ret (w', lom', e) ∧ copies_ok lom'.
Proof.
  intros Hne Hok.
  assert (∀ w0, ∃ w' lom' e,
            copyAdd w0 lom (MakePathFQN w mi (bck lom) ObjectType (ObjName lom)) mi
            = Ret (w', lom', e) ∧ copies_ok lom') as Hadd.
  { intros w0. destruct (copyAdd_keeps_ok w0 lom _ mi Hne) as (w' & lom' & e & ? & ? & _).
    by exists w', lom', e. }
  unfold Copy.
  destruct (_ && _); [apply Hadd|].
  unfold CopyFile. destruct (io_fault w SysCopy _); [by eexists _, _, _|].
  unfold Rename. cbn [io_fault set_files_log].
  destruct (io_fault w SysRename _); [by eexists _, _, _|].
  apply Hadd.
Qed.

Lemma copy2Mirror_keeps_ok (w : World) (lom dst : LOM) (dstFQN : string) w' lom' dst' e :
  dstFQN ≠ FQN lom →
  copy2Mirror w lom dst dstFQN = Ret (w', lom', dst', e) → copies_ok lom'.
Proof.
  intros Hne. unfold copy2Mirror.
  destruct (match copies (md lom) with None => _ | Some c => _ end) as [lc [dc|]] eqn:Hc;
    [|done].
  destruct (syncMetaWithCopies_returns w
              (set_copies lom (Some (<[FQN lom:=mpathInfo lom]> (<[dstFQN:=mpathInfo dst]> lc)))))
    as (w1 & lom1 & Hr & _).
  rewrite Hr. simpl. intros [= <- <- <- <-].
  apply sync_keeps_ok in Hr as [? _]; [done |]. by apply copies_ok_stores.
Qed.

Lemma Copy2FQN_keeps_ok (w : World) (lom : LOM) (dstFQN : string) w' lom' dst' e :
  dstFQN ≠ FQN lom → copies_ok lom →
  Copy2FQN w lom dstFQN = Ret (w', lom', dst', e) → copies_ok lom'.
Proof.
  intros Hne Hok. unfold Copy2FQN.
  destruct (InitLOM w (Clone lom dstFQN)) as [err|dst]; [by intros [= <- <- <- <-]|].
  cbv zeta.
  unfold CopyFile. destruct (io_fault w SysCopy _); [by intros [= <- <- <- <-]|].
  unfold Rename. cbn [io_fault set_files_log].
  destruct (io_fault w SysRename _); [by intros [= <- <- <- <-]|].
  destruct (_ && _); [by intros [= <- <- <- <-]|].
  destruct (isMirror lom _).
  - by apply copy2Mirror_keeps_ok.
  - destruct (Persist _ _); by intros [= <- <- <- <-].
Qed.

Lemma prune_keeps_ok (w : World) (own : string) (l : list (string * MountpathInfo)) :
  ∀ lom got,
  FQN lom = own → copies_ok lom →
  (∀ mi, (own, mi) ∈ l → ∃ mi', avail w !! Path mi = Some mi' ∧ WaitingDD mi' = false) →
  copies_ok (foldl (pruneStep w) (lom, got) l).1
  ∧ FQN (foldl (pruneStep w) (lom, got) l).1 = own.
Proof.
  induction l as [|[k v] l IH]; intros lom got HF Hok Hown; simpl; [done|].
  assert (∀ mi, (own, mi) ∈ l →
          ∃ mi', avail w !! Path mi = Some mi' ∧ WaitingDD mi' = false) as Hown'.
  { intros mi Hmi. apply Hown. by right. }
  destruct (delCopyMd_fields lom k) as (HF' & _).
  destruct (decide (k = own)) as [->|Hne].
  - destruct (Hown v) as (mi' & -> & ->); [left|]. by apply IH.
  - destruct (avail w !! Path v) as [mi'|]; [destruct (WaitingDD mi')|].
    + apply IH; [congruence | apply copies_ok_delCopyMd; congruence | done].
    + by apply IH.
    + apply IH; [congruence | apply copies_ok_delCopyMd; congruence | done].
Qed.

Lemma ToMpath_keeps_ok (w : World) (lom : LOM) :
  copies_ok lom →
  (∀ mi, cmap lom !! FQN lom = Some mi →
         ∃ mi', avail w !! Path mi = Some mi' ∧ WaitingDD mi' = false) →
  copies_ok (ToMpath w lom).1.1.
Proof.
  intros Hok Hown. unfold ToMpath.
  destruct (HrwMpath w (uname (md lom))); [done|].
  case_bool_decide; [done|].
  destruct (_ || _); [done|].
  destruct (prune_keeps_ok w (FQN lom) (range w (cmap lom)) lom 0%Z eq_refl Hok) as [Hp _].
  { intros mi Hmi%elem_of_range. by apply Hown. }
  destruct (foldl _ _ _) as [lom' got]. simpl in Hp.
  by destruct (_ <=? _)%Z.
Qed.

(** C6, as the code has it.  Let [md.copies] be empty or hold the LOM's own
    FQN among at least two entries.  Then the same holds again after [AddCopy]
    of an FQN other than the LOM's own, after [DelCopies] of FQNs other than
    the LOM's own, after [DelAllCopies], after [Copy] onto a mountpath whose
    object FQN is not the LOM's own (also when [Persist] fails and the entry
    is taken out again), after [Copy2FQN] to an FQN other than the LOM's own
    (when it returns), and after the pruning of [ToMpath] when the mountpath
    of the LOM's own entry is available and not draining. *)
Theorem copies_invariant_preserved (w : World) (lom : LOM) :
  copies_ok lom →
  (∀ copyFQN mpi, copyFQN ≠ FQN lom →
     ∃ w' lom' e, AddCopy w lom copyFQN mpi = Ret (w', lom', e) ∧ copies_ok lom')
  ∧ (∀ F, FQN lom ∉ F →
     ∃ w' lom' e, DelCopies w lom F = Ret (w', lom', e) ∧ copies_ok lom')
  ∧ (∃ w' lom' e, DelAllCopies w lom = Ret (w', lom', e) ∧ copies_ok lom')
  ∧ (∀ mi, MakePathFQN w mi (bck lom) ObjectType (ObjName lom) ≠ FQN lom →
     ∃ w' lom' e, Copy w lom mi = Ret (w', lom', e) ∧ copies_ok lom')
  ∧ (∀ dstFQN w' lom' dst e, dstFQN ≠ FQN lom →
     Copy2FQN w lom dstFQN = Ret (w', lom', dst, e) → copies_ok lom')
  ∧ ((∀ mi, cmap lom !! FQN lom = Some mi →
            ∃ mi', avail w !! Path mi = Some mi' ∧ WaitingDD mi' = false) →
     copies_ok (ToMpath w lom).1.1).
Proof.
  intros Hok. split_and!.
  - intros copyFQN mpi Hne.
    destruct (AddCopy_keeps_ok w lom copyFQN mpi Hne) as (w' & lom' & Hr & Hok' & _).
    by exists w', lom', None.
  - intros F HF. by apply DelCopies_keeps_ok.
  - apply DelCopies_keeps_ok; [|done].
    intros [Hne _]%list_elem_of_filter. by apply Hne.
  - intros mi Hne. by apply Copy_keeps_ok.
  - intros dstFQN w' lom' dst e Hne. by apply Copy2FQN_keeps_ok.
  - by apply ToMpath_keeps_ok.
Qed.

(** C6, as stated, fails, in each of these ways.  A LOM without copies is
    given its own FQN by [AddCopy], by [Copy] onto its own mountpath, or by
    [Copy2FQN] onto its own FQN: [md.copies] is left with exactly one entry.
    A LOM with three entries is asked by [DelCopies] to drop its own FQN: two
    entries are left, the LOM's own FQN not among them.  [ToMpath] prunes the
    LOM's own entry when its mountpath is not among the available ones, and
    leaves the two other copies.  And an operation does not repair a map that
    lacks the LOM's own FQN to begin with. *)
Lemma AddCopy_own_fqn_single :
  copies_ok lom0
  ∧ (∃ w' lom', AddCopy world0 lom0 (FQN lom0) mpA = Ret (w', lom', None)
                ∧ ncopies lom' = 1 ∧ ¬ copies_ok lom')
  ∧ copies_ok lom3
  ∧ (∃ w' lom', DelCopies world0 lom3 [FQN lom3] = Ret (w', lom', None)
                ∧ ncopies lom' = 2 ∧ cmap lom' !! FQN lom' = None ∧ ¬ copies_ok lom')
  ∧ (MakePathFQN world0 mpA (bck lom0) ObjectType (ObjName lom0) = FQN lom0
     ∧ ∃ w' lom', Copy world0 lom0 mpA = Ret (w', lom', None)
                  ∧ ncopies lom' = 1 ∧ ¬ copies_ok lom')
  ∧ (∃ w' lom' dst, Copy2FQN world0 lom0 (FQN lom0) = Ret (w', lom', dst, None)
                    ∧ ncopies lom' = 1 ∧ ¬ copies_ok lom')
  ∧ (avail world_late !! Path mpA = None
     ∧ cmap lom3 !! FQN lom3 = Some mpA
     ∧ ncopies (ToMpath world_late lom3).1.1 = 2
     ∧ cmap (ToMpath world_late lom3).1.1 !! FQN lom3 = None
     ∧ ¬ copies_ok (ToMpath world_late lom3).1.1)
  ∧ (¬ copies_ok lom_stray
     ∧ DelCopies world0 lom_stray [] = Ret (world0, lom_stray, None)).
Proof.
  assert (∀ lom : LOM, ncopies lom = 1 → ¬ copies_ok lom) as Hsingle.
  { intros lom H1 [H|[_ H]].
    - unfold ncopies in H1. rewrite H, map_size_empty in H1. done.
    - lia. }
  assert (∀ lom : LOM, ncopies lom = 2 → cmap lom !! FQN lom = None → ¬ copies_ok lom)
    as Hstray.
  { intros lom H2 Hnone [H|[[x Hx] _]].
    - unfold ncopies in H2. rewrite H, map_size_empty in H2. done.
    - congruence. }
  split; [|split; [|split; [|split; [|split; [|split; [|split]]]]]].
  - by left.
  - eexists _, _. split; [vm_compute; reflexivity|].
    split; [by vm_compute | apply Hsingle; by vm_compute].
  - right. split; [vm_compute; by eexists | vm_compute; lia].
  - eexists _, _. split; [vm_compute; reflexivity|].
    split_and!; [by vm_compute.. | apply Hstray; by vm_compute].
  - split; [by vm_compute|].
    eexists _, _. split; [vm_compute; reflexivity|].
    split; [by vm_compute | apply Hsingle; by vm_compute].
  - eexists _, _, _. split; [vm_compute; reflexivity|].
    split; [by vm_compute | apply Hsingle; by vm_compute].
  - split_and!; [by vm_compute.. | apply Hstray; by vm_compute].
  - split; [apply Hstray; by vm_compute | vm_compute; reflexivity].
Qed.

(** The invariant is kept on the concrete world: a copy of [lom0] is added on
    [/mp/b], and the copy on [/mp/b] of [lom2] is deleted. *)
Lemma copies_invariant_preserved_witness :
  (∃ w' lom' e, AddCopy world0 lom0 fqnB mpB = Ret (w', lom', e) ∧ copies_ok lom')
  ∧ (∃ w' lom' e, DelCopies world0 lom2 [fqnB] = Ret (w', lom', e) ∧ copies_ok lom').
Proof.
  split.
  - assert (copies_ok lom0) as Hok by (by left).
    destruct (copies_invariant_preserved world0 lom0 Hok) as (Hadd & _).
    apply Hadd. discriminate.
  - assert (copies_ok lom2) as Hok.
    { right. split; [vm_compute; by eexists | vm_compute; lia]. }
    destruct (copies_invariant_preserved world0 lom2 Hok) as (_ & Hdel & _).
    apply Hdel. intros H%list_elem_of_singleton. discriminate H.
Defined.

(** *** More on [syncMetaWithCopies], [AddCopy], [DelCopies] *)

Lemma sync_clean (w : World) (lom : LOM) :
  (∀ f, is_Some (cmap lom !! f) → f ≠ FQN lom → io_fault w SysSetXattr f = false) →
  ∃ lom', syncMetaWithCopies w lom = Ret (w, lom', None)
          ∧ copies (md lom') = copies (md lom)
          ∧ FQN lom' = FQN lom
          ∧ (writeImmediate lom = true → lom' = lom)
          ∧ (HasCopies lom = true → writeImmediate lom = false → dirty (md lom') = true).
Proof.
  intros Hall. unfold syncMetaWithCopies.
  destruct (HasCopies lom); cbn [negb]; [|by exists lom].
  destruct (writeImmediate lom); cbn [negb]; [|by exists (makeDirty lom)].
  cbn [persistLoop].
  apply persistMdOnCopies_succeeds in Hall.
  destruct (persistMdOnCopies w lom) as [f o]. simpl in Hall. rewrite Hall.
  by exists lom.
Qed.

(** What the sync leaves in the log: the health checker's notifications. *)
Lemma persistLoop_log (fuel : nat) : ∀ (w : World) (lom : LOM) w' lom' e,
  persistLoop fuel w lom = Ret (w', lom', e) →
  files w' = files w ∧ io_fault w' = io_fault w
  ∧ ∃ hc, fslog w' = fslog w ++ (EvFSHC <$> hc).
Proof.
  induction fuel as [|fuel IH]; intros w lom w' lom' e; simpl; [done|].
  destruct (persistMdOnCopies w lom) as [f [err|]].
  - intros Hr. apply IH in Hr as (Hf & Hio & hc & Hlog).
    destruct (_ && _).
    + simpl in *. split_and!; [done..|]. exists (f :: hc).
      rewrite Hlog, <- app_assoc. done.
    + split_and!; [done..|]. by exists hc.
  - intros [= <- <- <-]. split_and!; [done..|]. exists []. by rewrite app_nil_r.
Qed.

Lemma sync_log (w : World) (lom : LOM) w' lom' e :
  syncMetaWithCopies w lom = Ret (w', lom', e) →
  files w' = files w ∧ io_fault w' = io_fault w
  ∧ ∃ hc, fslog w' = fslog w ++ (EvFSHC <$> hc).
Proof.
  unfold syncMetaWithCopies.
  destruct (HasCopies lom); cbn [negb].
  - destruct (writeImmediate lom); cbn [negb]; [apply persistLoop_log|].
    intros [= <- <- <-]. split_and!; [done..|]. exists []. by rewrite app_nil_r.
  - intros [= <- <- <-]. split_and!; [done..|]. exists []. by rewrite app_nil_r.
Qed.

Lemma removeFiles_spec (F : list string) : ∀ (w : World),
  files (removeFiles w F)
  = files w ∖ list_to_set (filter (λ f, io_fault w SysUnlink f = false) F)
  ∧ fslog (removeFiles w F) = fslog w ++ (unlinkEvent w <$> F)
  ∧ io_fault (removeFiles w F) = io_fault w.
Proof.
  unfold removeFiles.
  induction F as [|f F IH]; intros w; simpl.
  - by rewrite app_nil_r, difference_empty_L.
  - destruct (IH (RemoveFile w f).1) as (Hf & Hl & Hio).
    rewrite Hf, Hl, Hio. clear IH Hf Hl Hio.
    unfold RemoveFile, unlinkEvent.
    destruct (io_fault w SysUnlink f) eqn:Hfault; cbn [fst files fslog io_fault set_files_log negb].
    + rewrite filter_cons_False by congruence.
      rewrite <- app_assoc. done.
    + rewrite filter_cons_True by done.
      rewrite <- app_assoc. split_and!; [|done..].
      by rewrite list_to_set_cons, difference_difference_l_L.
Qed.

Lemma copies_delCopyMd_nil (lom : LOM) (f : string) :
  size (delete f (cmap lom)) ≤ 1 → copies (md (delCopyMd lom f)) = None.
Proof.
  unfold delCopyMd, cmap. destruct (copies (md lom)) as [c|]; simpl.
  - intros H. by rewrite bool_decide_eq_true_2.
  - done.
Qed.

Lemma delCopiesMd_present (F : list string) : ∀ lom n lom',
  delCopiesMd lom n F = (lom', None) →
  NoDup F ∧ ∀ f, f ∈ F → is_Some (cmap lom !! f).
Proof.
  induction F as [|f F IH]; intros lom n lom'; simpl.
  - intros _. split; [constructor|]. intros f Hf. by apply elem_of_nil in Hf.
  - destruct (cmap lom !! f) as [mi|] eqn:Hf; [|done].
    intros [Hnd Hall]%IH. split.
    + constructor; [|done]. intros Hin. apply Hall in Hin as [x Hx].
      by rewrite delCopyMd_lookup in Hx.
    + intros g [->|Hg]%elem_of_cons; [by eexists|].
      apply Hall in Hg as [x Hx]. exists x.
      eapply lookup_weaken; [exact Hx | apply delCopyMd_subseteq].
Qed.

Lemma delCopiesMd_some_left (F : list string) : ∀ lom n,
  NoDup F → (∀ f, f ∈ F → is_Some (cmap lom !! f)) → length F < ncopies lom →
  ∃ lom', delCopiesMd lom n F = (lom', None)
          ∧ (F ≠ [] → ncopies lom = S (length F) → copies (md lom') = None).
Proof.
  induction F as [|f F IH]; intros lom n Hnd Hall Hlen; simpl.
  - by exists lom.
  - apply NoDup_cons in Hnd as [Hnin Hnd].
    destruct (Hall f) as [mi Hf]; [left|]. rewrite Hf.
    pose proof (map_size_delete_Some f (cmap lom) (mk_is_Some _ _ Hf)) as Hsz.
    simpl in Hlen. unfold ncopies in *.
    destruct (decide (size (delete f (cmap lom)) ≤ 1)) as [Hle|Hgt].
    + assert (F = []) as -> by (apply nil_length_inv; lia).
      simpl. eexists. split; [done|]. intros _ _. by apply copies_delCopyMd_nil.
    + destruct (IH (delCopyMd lom f) n Hnd) as (lom' & Hr & Hnil).
      * intros g Hg. rewrite cmap_delCopyMd, bool_decide_eq_false_2 by done.
        rewrite lookup_delete_ne by (intros ->; done). apply Hall. by right.
      * rewrite cmap_delCopyMd, bool_decide_eq_false_2 by done. lia.
      * exists lom'. split; [done|]. intros _ Heq.
        apply Hnil.
        -- intros ->. simpl in *. lia.
        -- rewrite cmap_delCopyMd, bool_decide_eq_false_2 by done. lia.
Qed.

Lemma delCopiesMd_none_left (F : list string) : ∀ lom n,
  NoDup F → (∀ f, f ∈ F → is_Some (cmap lom !! f)) →
  length F = ncopies lom → 2 ≤ length F →
  ∃ pre f lom', F = pre ++ [f]
                ∧ delCopiesMd lom n F = (lom', Some (ErrCopyDoesNotExist f n))
                ∧ copies (md lom') = None.
Proof.
  induction F as [|f F IH]; intros lom n Hnd Hall Hlen H2; simpl in *; [lia|].
  apply NoDup_cons in Hnd as [Hnin Hnd].
  destruct (Hall f) as [mi Hf]; [left|]. rewrite Hf.
  pose proof (map_size_delete_Some f (cmap lom) (mk_is_Some _ _ Hf)) as Hsz.
  unfold ncopies in *.
  destruct (decide (size (delete f (cmap lom)) ≤ 1)) as [Hle|Hgt].
  - destruct F as [|g [|g' F]]; simpl in *; [lia| |lia].
    exists [f], g, (delCopyMd lom f).
    pose proof (copies_delCopyMd_nil lom f Hle) as Hnil.
    split; [done|]. unfold cmap at 1. rewrite Hnil. simpl. by rewrite lookup_empty.
  - destruct (IH (delCopyMd lom f) n Hnd) as (pre & g & lom' & -> & Hr & Hnil).
    + intros g Hg. rewrite cmap_delCopyMd, bool_decide_eq_false_2 by done.
      rewrite lookup_delete_ne by (intros ->; done). apply Hall. by right.
    + rewrite cmap_delCopyMd, bool_decide_eq_false_2 by done. lia.
    + lia.
    + by exists (f :: pre), g, lom'.
Qed.

(** X1. [AddCopy] never returns an error and never touches a file.
    What it leaves in [md.copies] is within the old map with the two stores,
    [copyFQN -> mpi] and then [FQN -> mpathInfo] (the LOM's own entry wins when
    the two FQNs are the same); it is exactly that map when no metadata write
    on its keys fails, and also under a write policy that is not immediate,
    where the metadata is marked dirty instead of written. *)
Theorem AddCopy_stores_both (w : World) (lom : LOM) (copyFQN : string) (mpi : MountpathInfo) :
  let c := <[FQN lom := mpathInfo lom]> (<[copyFQN := mpi]> (cmap lom)) in
  ∃ w' lom',
    AddCopy w lom copyFQN mpi = Ret (w', lom', None)
    ∧ cmap lom' ⊆ c
    ∧ files w' = files w
    ∧ ((∀ f, is_Some (c !! f) → f ≠ FQN lom → io_fault w SysSetXattr f = false) →
       w' = w ∧ copies (md lom') = Some c)
    ∧ (writeImmediate lom = false →
       w' = w ∧ copies (md lom') = Some c
       ∧ (copyFQN ≠ FQN lom → dirty (md lom') = true)).
Proof.
  intros c. unfold AddCopy. fold c.
  destruct (syncMetaWithCopies_returns w (set_copies lom (Some c)))
    as (w' & lom' & Hr & Hsub & _ & _ & _ & Hfiles).
  exists w', lom'. split_and!; [done | done | done | |].
  - intros Hclean.
    destruct (sync_clean w (set_copies lom (Some c))) as (lom2 & Hr2 & Hc & _); [done|].
    rewrite Hr in Hr2. by injection Hr2 as -> ->.
  - intros Hpol. revert Hr. unfold syncMetaWithCopies.
    destruct (HasCopies (set_copies lom (Some c))) eqn:Hhas; cbn [negb].
    + cbn [writeImmediate set_copies set_md]. rewrite Hpol. cbn [negb].
      by intros [= <- <-].
    + intros [= <- <-]. split_and!; [done..|]. intros Hne.
      apply bool_decide_eq_false in Hhas. exfalso. apply Hhas.
      unfold NumCopies, ncopies. rewrite cmap_set_copies. simpl.
      assert (2 ≤ size c); [|lia].
      apply (size_ge_2 _ (FQN lom) copyFQN); [done | |]; unfold c.
      * rewrite lookup_insert_eq. by eexists.
      * rewrite lookup_insert_ne, lookup_insert_eq by done. by eexists.
Qed.

(** X2. When [DelCopies] succeeds, its arguments were pairwise
    distinct keys of [md.copies]; after the metadata sync (which may notify the
    health checker and touches no file) [RemoveFile] is called on every
    argument, in order, and a failing unlink is not reported: the files whose
    unlink did not fail are gone, the others stay. *)
Theorem DelCopies_unlinks_arguments (w : World) (lom : LOM) (F : list string)
    (w' : World) (lom' : LOM) :
  DelCopies w lom F = Ret (w', lom', None) →
  NoDup F
  ∧ (∀ f, f ∈ F → is_Some (cmap lom !! f))
  ∧ (∃ hc, fslog w' = fslog w ++ (EvFSHC <$> hc) ++ (unlinkEvent w <$> F))
  ∧ files w' = files w ∖ list_to_set (filter (λ f, io_fault w SysUnlink f = false) F).
Proof.
  unfold DelCopies.
  destruct (delCopiesMd lom (NumCopies lom) F) as [lom1 [e|]] eqn:Hd; [done|].
  apply delCopiesMd_present in Hd as [Hnd Hall].
  destruct (syncMetaWithCopies w lom1) as [[[w1 lom2] e]| |] eqn:Hs; simpl; [|done..].
  destruct e; [done|]. intros [= <- <-].
  apply sync_log in Hs as (Hf & Hio & hc & Hlog).
  destruct (removeFiles_spec F w1) as (Hf' & Hl' & _).
  split_and!; [done | done | |].
  - exists hc. rewrite Hl', Hlog, <- app_assoc. unfold unlinkEvent. by rewrite Hio.
  - rewrite Hf', Hf, Hio. done.
Qed.

Lemma DelCopies_unlinks_arguments_witness :
  ∃ w' lom', DelCopies world0 lom2 [fqnB] = Ret (w', lom', None) ∧ fqnB ∉ files w'.
Proof.
  destruct (DelCopies world0 lom2 [fqnB]) as [[[w' lom'] [e|]]| |] eqn:Hd;
    try (vm_compute in Hd; discriminate Hd).
  exists w', lom'. split; [done|].
  destruct (DelCopies_unlinks_arguments _ _ _ _ _ Hd) as (_ & _ & _ & ->).
  intros [_ Hn]%elem_of_difference. apply Hn.
  rewrite filter_cons_True by done. apply elem_of_list_to_set. left.
Defined.

(** *** [DelAllCopies] *)

Lemma filter_ne_all (l : list string) (k : string) :
  k ∉ l → filter (λ f, f ≠ k) l = l.
Proof.
  induction l as [|x l IH]; [done|].
  intros [Hne Hnin]%not_elem_of_cons.
  rewrite filter_cons_True by done. by rewrite IH.
Qed.

Lemma length_filter_ne (l : list string) (k : string) :
  NoDup l → k ∈ l → S (length (filter (λ f, f ≠ k) l)) = length l.
Proof.
  induction l as [|x l IH]; intros Hnd Hin; [by apply elem_of_nil in Hin|].
  apply NoDup_cons in Hnd as [Hx Hnd].
  destruct (decide (x = k)) as [->|Hne].
  - rewrite filter_cons_False by (intros H; by apply H).
    by rewrite filter_ne_all.
  - rewrite filter_cons_True by done. simpl. f_equal. apply IH; [done|].
    apply elem_of_cons in Hin as [->|Hin]; done.
Qed.

Lemma elem_of_fst_range (w : World) (m : MPI) (k : string) :
  k ∈ (range w m).*1 ↔ is_Some (m !! k).
Proof.
  rewrite list_elem_of_fmap. split.
  - intros ([k' v] & -> & Hkv%elem_of_range). by exists v.
  - intros [v Hv]. exists (k, v). split; [done|]. by apply elem_of_range.
Qed.

(** X3. For a LOM whose own FQN is among at least two entries of
    [md.copies], [DelAllCopies] succeeds and leaves [md.copies] nil; without
    writing any metadata it calls [RemoveFile] on every other copy, in range
    order, and never on the LOM's own FQN: the object file stays. *)
Theorem DelAllCopies_clears (w : World) (lom : LOM) :
  is_Some (cmap lom !! FQN lom) → 2 ≤ ncopies lom →
  let others := filter (λ f, f ≠ FQN lom) (range w (cmap lom)).*1 in
  ∃ w' lom',
    DelAllCopies w lom = Ret (w', lom', None)
    ∧ copies (md lom') = None
    ∧ (∀ f, f ∈ others ↔ is_Some (cmap lom !! f) ∧ f ≠ FQN lom)
    ∧ fslog w' = fslog w ++ (unlinkEvent w <$> others)
    ∧ files w' = files w ∖ list_to_set (filter (λ f, io_fault w SysUnlink f = false) others)
    ∧ (FQN lom ∈ files w → FQN lom ∈ files w').
Proof.
  intros Hown H2 others. unfold DelAllCopies, DelCopies. fold others.
  assert (∀ f, f ∈ others ↔ is_Some (cmap lom !! f) ∧ f ≠ FQN lom) as Hoth.
  { intros f. unfold others. rewrite list_elem_of_filter, elem_of_fst_range. tauto. }
  assert (NoDup others) as Hnd by apply NoDup_filter, NoDup_fst_range.
  assert (S (length others) = ncopies lom) as Hlen.
  { unfold others. rewrite length_filter_ne.
    - by rewrite length_fmap, length_range.
    - apply NoDup_fst_range.
    - by apply elem_of_fst_range. }
  destruct (delCopiesMd_some_left others lom (NumCopies lom) Hnd) as (lom' & Hd & Hnil).
  { intros f Hf. by apply Hoth. }
  { lia. }
  rewrite Hd.
  assert (copies (md lom') = None) as Hc.
  { apply Hnil; [|lia]. intros Hempty. rewrite Hempty in Hlen. simpl in Hlen. lia. }
  assert (syncMetaWithCopies w lom' = Ret (w, lom', None)) as ->.
  { unfold syncMetaWithCopies, HasCopies, NumCopies, ncopies, cmap. rewrite Hc. simpl.
    rewrite map_size_empty. done. }
  simpl. exists (removeFiles w others), lom'.
  destruct (removeFiles_spec others w) as (Hf & Hl & _).
  split_and!; [done..|].
  intros Hin. rewrite Hf. apply elem_of_difference. split; [done|].
  intros [_ [_ Hne]%Hoth]%elem_of_list_to_set%list_elem_of_filter. done.
Qed.

(** X4. When [md.copies] holds at least two entries and
    the LOM's own FQN is not among them, [DelAllCopies] fails: [delCopyMd]
    sets the map to nil once a single entry is left, so the last FQN ranged
    over is reported as a copy that does not exist.  No file is removed, and
    [md.copies] is left nil. *)
Theorem DelAllCopies_without_own_fails (w : World) (lom : LOM) :
  cmap lom !! FQN lom = None → 2 ≤ ncopies lom →
  ∃ f lom',
    DelAllCopies w lom = Ret (w, lom', Some (ErrCopyDoesNotExist f (ncopies lom)))
    ∧ last (range w (cmap lom)).*1 = Some f
    ∧ copies (md lom') = None.
Proof.
  intros Hown H2. unfold DelAllCopies, DelCopies.
  rewrite filter_ne_all.
  2:{ intros [x Hx]%elem_of_fst_range. congruence. }
  destruct (delCopiesMd_none_left (range w (cmap lom)).*1 lom (NumCopies lom))
    as (pre & f & lom' & Heq & Hd & Hnil).
  - apply NoDup_fst_range.
  - intros f Hf. by apply elem_of_fst_range in Hf.
  - by rewrite length_fmap, length_range.
  - by rewrite length_fmap, length_range.
  - rewrite Hd. exists f, lom'. split_and!; [|by rewrite Heq, last_snoc|done].
    unfold NumCopies. by rewrite Nat.max_l by lia.
Qed.


Lemma DelAllCopies_clears_witness :
  ∃ w' lom', DelAllCopies world0 lom3 = Ret (w', lom', None)
             ∧ copies (md lom') = None ∧ FQN lom3 ∈ files w'.
Proof.
  assert (is_Some (cmap lom3 !! FQN lom3)) as Hown by (vm_compute; by eexists).
  assert (2 ≤ ncopies lom3) as H2 by (vm_compute; lia).
  destruct (DelAllCopies_clears world0 lom3 Hown H2) as (w' & lom' & Hr & Hc & _ & _ & _ & Hf).
  exists w', lom'. split; [exact Hr|]. split; [exact Hc|]. apply Hf.
  apply elem_of_union_l, elem_of_union_l, elem_of_singleton. reflexivity.
Defined.

Lemma DelAllCopies_without_own_fails_witness :
  ∃ f lom', DelAllCopies world0 lom_stray
            = Ret (world0, lom', Some (ErrCopyDoesNotExist f (ncopies lom_stray)))
            ∧ copies (md lom') = None.
Proof.
  assert (cmap lom_stray !! FQN lom_stray = None) as Hown by (by vm_compute).
  assert (2 ≤ ncopies lom_stray) as H2 by (vm_compute; lia).
  destruct (DelAllCopies_without_own_fails world0 lom_stray Hown H2)
    as (f & lom' & Hr & _ & Hc).
  exists f, lom'. split; [exact Hr | exact Hc].
Defined.

(** *** [LeastUtilNoCopy] and [haveMpath] *)

Lemma haveMpath_iff (w : World) (lom : LOM) (mpath : string) :
  haveMpath w lom mpath = true
  ↔ (cmap lom = ∅ ∧ Path (mpathInfo lom) = mpath)
    ∨ (∃ f mi, cmap lom !! f = Some mi ∧ Path mi = mpath).
Proof.
  unfold haveMpath. case_bool_decide as Hn.
  - assert (cmap lom = ∅) as Hempty by (by apply map_size_empty_inv).
    rewrite bool_decide_eq_true. split; [by left|].
    intros [[_ ?]|(f & mi & Hf & _)]; [done|]. by rewrite Hempty, lookup_empty in Hf.
  - rewrite existsb_exists. split.
    + intros ([f mi] & Hin%list_elem_of_In%elem_of_range & Hp%bool_decide_eq_true).
      right. by exists f, mi.
    + intros [[Hempty _]|(f & mi & Hf & Hp)].
      * exfalso. apply Hn. unfold ncopies. by rewrite Hempty, map_size_empty.
      * exists (f, mi). split; [by apply list_elem_of_In, elem_of_range|].
        by apply bool_decide_eq_true.
Qed.

(** The scan of [LeastUtilNoCopy] over any list of mountpaths. *)
Lemma leastNoCopy_scan (w : World) (lom : LOM) (l : list (string * MountpathInfo)) :
  ∀ (u0 : Z) (m0 : option MountpathInfo),
  let r := foldl (leastNoCopyStep w lom) (u0, m0) l in
  (r.1 ≤ u0)%Z
  ∧ (∀ e, e ∈ l → haveMpath w lom e.1 = false → WaitingDD e.2 = false →
          (r.1 ≤ mpathUtil w e.1)%Z)
  ∧ ((r = (u0, m0)
      ∧ ∀ e, e ∈ l → haveMpath w lom e.1 = false → WaitingDD e.2 = false →
             (u0 ≤ mpathUtil w e.1)%Z)
     ∨ (∃ e, e ∈ l ∧ haveMpath w lom e.1 = false ∧ WaitingDD e.2 = false
             ∧ r = (mpathUtil w e.1, Some e.2) ∧ (mpathUtil w e.1 < u0)%Z)).
Proof.
  induction l as [|[mpath mi] l IH]; intros u0 m0; cbn [foldl].
  - split_and!; [simpl; lia | |].
    + intros e He. by apply elem_of_nil in He.
    + left. split; [done|]. intros e He. by apply elem_of_nil in He.
  - unfold leastNoCopyStep at 2 4 6 8.
    destruct (haveMpath w lom mpath || WaitingDD mi) eqn:Hskip.
    + specialize (IH u0 m0). cbv zeta in IH. destruct IH as (Hle & Hall & Hcase).
      assert (∀ e, e ∈ (mpath, mi) :: l → haveMpath w lom e.1 = false →
                   WaitingDD e.2 = false → e ∈ l) as Hin.
      { intros e [->|He]%elem_of_cons H1 H2; [|done]. simpl in *.
        rewrite H1, H2 in Hskip. done. }
      split_and!; [done | |].
      * intros e He H1 H2. apply Hall; [by apply Hin | done..].
      * destruct Hcase as [[Hr Hmin]|(e & He & H1 & H2 & Hr & Hlt)].
        -- left. split; [done|]. intros e He H1 H2. apply Hmin; [by apply Hin | done..].
        -- right. exists e. split_and!; [by right | done..].
    + apply orb_false_iff in Hskip as [Hhave Hdd].
      destruct (Z.ltb_spec (mpathUtil w mpath) u0) as [Hlt|Hge].
      * specialize (IH (mpathUtil w mpath) (Some mi)). cbv zeta in IH.
        destruct IH as (Hle & Hall & Hcase).
        split_and!; [lia | |].
        -- intros e [->|He]%elem_of_cons H1 H2; [done | by apply Hall].
        -- right. destruct Hcase as [[Hr Hmin]|(e & He & H1 & H2 & Hr & Hlt')].
           ++ exists (mpath, mi). split_and!; [left | done..].
           ++ exists e. split_and!; [by right | done | done | done | lia].
      * specialize (IH u0 m0). cbv zeta in IH. destruct IH as (Hle & Hall & Hcase).
        split_and!; [done | |].
        -- intros e [->|He]%elem_of_cons H1 H2; [simpl; lia | by apply Hall].
        -- destruct Hcase as [[Hr Hmin]|(e & He & H1 & H2 & Hr & Hlt)].
           ++ left. split; [done|].
              intros e [->|He]%elem_of_cons H1 H2; [done | by apply Hmin].
           ++ right. exists e. split_and!; [by right | done..].
Qed.

(** X5. [LeastUtilNoCopy] returns a mountpath exactly when some available
    mountpath that is not draining and holds no copy of the object has a
    utilization below 101; the one returned is such a mountpath, and none of
    them is less utilized.  A mountpath holds a copy ([haveMpath]) when it is
    the path of an entry of [md.copies] or, with [md.copies] empty, the LOM's
    own mountpath; this does not depend on the order of the range. *)
Theorem LeastUtilNoCopy_least (w : World) (lom : LOM) :
  (∀ mi, LeastUtilNoCopy w lom = Some mi →
     ∃ mpath, avail w !! mpath = Some mi
              ∧ haveMpath w lom mpath = false ∧ WaitingDD mi = false
              ∧ (mpathUtil w mpath < 101)%Z
              ∧ ∀ mpath' mi', avail w !! mpath' = Some mi' →
                              haveMpath w lom mpath' = false → WaitingDD mi' = false →
                              (mpathUtil w mpath ≤ mpathUtil w mpath')%Z)
  ∧ (LeastUtilNoCopy w lom = None ↔
     ∀ mpath mi, avail w !! mpath = Some mi →
                 haveMpath w lom mpath = false → WaitingDD mi = false →
                 (101 ≤ mpathUtil w mpath)%Z)
  ∧ (∀ mpath, haveMpath w lom mpath = true
              ↔ (cmap lom = ∅ ∧ Path (mpathInfo lom) = mpath)
                ∨ (∃ f mi, cmap lom !! f = Some mi ∧ Path mi = mpath)).
Proof.
  unfold LeastUtilNoCopy.
  destruct (leastNoCopy_scan w lom (range w (avail w)) 101%Z None) as (Hle & Hall & Hcase).
  split_and!.
  - intros mi Hr.
    destruct Hcase as [[Heq _]|([mpath mi'] & He & H1 & H2 & Heq & Hlt)].
    + rewrite Heq in Hr. done.
    + rewrite Heq in Hr, Hall. simpl in *. injection Hr as ->.
      apply elem_of_range in He.
      exists mpath. split_and!; [done.. |].
      intros mpath' mi'' Hav Hh Hd.
      apply (Hall (mpath', mi'')); [by apply elem_of_range | done..].
  - split.
    + intros Hr mpath mi Hav Hh Hd.
      destruct Hcase as [[Heq Hmin]|(e & He & H1 & H2 & Heq & Hlt)].
      * apply (Hmin (mpath, mi)); [by apply elem_of_range | done..].
      * rewrite Heq in Hr. done.
    + intros Hnone.
      destruct Hcase as [[Heq _]|([mpath mi] & He & H1 & H2 & Heq & Hlt)].
      * by rewrite Heq.
      * exfalso. apply elem_of_range in He. specialize (Hnone mpath mi He H1 H2).
        simpl in Hlt. lia.
  - apply haveMpath_iff.
Qed.

(** *** The pruning of [ToMpath] *)

Lemma pruneStep_inUse (w : World) (lom : LOM) (got : Z) (fqn : string) (mpi : MountpathInfo) :
  pruneStep w (lom, got) (fqn, mpi)
  = if mpathInUse w mpi then (lom, (got + 1)%Z) else (delCopyMd lom fqn, got).
Proof.
  unfold pruneStep, mpathInUse.
  destruct (avail w !! Path mpi) as [mi|]; [|done]. by destruct (WaitingDD mi).
Qed.

Lemma foldl_delete_subseteq (B : list string) : ∀ m : MPI,
  foldl (λ m k, delete k m) m B ⊆ m.
Proof.
  induction B as [|k B IH]; intros m; simpl; [done|].
  etrans; [apply IH | apply delete_subseteq].
Qed.

Lemma lookup_foldl_delete (B : list string) : ∀ (m : MPI) (i : string),
  foldl (λ m k, delete k m) m B !! i = if bool_decide (i ∈ B) then None else m !! i.
Proof.
  induction B as [|k B IH]; intros m i; cbn [foldl].
  - rewrite bool_decide_eq_false_2; [done | apply not_elem_of_nil].
  - rewrite IH. destruct (decide (i = k)) as [->|Hne].
    + rewrite (bool_decide_eq_true_2 (k ∈ k :: B)) by left.
      case_bool_decide; [done | apply lookup_delete_eq].
    + rewrite lookup_delete_ne by done.
      case_bool_decide as H1; case_bool_decide as H2; try done.
      * exfalso. apply H2. by right.
      * apply elem_of_cons in H2 as [?|?]; done.
Qed.

Lemma pruned_delete_pruned (B : list string) (m : MPI) :
  pruned (foldl (λ m k, delete k m) (pruned m) B) = pruned (foldl (λ m k, delete k m) m B).
Proof.
  unfold pruned at 2. case_bool_decide as Hsz; [|done].
  assert (∀ m' : MPI, m' ⊆ m → pruned m' = ∅) as Hsmall.
  { intros m' Hsub. unfold pruned. case_bool_decide as Hm'; [done|].
    apply map_subseteq_size in Hsub. lia. }
  rewrite (Hsmall (foldl _ m B)) by apply foldl_delete_subseteq.
  apply Hsmall. etrans; [apply foldl_delete_subseteq | apply map_empty_subseteq].
Qed.

Lemma cmap_delCopyMd_pruned (lom : LOM) (f : string) :
  cmap (delCopyMd lom f) = pruned (delete f (cmap lom)).
Proof. apply cmap_delCopyMd. Qed.

(** The pruning loop over any list of entries: the count of the entries in
    use, and the map without the keys of the others. *)
Lemma prune_fold (w : World) (l : list (string * MountpathInfo)) : ∀ (lom : LOM) (got : Z),
  let r := foldl (pruneStep w) (lom, got) l in
  let bad := (filter (λ e, mpathInUse w e.2 = false) l).*1 in
  r.2 = (got + Z.of_nat (length (filter (λ e, mpathInUse w e.2 = true) l)))%Z
  ∧ (bad = [] → r.1 = lom)
  ∧ (bad ≠ [] → cmap r.1 = pruned (foldl (λ m k, delete k m) (cmap lom) bad))
  ∧ FQN r.1 = FQN lom ∧ mpathInfo r.1 = mpathInfo lom ∧ bck r.1 = bck lom
  ∧ ObjName r.1 = ObjName lom.
Proof.
  induction l as [|[k v] l IH]; intros lom got; cbn [foldl].
  - cbv zeta. simpl. split_and!; [lia | done..].
  - rewrite pruneStep_inUse. cbv zeta.
    destruct (mpathInUse w v) eqn:Huse.
    + rewrite filter_cons_True by done.
      rewrite (filter_cons_False (λ e, mpathInUse w e.2 = false)) by (simpl; congruence).
      specialize (IH lom (got + 1)%Z). cbv zeta in IH.
      destruct IH as (Hg & Hid & Hcm & HF & HM & HB & HO).
      split_and!; [rewrite Hg; simpl; lia | done..].
    + rewrite filter_cons_False by (simpl; congruence).
      rewrite (filter_cons_True (λ e, mpathInUse w e.2 = false)) by done.
      specialize (IH (delCopyMd lom k) got). cbv zeta in IH.
      destruct IH as (Hg & Hid & Hcm & HF & HM & HB & HO).
      assert (FQN (delCopyMd lom k) = FQN lom ∧ mpathInfo (delCopyMd lom k) = mpathInfo lom
              ∧ bck (delCopyMd lom k) = bck lom ∧ ObjName (delCopyMd lom k) = ObjName lom)
        as (HF' & HM' & HB' & HO').
      { unfold delCopyMd. by case_bool_decide. }
      split_and!; [done | done | | congruence..].
      intros _. cbn [fmap list_fmap fst foldl].
      destruct (decide ((filter (λ e, mpathInUse w e.2 = false) l).*1 = [])) as [Hnil|Hne].
      * rewrite Hid by done. rewrite Hnil. simpl. apply cmap_delCopyMd_pruned.
      * rewrite Hcm by done. rewrite cmap_delCopyMd_pruned. apply pruned_delete_pruned.
Qed.

Lemma length_filter_map_to_list (P : string * MountpathInfo → Prop)
    `{!∀ e, Decision (P e)} (m : MPI) :
  length (filter P (map_to_list m)) = size (filter P m).
Proof.
  induction m as [|i x m Hi IH] using map_ind.
  - by rewrite map_to_list_empty, map_filter_empty, map_size_empty.
  - rewrite map_to_list_insert by done.
    destruct (decide (P (i, x))) as [HP|HP].
    + rewrite filter_cons_True by done.
      rewrite map_filter_insert_True by done.
      rewrite map_size_insert_None; [simpl; by rewrite IH|].
      apply map_lookup_filter_None. by left.
    + rewrite filter_cons_False by done.
      rewrite map_filter_insert_not' ; [done | done |]. 
      intros y Hy. congruence.
Qed.

Lemma prune_range (w : World) (lom : LOM) :
  let l := range w (cmap lom) in
  let bad := (filter (λ e, mpathInUse w e.2 = false) l).*1 in
  length (filter (λ e, mpathInUse w e.2 = true) l) = size (goodCopies w lom)
  ∧ (bad = [] ↔ goodCopies w lom = cmap lom)
  ∧ foldl (λ m k, delete k m) (cmap lom) bad = goodCopies w lom.
Proof.
  cbv zeta.
  assert (∀ i, i ∈ (filter (λ e, mpathInUse w e.2 = false) (range w (cmap lom))).*1
               ↔ ∃ v, cmap lom !! i = Some v ∧ mpathInUse w v = false) as Hbad.
  { intros i. rewrite list_elem_of_fmap. split.
    - intros ([k v] & -> & [Hu Hin%elem_of_range]%list_elem_of_filter). by exists v.
    - intros (v & Hv & Hu). exists (i, v). split; [done|].
      apply list_elem_of_filter. split; [done | by apply elem_of_range]. }
  assert (foldl (λ m k, delete k m) (cmap lom)
            (filter (λ e, mpathInUse w e.2 = false) (range w (cmap lom))).*1
          = goodCopies w lom) as Hfold.
  { apply map_eq. intros i. rewrite lookup_foldl_delete. unfold goodCopies.
    destruct (cmap lom !! i) as [v|] eqn:Hi.
    - destruct (mpathInUse w v) eqn:Hu.
      + rewrite bool_decide_eq_false_2.
        * symmetry. by apply map_lookup_filter_Some.
        * intros (v' & Hv' & Hu')%Hbad. congruence.
      + rewrite bool_decide_eq_true_2 by (apply Hbad; by exists v).
        symmetry. apply map_lookup_filter_None. right. intros v' Hv'. simpl. congruence.
    - case_bool_decide; symmetry; apply map_lookup_filter_None; by left. }
  split_and!; [| |done].
  - unfold range. rewrite (map_order_perm w (map_to_list (cmap lom))).
    apply length_filter_map_to_list.
  - split.
    + intros Hnil. rewrite <- Hfold, Hnil. done.
    + intros Hgood.
      destruct (filter _ _).*1 as [|i bad] eqn:Hb; [done|]. exfalso.
      destruct (proj1 (Hbad i)) as (v & Hv & Hu); [left|].
      rewrite <- Hgood in Hv. unfold goodCopies in Hv.
      apply map_lookup_filter_Some in Hv as [_ Hv]. simpl in Hv. congruence.
Qed.

(** X6. The pruning of [ToMpath] does not depend on the order in which Go
    ranges over [md.copies].  For a LOM on its HRW mountpath in a bucket
    mirrored with at least two copies: the entries whose mountpath is no
    longer available, or is draining, are dropped; when any is dropped and at
    most one entry is left, [md.copies] becomes nil; when none is dropped the
    LOM is untouched.  The entries in use are counted (also those still to be
    visited when the map is set to nil): with as many as the configuration
    asks for, no mountpath is returned; with fewer, the answer is that of
    [LeastUtilNoCopy] on the pruned LOM. *)
Theorem ToMpath_prunes (w : World) (lom : LOM) (hrwMi : MountpathInfo) :
  HrwMpath w (uname (md lom)) = inr hrwMi →
  Path (mpathInfo lom) = Path hrwMi →
  Enabled (mirrorConf lom) = true → (2 ≤ Copies (mirrorConf lom))%Z →
  let good := goodCopies w lom in
  let r := ToMpath w lom in
  r.2 = false
  ∧ (good = cmap lom → r.1.1 = lom)
  ∧ (good ≠ cmap lom → cmap r.1.1 = pruned good)
  ∧ (∀ f mi, cmap r.1.1 !! f = Some mi → cmap lom !! f = Some mi ∧ mpathInUse w mi = true)
  ∧ ((Copies (mirrorConf lom) ≤ Z.of_nat (size good))%Z → r.1.2 = None)
  ∧ ((Z.of_nat (size good) < Copies (mirrorConf lom))%Z → r.1.2 = LeastUtilNoCopy w r.1.1).
Proof.
  intros Hhrw Hpath Hen Hcp good r. subst r. unfold ToMpath.
  rewrite Hhrw. rewrite bool_decide_eq_false_2 by (intros H; by apply H).
  rewrite Hen. cbn [negb orb].
  destruct (Z.ltb_spec (Copies (mirrorConf lom)) 2) as [?|_]; [lia|].
  destruct (prune_fold w (range w (cmap lom)) lom 0%Z) as (Hgot & Hid & Hcm & _).
  destruct (prune_range w lom) as (Hlen & Hnil & Hfold).
  rewrite Hlen in Hgot. rewrite Hfold in Hcm. fold good in Hgot, Hnil, Hcm.
  destruct (foldl (pruneStep w) (lom, 0%Z) (range w (cmap lom))) as [lom' got].
  simpl in Hgot, Hid, Hcm. subst got.
  assert (good = cmap lom → lom' = lom) as Hsame.
  { intros Hg. apply Hid. by apply Hnil. }
  assert (good ≠ cmap lom → cmap lom' = pruned good) as Hdiff.
  { intros Hg. apply Hcm. intros Hb. apply Hg. by apply Hnil. }
  assert (∀ f mi, cmap lom' !! f = Some mi →
                  cmap lom !! f = Some mi ∧ mpathInUse w mi = true) as Hsub.
  { intros f mi Hf. apply (map_lookup_filter_Some (λ e, mpathInUse w e.2 = true)).
    fold (goodCopies w lom). fold good.
    destruct (decide (good = cmap lom)) as [Hg|Hg].
    - rewrite Hsame in Hf by done. by rewrite Hg.
    - rewrite Hdiff in Hf by done. unfold pruned in Hf.
      case_bool_decide; [by rewrite lookup_empty in Hf | done]. }
  destruct (Z.leb_spec (Copies (mirrorConf lom)) (0 + Z.of_nat (size good))) as [Hle|Hlt];
    cbn [fst snd]; split_and!; try done; intros; lia.
Qed.

(** On the world whose snapshot of the mountpaths lacks [/mp/a]: the entry on
    [/mp/a] is dropped, two remain, which is what the configuration asks for. *)
Lemma ToMpath_prunes_witness :
  cmap (ToMpath world_late lom3).1.1 = {[ fqnB := mpB; fqnC := mpC ]}
  ∧ (ToMpath world_late lom3).1.2 = None.
Proof.
  destruct (ToMpath_prunes world_late lom3 mpA eq_refl eq_refl eq_refl ltac:(by vm_compute))
    as (_ & _ & Hcm & _ & Hnone & _).
  split.
  - rewrite Hcm.
    + by vm_compute.
    + intros H. apply (f_equal size) in H. by vm_compute in H.
  - apply Hnone. by vm_compute.
Defined.

(** *** [Copy] *)

(** The tail of [Copy] from the label [add]. *)
Lemma copyAdd_spec (w : World) (lom : LOM) (copyFQN : string) (mi : MountpathInfo) :
  let c := <[FQN lom := mpathInfo lom]> (<[copyFQN := mi]> (cmap lom)) in
  ∃ w' lom' e,
    copyAdd w lom copyFQN mi = Ret (w', lom', e)
    ∧ files w' = files w
    ∧ (io_fault w SysSetXattr (FQN lom) = true →
       e = Some (ErrIO SysSetXattr (FQN lom)) ∧ cmap lom' !! copyFQN = None)
    ∧ (io_fault w SysSetXattr (FQN lom) = false →
       e = None ∧ cmap lom' ⊆ c
       ∧ ((∀ f, is_Some (c !! f) → f ≠ FQN lom → io_fault w SysSetXattr f = false) →
          copies (md lom') = Some c)).
Proof.
  intros c. unfold copyAdd, AddCopy. fold c.
  destruct (syncMetaWithCopies w (set_copies lom (Some c))) as [[[w1 lom1] e1]| |] eqn:Hs1.
  2,3: destruct (syncMetaWithCopies_returns w (set_copies lom (Some c))) as (? & ? & Hr & _);
       congruence.
  destruct (syncMetaWithCopies_returns w (set_copies lom (Some c)))
    as (w1' & lom1' & Hr1 & Hsub1 & HF1 & _ & _ & Hfiles1).
  rewrite Hs1 in Hr1. injection Hr1 as <- <- ->.
  pose proof (sync_log _ _ _ _ _ Hs1) as (_ & Hio1 & _).
  cbn [FQN set_copies set_md] in HF1.
  cbn [mbind res_bind]. unfold Persist. rewrite Hio1, HF1.
  destruct (io_fault w SysSetXattr (FQN lom)) eqn:Hown.
  - eexists _, _, _. split; [reflexivity|]. split_and!; [done | | done].
    intros _. split; [done | apply delCopyMd_lookup].
  - destruct (syncMetaWithCopies_returns w1 lom1)
      as (w2 & lom2 & Hr2 & Hsub2 & _ & _ & _ & Hfiles2).
    rewrite Hr2. exists w2, lom2, None. split; [done|].
    split_and!; [congruence | done |].
    intros _. split_and!; [done | by etrans |].
    intros Hclean.
    destruct (sync_clean w (set_copies lom (Some c))) as (lom1' & Hr1' & Hc1 & HF1' & _);
      [done|].
    rewrite Hs1 in Hr1'. injection Hr1' as -> <-.
    destruct (sync_clean w lom1) as (lom2' & Hr2' & Hc2 & _).
    { intros f Hf Hne. apply Hclean; [|by rewrite <- HF1].
      unfold cmap in Hf. rewrite Hc1 in Hf. done. }
    rewrite Hr2 in Hr2'. injection Hr2' as -> <-. by rewrite Hc2, Hc1.
Qed.

(** X7. The outcomes of [Copy].  When the destination is not already there
    with the same content, a failing [CopyFile] changes nothing, and a failing
    [Rename] leaves the LOM as it was and has the work file removed.
    Otherwise the copy's file is there, and [AddCopy] has stored the copy:
    when [Persist] then fails the entry of the copy is taken out of
    [md.copies] again (its file stays), and when it succeeds [Copy] succeeds,
    [md.copies] being within the old map with the copy and the LOM's own
    entry stored, and exactly that map when no metadata write on a copy
    fails. *)
Theorem Copy_outcomes (w : World) (lom : LOM) (mi : MountpathInfo) :
  let copyFQN := MakePathFQN w mi (bck lom) ObjectType (ObjName lom) in
  let workFQN := MakePathFQN w mi (bck lom) WorkfileType
                   (WorkfileCopy +:+ "." +:+ ObjName lom) in
  let c := <[FQN lom := mpathInfo lom]> (<[copyFQN := mi]> (cmap lom)) in
  let already := Stat w copyFQN && LoadEqual w copyFQN lom in
  ∃ w' lom' e,
    Copy w lom mi = Ret (w', lom', e)
    ∧ (already = false → io_fault w SysCopy workFQN = true →
       e = Some (ErrIO SysCopy workFQN) ∧ w' = w ∧ lom' = lom)
    ∧ (already = false → io_fault w SysCopy workFQN = false →
       io_fault w SysRename copyFQN = true →
       e = Some (ErrIO SysRename copyFQN) ∧ lom' = lom
       ∧ fslog w' = fslog w ++ [unlinkEvent w workFQN]
       ∧ files w' = if io_fault w SysUnlink workFQN then files w ∪ {[workFQN]}
                    else (files w ∪ {[workFQN]}) ∖ {[workFQN]})
    ∧ (already = true
       ∨ (io_fault w SysCopy workFQN = false ∧ io_fault w SysRename copyFQN = false) →
       copyFQN ∈ files w'
       ∧ (already = true → files w' = files w)
       ∧ (io_fault w SysSetXattr (FQN lom) = true →
          e = Some (ErrIO SysSetXattr (FQN lom)) ∧ cmap lom' !! copyFQN = None)
       ∧ (io_fault w SysSetXattr (FQN lom) = false →
          e = None ∧ cmap lom' ⊆ c
          ∧ ((∀ f, is_Some (c !! f) → f ≠ FQN lom → io_fault w SysSetXattr f = false) →
             copies (md lom') = Some c))).
Proof.
  intros copyFQN workFQN c already. unfold Copy. fold copyFQN workFQN already.
  destruct already eqn:Halready.
  - destruct (copyAdd_spec w lom copyFQN mi) as (w' & lom' & e & Hr & Hfiles & Hfail & Hok).
    exists w', lom', e. split; [done|]. split_and!; [done | done |].
    intros _. split_and!; [| done | done | done].
    rewrite Hfiles. apply andb_true_iff in Halready as [Hstat _].
    apply andb_true_iff in Hstat as [Hin _]. by apply bool_decide_eq_true in Hin.
  - unfold CopyFile. destruct (io_fault w SysCopy workFQN) eqn:Hcopy.
    { exists w, lom, (Some (ErrIO SysCopy workFQN)). split; [done|].
      split_and!; [done | done |]. intros [?|[? _]]; done. }
    unfold Rename. cbn [io_fault set_files_log files fslog].
    destruct (io_fault w SysRename copyFQN) eqn:Hren.
    { eexists _, _, _. split; [reflexivity|]. split_and!; [done | |].
      - intros _ _ _. unfold RemoveFile, unlinkEvent. cbn [io_fault set_files_log].
        destruct (io_fault w SysUnlink workFQN); done.
      - intros [?|[_ ?]]; done. }
    match goal with |- context [copyAdd ?w0 lom copyFQN mi] =>
      destruct (copyAdd_spec w0 lom copyFQN mi) as (w' & lom' & e & Hr & Hfiles & Hfail & Hok)
    end.
    cbn [io_fault set_files_log files] in Hfiles, Hfail, Hok.
    exists w', lom', e. split; [done|]. split_and!; [done | done |].
    intros _. split_and!; [| done | done | done].
    rewrite Hfiles. apply elem_of_union_r, elem_of_singleton. done.
Qed.

End ClusterProps.

Module TransportProps.

Import Transport.

Local Open Scope Z_scope.

(** *** 64-bit arithmetic *)

Lemma wrap64_range (z : Z) : int64_range (wrap64 z).
Proof.
  unfold int64_range, wrap64.
  pose proof (Z.mod_pos_bound (z + 2 ^ 63) (2 ^ 64)) as H. lia.
Qed.

Lemma wrap64_id (z : Z) : int64_range z → wrap64 z = z.
Proof.
  unfold int64_range, wrap64. intros H.
  rewrite Z.mod_small by lia. lia.
Qed.

Lemma wrap64_add_l (a b : Z) : wrap64 (wrap64 a + b) = wrap64 (a + b).
Proof.
  unfold wrap64. f_equal.
  replace ((a + 2 ^ 63) mod 2 ^ 64 - 2 ^ 63 + b + 2 ^ 63)%Z
    with ((a + 2 ^ 63) mod 2 ^ 64 + b)%Z by lia.
  rewrite Zplus_mod_idemp_l. f_equal. lia.
Qed.

Section ReceiverProps.

Variable MaxHeaderSize : nat.
Variable Hash : Z → Z.
Variable IsLast : Header → bool.
Variable debug : bool.
Variable callback : Header → Body → list nat.

Local Abbreviation ExtHeader := (Transport.ExtHeader debug).
Local Abbreviation nextHeader := (Transport.nextHeader IsLast debug).
Local Abbreviation next := (Transport.next Hash IsLast debug).
Local Abbreviation objRead := (Transport.objRead debug).
Local Abbreviation objReads := (Transport.objReads debug).
Local Abbreviation receiveLoop := (Transport.receiveLoop Hash IsLast debug callback).
Local Abbreviation receive := (Transport.receive MaxHeaderSize Hash IsLast debug callback).

(** *** The frame parser *)

Lemma slice_in_range (from : list byte) (lo hi : Z) :
  0 ≤ lo → lo ≤ hi → hi ≤ Z.of_nat (length from) →
  slice from lo hi = Ret (take (Z.to_nat (hi - lo)) (drop (Z.to_nat lo) from)).
Proof.
  intros H1 H2 H3. unfold slice.
  destruct (Z.leb_spec 0 lo); [|lia].
  destruct (Z.leb_spec lo hi); [|lia].
  destruct (Z.leb_spec hi (Z.of_nat (length from))); [|lia].
  done.
Qed.

Lemma slice_from_in_range (from : list byte) (lo : Z) :
  0 ≤ lo → lo ≤ Z.of_nat (length from) →
  slice_from from lo = Ret (drop (Z.to_nat lo) from).
Proof.
  intros H1 H2. unfold slice_from. rewrite slice_in_range by lia.
  f_equal. apply take_ge. rewrite length_drop. lia.
Qed.

Lemma length_fill (buf bs : list byte) :
  (length bs ≤ length buf)%nat → length (fill buf bs) = length buf.
Proof. intros H. unfold fill. rewrite length_app, length_drop. lia. Qed.

Lemma Read_length (body : Body) (k : nat) : (length (Read body k).1.1 ≤ k)%nat.
Proof.
  destruct body as [|c rest]; simpl; [lia|].
  destruct (Nat.ltb_spec k (length (cdata c))); simpl; [|lia].
  rewrite length_take. lia.
Qed.

(** The two words of a 16-byte prefix, as [next] extracts them from the
    buffer the prefix was read into. *)
Lemma prefix_words (buf bs : list byte) :
  length bs = 16%nat → (16 ≤ length buf)%nat →
  extInt64 0 (fill buf bs) = Ret (8, wrap64 (be_value (take 8 bs)))
  ∧ (slice_from (fill buf bs) sizeofI64 ≫= extUint64 0)
    = Ret (8, be_value (take 8 (drop 8 bs))).
Proof.
  intros Hbs Hbuf.
  assert (length (fill buf bs) = length buf) as Hlen by (apply length_fill; lia).
  split.
  - unfold extInt64. rewrite slice_from_in_range by lia.
    change (Z.to_nat 0) with 0%nat. rewrite drop_0. cbn [mbind res_bind].
    unfold Uint64. rewrite Hlen.
    destruct (Nat.leb_spec 8 (length buf)); [|lia]. cbn [mbind res_bind].
    unfold fill. rewrite take_app_le by lia. done.
  - rewrite slice_from_in_range by (unfold sizeofI64; lia).
    change (Z.to_nat sizeofI64) with 8%nat. cbn [mbind res_bind].
    unfold extUint64. rewrite slice_from_in_range by (rewrite ?length_drop; lia).
    change (Z.to_nat 0) with 0%nat. rewrite drop_0. cbn [mbind res_bind].
    unfold Uint64. rewrite length_drop, Hlen.
    destruct (Nat.leb_spec 8 (length buf - 8)); [|lia]. cbn [mbind res_bind].
    unfold fill. rewrite drop_app_le by lia. rewrite take_app_le; [done|].
    rewrite length_drop. lia.
Qed.

(** [next] on a body whose first read delivers a whole prefix. *)
Lemma next_prefix (body : Body) (headerBuf bs : list byte) (e : option error) (body' : Body) :
  (16 ≤ length headerBuf)%nat →
  Read body 16 = (bs, e, body') → length bs = 16%nat →
  let hlen := wrap64 (be_value (take 8 bs)) in
  let checksum := be_value (take 8 (drop 8 bs)) in
  let stop (er : error) :=
    ({| obj := None; sessid := 0; hl64 := hlen; err := Some er |}, body', fill headerBuf bs) in
  next body headerBuf =
  if (Z.of_nat (length headerBuf) <? hlen)%Z then Ret (stop (ErrBreakage1 hlen))
  else if bool_decide (checksum ≠ Hash (uint64 hlen))
       then Ret (stop (ErrBreakage2 hlen checksum (Hash (uint64 hlen))))
       else nextHeader hlen body' (fill headerBuf bs).
Proof.
  intros Hbuf HR Hbs. cbv zeta. unfold Transport.next.
  rewrite slice_in_range by (unfold sizeofI64; lia).
  change (Z.to_nat (sizeofI64 * 2)) with 16%nat.
  cbn [mbind res_bind]. rewrite HR, Hbs.
  change (Z.of_nat 16 <? sizeofI64 * 2) with false. cbv iota.
  destruct (prefix_words headerBuf bs Hbs Hbuf) as [-> Hw].
  cbn [mbind res_bind]. rewrite length_fill by lia.
  destruct (_ <? _); [done|].
  destruct (slice_from (fill headerBuf bs) sizeofI64) as [tail| |]; [|done..].
  cbn [mbind res_bind] in *. rewrite Hw. cbn [mbind res_bind]. done.
Qed.

(** What the second half of [next] returns carries no breakage error. *)
Lemma nextHeader_no_breakage (hl : Z) (body : Body) (headerBuf : list byte)
    (f : frame) (body' : Body) (buf' : list byte) (er : error) :
  nextHeader hl body headerBuf = Ret (f, body', buf') → err f = Some er → ¬ is_breakage er.
Proof.
  unfold Transport.nextHeader.
  destruct (if debug then _ else _) as [[]| |]; [|done..]. cbn [mbind res_bind].
  destruct (slice headerBuf 0 hl) as [p| |]; [|done..]. cbn [mbind res_bind].
  destruct (Read body (Z.to_nat hl)) as [[bs e] body1] eqn:HR.
  assert (∀ er, e = Some er → ¬ is_breakage er) as He.
  { intros er' ->. destruct body as [|c rest]; simpl in HR.
    - injection HR as _ <- _. by intros [].
    - destruct (_ <? _)%nat; [by injection HR|].
      injection HR as _ He _. destruct (cerr c); [|done].
      simpl in He. injection He as <-. by intros []. }
  case_bool_decide.
  - intros [= <- _ _]. apply He.
  - destruct (if debug then _ else _) as [[]| |]; [|done..]. cbn [mbind res_bind].
    destruct (ExtHeader _ _) as [[h sid]| |]; [|done..]. cbn [mbind res_bind].
    destruct (IsLast h).
    + intros [= <- _ _] [= <-]. by intros [].
    + intros [= <- _ _]. apply He.
Qed.

(** A frame without an object and with an error ends the loop where it is:
    the callback is not called, the log gains the frame alone. *)
Lemma receiveLoop_stops (fuel : nat) (h : handler) (body : Body) (headerBuf : list byte)
    (log : list event) (f : frame) (body' : Body) (buf' : list byte) :
  next body headerBuf = Ret (f, body', buf') → obj f = None → is_Some (err f) →
  receiveLoop (S fuel) h body headerBuf log = Ret (openFrame h f, f, log ++ [EvFrame f]).
Proof.
  intros Hn Ho [e He]. simpl. rewrite Hn. cbn [mbind res_bind]. by rewrite Ho, He.
Qed.

(** *** Statistics of the receive loop *)

Lemma bump_zero (st : Stats) : stats_in_range st → bump st 0 0 0 = st.
Proof.
  intros (H1 & H2 & H3). destruct st as [n sz o]. unfold bump. simpl in *.
  rewrite !Z.add_0_r, !wrap64_id by done. done.
Qed.

Lemma bump_bump (st : Stats) (a b c a' b' c' : Z) :
  bump (bump st a b c) a' b' c' = bump st (a + a') (b + b') (c + c').
Proof.
  unfold bump. simpl. rewrite !wrap64_add_l, !Z.add_assoc. done.
Qed.

Lemma bump_in_range (st : Stats) (a b c : Z) : stats_in_range (bump st a b c).
Proof. split_and!; apply wrap64_range. Qed.

Lemma lookup_addStats (s s' : Z) (a b c : Z) (h : handler) :
  sessions (addStats s a b c h) !! s'
  = if decide (s = s') then (λ st, bump st a b c) <$> sessions h !! s' else sessions h !! s'.
Proof.
  unfold addStats. simpl. destruct (decide (s = s')) as [->|Hne].
  - rewrite lookup_alter_eq. done.
  - rewrite lookup_alter_ne by done. done.
Qed.

Lemma lookup_openFrame (h : handler) (f : frame) (s : Z) :
  s ≠ 0 →
  (∀ st, sessions h !! s = Some st → stats_in_range st) →
  sessions (openFrame h f) !! s
  = if decide (sessid f = s)
    then Some (bump (default zeroStats (sessions h !! s)) 0 0 (hl64 f))
    else sessions h !! s.
Proof.
  intros Hs Hrange. unfold openFrame.
  destruct (decide (sessid f = s)) as [Heq|Hne].
  - rewrite bool_decide_eq_true_2 by congruence. rewrite Heq.
    assert (stats_in_range (default zeroStats (sessions h !! s))) as Hr0.
    { destruct (sessions h !! s) as [st|] eqn:Hst; simpl; [by apply Hrange|].
      unfold stats_in_range, int64_range. simpl. lia. }
    case_bool_decide as Hhl.
    + rewrite lookup_addStats. rewrite decide_True by done.
      destruct (sessions h !! s) as [st|] eqn:Hst; simpl.
      * by rewrite Hst.
      * by rewrite lookup_insert_eq.
    + rewrite Hhl, bump_zero by done.
      destruct (sessions h !! s) as [st|] eqn:Hst; simpl; [done|].
      by rewrite lookup_insert_eq.
  - case_bool_decide as H0; [|done].
    assert (sessions (match sessions h !! sessid f with
                      | Some _ => h
                      | None => {| trname := trname h;
                                   sessions := <[sessid f:=zeroStats]> (sessions h);
                                   oldSessions := oldSessions h |}
                      end) !! s = sessions h !! s) as Hsame.
    { destruct (sessions h !! sessid f); [done|]. simpl. by rewrite lookup_insert_ne. }
    case_bool_decide; [|done].
    rewrite lookup_addStats, decide_False by done. done.
Qed.

Lemma session_frames_iter (s : Z) (f : frame) :
  session_frames s (iter_events f) = if decide (sessid f = s) then [f] else [].
Proof.
  unfold iter_events, session_frames. simpl.
  destruct (obj f); simpl; case_bool_decide; by destruct (decide _).
Qed.

Lemma session_callbacks_iter (s : Z) (f : frame) :
  session_callbacks s (iter_events f)
  = if decide (sessid f = s)
    then match obj f with Some o => [hdr o] | None => [] end
    else [].
Proof.
  unfold iter_events, session_callbacks. simpl.
  destruct (obj f); simpl; [|by destruct (decide _)].
  case_bool_decide; by destruct (decide _).
Qed.

Lemma lookup_frameDone (h : handler) (f : frame) (s : Z) :
  s ≠ 0 →
  (∀ st, sessions h !! s = Some st → stats_in_range st) →
  sessions (frameDone h f) !! s = after (sessions h !! s) s (iter_events f).
Proof.
  intros Hs Hrange. unfold after.
  rewrite session_frames_iter, session_callbacks_iter.
  unfold frameDone.
  destruct (obj f) as [o|] eqn:Ho.
  - rewrite lookup_addStats, lookup_openFrame by done.
    destruct (decide (sessid f = s)); [|done]. simpl.
    unfold payload. rewrite Ho, bump_bump. do 2 f_equal; lia.
  - rewrite lookup_openFrame by done.
    destruct (decide (sessid f = s)); [|done]. simpl.
    unfold payload. rewrite Ho. do 2 f_equal; lia.
Qed.

Lemma frameDone_fields (h : handler) (f : frame) :
  trname (frameDone h f) = trname h ∧ oldSessions (frameDone h f) = oldSessions h.
Proof.
  unfold frameDone, openFrame, addStats.
  destruct (obj f); repeat case_bool_decide; destruct (sessions h !! sessid f); done.
Qed.

Lemma after_in_range (o : option Stats) (s : Z) (log : list event) :
  (∀ st, o = Some st → stats_in_range st) →
  ∀ st, after o s log = Some st → stats_in_range st.
Proof.
  intros Ho st. unfold after. destruct (session_frames s log); [apply Ho|].
  intros [= <-]. apply bump_in_range.
Qed.

(** One iteration, then the rest. *)
Lemma after_iter (o : option Stats) (s : Z) (f : frame) (new : list event) :
  (session_frames s new = [] → session_callbacks s new = []) →
  after (after o s (iter_events f)) s new = after o s (iter_events f ++ new).
Proof.
  intros Hwf. unfold after at 1 3.
  unfold session_frames, session_callbacks. rewrite !omap_app.
  fold (session_frames s (iter_events f)) (session_frames s new)
       (session_callbacks s (iter_events f)) (session_callbacks s new).
  unfold after.
  destruct (session_frames s (iter_events f)) as [|f1 fs1] eqn:Hf1.
  - rewrite session_frames_iter in Hf1. rewrite session_callbacks_iter.
    destruct (decide (sessid f = s)); [done|]. done.
  - destruct (session_frames s new) as [|f2 fs2] eqn:Hf2.
    + rewrite Hwf by done. rewrite !app_nil_r. done.
    + cbn [default from_option id]. rewrite bump_bump.
      rewrite !fmap_app, !length_app.
      assert (∀ l1 l2, sumZ (l1 ++ l2) = sumZ l1 + sumZ l2) as Hsum.
      { induction l1 as [|x l1 IH]; intros l2; simpl; [done|]. rewrite IH. lia. }
      rewrite !Hsum, Nat2Z.inj_add. done.
Qed.

Lemma slice_Ret_inv (from p : list byte) (lo hi : Z) :
  slice from lo hi = Ret p → 0 ≤ lo ∧ lo ≤ hi ∧ hi ≤ Z.of_nat (length from).
Proof.
  unfold slice.
  destruct (Z.leb_spec 0 lo); [|done].
  destruct (Z.leb_spec lo hi); [|done].
  destruct (Z.leb_spec hi (Z.of_nat (length from))); [|done].
  done.
Qed.

(** The header length behind [hl64], for a frame that names a session. *)
Lemma nextHeader_shape (hl : Z) (body : Body) (headerBuf : list byte)
    (f : frame) (body' : Body) (buf' : list byte) :
  nextHeader hl body headerBuf = Ret (f, body', buf') →
  length buf' = length headerBuf
  ∧ (sessid f ≠ 0 →
     0 ≤ hl ∧ hl ≤ Z.of_nat (length headerBuf) ∧ hl64 f = add64 hl (sizeofI64 * 2)).
Proof.
  unfold Transport.nextHeader.
  destruct (if debug then _ else _) as [[]| |]; [|done..]. cbn [mbind res_bind].
  destruct (slice headerBuf 0 hl) as [p| |] eqn:Hsl; [|done..]. cbn [mbind res_bind].
  apply slice_Ret_inv in Hsl as (_ & H0 & Hle).
  pose proof (Read_length body (Z.to_nat hl)) as Hn.
  destruct (Read body (Z.to_nat hl)) as [[bs e] body1]. simpl in Hn.
  assert (length (fill headerBuf bs) = length headerBuf) as Hlen
    by (apply length_fill; lia).
  case_bool_decide.
  - by intros [= <- _ <-].
  - destruct (if debug then _ else _) as [[]| |]; [|done..]. cbn [mbind res_bind].
    destruct (ExtHeader _ _) as [[h sid]| |]; [|done..]. cbn [mbind res_bind].
    destruct (IsLast h); by intros [= <- _ <-].
Qed.

Lemma next_shape (body : Body) (headerBuf : list byte)
    (f : frame) (body' : Body) (buf' : list byte) :
  next body headerBuf = Ret (f, body', buf') →
  length buf' = length headerBuf
  ∧ (sessid f ≠ 0 →
     ∃ hlen, 0 ≤ hlen ∧ hlen ≤ Z.of_nat (length headerBuf)
             ∧ hl64 f = add64 hlen (sizeofI64 * 2)).
Proof.
  unfold Transport.next.
  destruct (slice headerBuf 0 (sizeofI64 * 2)) as [p| |] eqn:Hsl; [|done..].
  cbn [mbind res_bind].
  apply slice_Ret_inv in Hsl as (_ & _ & Hle). unfold sizeofI64 in Hle.
  pose proof (Read_length body (Z.to_nat (sizeofI64 * 2))) as Hn.
  destruct (Read body (Z.to_nat (sizeofI64 * 2))) as [[bs e] body1]. simpl in Hn.
  change (Z.to_nat (sizeofI64 * 2)) with 16%nat in Hn.
  assert (length (fill headerBuf bs) = length headerBuf) as Hlen
    by (apply length_fill; lia).
  destruct (_ <? _).
  - destruct (Assert _ _) as [[]| |]; [|done..]. cbn [mbind res_bind].
    by intros [= <- _ <-].
  - destruct (extInt64 0 _) as [[o1 hl]| |]; [|done..]. cbn [mbind res_bind].
    destruct (Z.ltb_spec (Z.of_nat (length (fill headerBuf bs))) hl) as [|Hhl].
    + by intros [= <- _ <-].
    + destruct (slice_from _ _) as [tl| |]; [|done..]. cbn [mbind res_bind].
      destruct (extUint64 0 tl) as [[o2 ck]| |]; [|done..]. cbn [mbind res_bind].
      case_bool_decide.
      * by intros [= <- _ <-].
      * intros Hh. apply nextHeader_shape in Hh as [Hl Hs].
        split; [congruence|]. intros Hsid. exists hl.
        destruct (Hs Hsid) as (? & ? & ?). split_and!; [done | lia | done].
Qed.

(** The receive loop, from any handler and log: the log grows by whole
    iterations, the callback is only called for a session whose frame was just
    logged, and each session's entry is what the new frames make of it. *)
Lemma receiveLoop_stats (fuel : nat) :
  ∀ (h : handler) (body : Body) (headerBuf : list byte) (log0 : list event)
    (h' : handler) (f' : frame) (log' : list event),
  receiveLoop fuel h body headerBuf log0 = Ret (h', f', log') →
  ∃ new, log' = log0 ++ new
    ∧ (∀ s, session_frames s new = [] → session_callbacks s new = [])
    ∧ (∀ s, s ≠ 0 → (∀ st, sessions h !! s = Some st → stats_in_range st) →
            sessions h' !! s = after (sessions h !! s) s new)
    ∧ (∀ fr, EvFrame fr ∈ new → sessid fr ≠ 0 →
             ∃ hlen, 0 ≤ hlen ∧ hlen ≤ Z.of_nat (length headerBuf)
                     ∧ hl64 fr = add64 hlen (sizeofI64 * 2))
    ∧ trname h' = trname h ∧ oldSessions h' = oldSessions h
    ∧ last new = Some (EvFrame f') ∧ obj f' = None ∧ is_Some (err f').
Proof.
  induction fuel as [|fuel IH]; intros h body headerBuf log0 h' f' log'; [done|].
  cbn [Transport.receiveLoop].
  destruct (next body headerBuf) as [[[f body1] buf1]| |] eqn:Hnext; [|done..].
  cbn [mbind res_bind].
  apply next_shape in Hnext as [Hlen Hshape].
  assert (∀ new,
    (∀ s, session_frames s new = [] → session_callbacks s new = []) →
    ∀ s, session_frames s (iter_events f ++ new) = [] →
         session_callbacks s (iter_events f ++ new) = []) as Hwf_step.
  { intros new Hwf s. unfold session_frames, session_callbacks. rewrite !omap_app.
    fold (session_frames s (iter_events f)) (session_frames s new)
         (session_callbacks s (iter_events f)) (session_callbacks s new).
    rewrite session_frames_iter, session_callbacks_iter.
    destruct (decide (sessid f = s)); [done|]. simpl. apply Hwf. }
  assert (∀ new h2,
    (∀ s, session_frames s new = [] → session_callbacks s new = []) →
    (∀ s, s ≠ 0 → (∀ st, sessions (frameDone h f) !! s = Some st → stats_in_range st) →
          sessions h2 !! s = after (sessions (frameDone h f) !! s) s new) →
    ∀ s, s ≠ 0 → (∀ st, sessions h !! s = Some st → stats_in_range st) →
         sessions h2 !! s = after (sessions h !! s) s (iter_events f ++ new)) as Hst_step.
  { intros new h2 Hwf Hst s Hs Hrange.
    rewrite <- after_iter by apply Hwf.
    rewrite <- lookup_frameDone by done. apply Hst; [done|].
    rewrite lookup_frameDone by done. by apply after_in_range. }
  assert (∀ new,
    (∀ fr, EvFrame fr ∈ new → sessid fr ≠ 0 →
           ∃ hlen, 0 ≤ hlen ∧ hlen ≤ Z.of_nat (length buf1)
                   ∧ hl64 fr = add64 hlen (sizeofI64 * 2)) →
    ∀ fr, EvFrame fr ∈ iter_events f ++ new → sessid fr ≠ 0 →
          ∃ hlen, 0 ≤ hlen ∧ hlen ≤ Z.of_nat (length headerBuf)
                  ∧ hl64 fr = add64 hlen (sizeofI64 * 2)) as Hsh_step.
  { intros new Hnew fr [Hin|Hin]%elem_of_app Hsid.
    - unfold iter_events in Hin. apply elem_of_cons in Hin as [[= ->]|Hin]; [by apply Hshape|].
      destruct (obj f); [|by apply elem_of_nil in Hin].
      by apply list_elem_of_singleton in Hin.
    - rewrite <- Hlen. by apply Hnew. }
  destruct (frameDone_fields h f) as [Htr Hold].
  destruct (obj f) as [o|] eqn:Ho.
  - destruct (objReads o body1 _) as [body2| |]; [|done..]. cbn [mbind res_bind].
    case_bool_decide as Hsid; [|done].
    replace (addStats (sessid f) 1 (Dsize (hdr o)) (Dsize (hdr o)) (openFrame h f))
      with (frameDone h f) by (unfold frameDone; by rewrite Ho).
    intros Hr. apply IH in Hr
      as (new & -> & Hwf & Hst & Hsh & Htr' & Hold' & Hlast & Hobj & Herr).
    exists (iter_events f ++ new). split_and!.
    + unfold iter_events. rewrite Ho. by rewrite <- !app_assoc.
    + by apply Hwf_step.
    + by apply Hst_step.
    + by apply Hsh_step.
    + congruence.
    + congruence.
    + rewrite last_app, Hlast. done.
    + done.
    + done.
  - replace (openFrame h f) with (frameDone h f) by (unfold frameDone; by rewrite Ho).
    destruct (err f) as [e|] eqn:He.
    + intros [= <- <- <-]. exists (iter_events f).
      assert (iter_events f = [EvFrame f]) as Hit by (unfold iter_events; by rewrite Ho).
      split_and!; try done.
      * by rewrite Hit.
      * intros s. rewrite session_frames_iter, session_callbacks_iter.
        by destruct (decide _).
      * intros s Hs Hrange. by apply lookup_frameDone.
      * intros fr Hin Hsid. rewrite Hit in Hin.
        apply list_elem_of_singleton in Hin as [= ->]. by apply Hshape.
      * by rewrite Hit.
    + intros Hr. apply IH in Hr
        as (new & -> & Hwf & Hst & Hsh & Htr' & Hold' & Hlast & Hobj & Herr).
      exists (iter_events f ++ new). split_and!.
      * unfold iter_events. rewrite Ho. by rewrite <- !app_assoc.
      * by apply Hwf_step.
      * by apply Hst_step.
      * by apply Hsh_step.
      * congruence.
      * congruence.
      * rewrite last_app, Hlast. done.
      * done.
      * done.
Qed.

(** *** The loop ends *)






















(** *** Closing a session *)

Lemma sweep_fold_None (now : Z) (l : list (Z * Z)) : ∀ (h : handler) (id : Z),
  (oldSessions h !! id = None → oldSessions (foldl (sweepStep now) h l) !! id = None)
  ∧ (sessions h !! id = None → sessions (foldl (sweepStep now) h l) !! id = None).
Proof.
  induction l as [|[id0 t0] l IH]; intros h id; simpl; [done|].
  destruct (IH (sweepStep now h (id0, t0)) id) as [IH1 IH2].
  split; intros Hn; [apply IH1 | apply IH2]; unfold sweepStep;
    destruct (_ <? _); simpl; try done.
  - destruct (decide (id0 = id)) as [->|?];
      [apply lookup_delete_eq | by rewrite lookup_delete_ne].
  - destruct (decide (id0 = id)) as [->|?];
      [apply lookup_delete_eq | by rewrite lookup_delete_ne].
Qed.

Lemma sweep_fold (now : Z) (l : list (Z * Z)) : ∀ (h : handler),
  let h' := foldl (sweepStep now) h l in
  (∀ id t, (id, t) ∈ l → cleanupTimeout < now - t →
           oldSessions h' !! id = None ∧ sessions h' !! id = None)
  ∧ (∀ id, (∀ t, (id, t) ∈ l → ¬ cleanupTimeout < now - t) →
           oldSessions h' !! id = oldSessions h !! id
           ∧ sessions h' !! id = sessions h !! id)
  ∧ trname h' = trname h.
Proof.
  induction l as [|[id0 t0] l IH]; intros h; cbv zeta; cbn [foldl].
  - split_and!; [|done..]. intros id t Hin. by apply elem_of_nil in Hin.
  - destruct (IH (sweepStep now h (id0, t0))) as (IH1 & IH2 & IH3). split_and!.
    + intros id t [[= -> ->]|Hin]%elem_of_cons Hexp; [|by eapply IH1].
      destruct (sweep_fold_None now l (sweepStep now h (id0, t0)) id0) as [H1 H2].
      unfold sweepStep in *. destruct (Z.ltb_spec cleanupTimeout (now - t0)); [|lia].
      simpl in *. split; [apply H1 | apply H2]; apply lookup_delete_eq.
    + intros id Hno.
      destruct (IH2 id) as [E1 E2]; [intros t Hin; apply Hno; by right|].
      rewrite E1, E2.
      unfold sweepStep. destruct (Z.ltb_spec cleanupTimeout (now - t0)) as [Hexp|]; [|done].
      assert (id0 ≠ id) as Hne.
      { intros ->. apply (Hno t0); [left|done]. }
      simpl. by rewrite !lookup_delete_ne.
    + rewrite IH3. unfold sweepStep. by destruct (_ <? _).
Qed.

Lemma sweep_spec (now : Z) (h : handler) :
  (∀ id t, oldSessions h !! id = Some t → cleanupTimeout < now - t →
           oldSessions (sweep now h) !! id = None ∧ sessions (sweep now h) !! id = None)
  ∧ (∀ id t, oldSessions h !! id = Some t → ¬ cleanupTimeout < now - t →
             oldSessions (sweep now h) !! id = Some t
             ∧ sessions (sweep now h) !! id = sessions h !! id)
  ∧ (∀ id, oldSessions h !! id = None →
           oldSessions (sweep now h) !! id = None
           ∧ sessions (sweep now h) !! id = sessions h !! id).
Proof.
  unfold sweep.
  destruct (sweep_fold now (map_to_list (oldSessions h)) h) as (H1 & H2 & _).
  split_and!.
  - intros id t Hid Hexp. apply (H1 id t); [|done]. by apply elem_of_map_to_list.
  - intros id t Hid Hexp. destruct (H2 id) as [-> ->]; [|done].
    intros t' Hin%elem_of_map_to_list. congruence.
  - intros id Hid. destruct (H2 id) as [-> ->]; [|done].
    intros t' Hin%elem_of_map_to_list. congruence.
Qed.


(** A frame without an object that names a session is one whose header
    [IsLast] marks. *)
Lemma next_last_frame (body : Body) (headerBuf : list byte)
    (f : frame) (body' : Body) (buf' : list byte) :
  next body headerBuf = Ret (f, body', buf') → obj f = None → sessid f ≠ 0 →
  ∃ hd hl, ExtHeader buf' hl = Ret (hd, sessid f) ∧ IsLast hd = true.
Proof.
  unfold Transport.next.
  destruct (slice headerBuf 0 (sizeofI64 * 2)) as [p| |]; [|done..].
  cbn [mbind res_bind].
  destruct (Read body (Z.to_nat (sizeofI64 * 2))) as [[bs e] body1].
  destruct (_ <? _).
  - destruct (Assert _ _) as [[]| |]; [|done..]. cbn [mbind res_bind].
    by intros [= <- _ _].
  - destruct (extInt64 0 _) as [[o1 hl]| |]; [|done..]. cbn [mbind res_bind].
    destruct (_ <? _); [by intros [= <- _ _]|].
    destruct (slice_from _ _) as [tl| |]; [|done..]. cbn [mbind res_bind].
    destruct (extUint64 0 tl) as [[o2 ck]| |]; [|done..]. cbn [mbind res_bind].
    case_bool_decide; [by intros [= <- _ _]|].
    unfold Transport.nextHeader.
    destruct (if debug then _ else _) as [[]| |]; [|done..]. cbn [mbind res_bind].
    destruct (slice _ 0 hl) as [q| |]; [|done..]. cbn [mbind res_bind].
    destruct (Read body1 (Z.to_nat hl)) as [[bs2 e2] body2].
    case_bool_decide; [by intros [= <- _ _]|].
    destruct (if debug then _ else _) as [[]| |]; [|done..]. cbn [mbind res_bind].
    destruct (Transport.ExtHeader debug _ _) as [[hd sid]| |] eqn:Hext; [|done..].
    cbn [mbind res_bind].
    destruct (IsLast hd) eqn:Hlast; [|by intros [= <- _ _]].
    intros [= <- _ <-] _ _. by exists hd, hl.
Qed.

(** The header length is a signed word: a prefix whose first word has its top
    bit set announces a negative length, which is no stream breakage #1. *)
Lemma next_length_is_signed (body : Body) (headerBuf bs : list byte)
    (e : option error) (body' : Body) :
  (16 ≤ length headerBuf)%nat →
  Read body 16 = (bs, e, body') → length bs = 16%nat →
  2 ^ 63 ≤ be_value (take 8 bs) < 2 ^ 64 →
  wrap64 (be_value (take 8 bs)) < 0
  ∧ ∀ f body2 buf2 hl, next body headerBuf = Ret (f, body2, buf2) →
                       err f ≠ Some (ErrBreakage1 hl).
Proof.
  intros Hbuf HR Hbs Hu.
  assert (wrap64 (be_value (take 8 bs)) < 0) as Hneg.
  { unfold wrap64.
    replace (be_value (take 8 bs) + 2 ^ 63)
      with ((be_value (take 8 bs) - 2 ^ 63) + 1 * 2 ^ 64) by lia.
    rewrite Z_mod_plus_full, Z.mod_small by lia. lia. }
  split; [done|]. intros f body2 buf2 hl Hf.
  rewrite (next_prefix body headerBuf bs e body' Hbuf HR Hbs) in Hf.
  destruct (Z.ltb_spec (Z.of_nat (length headerBuf)) (wrap64 (be_value (take 8 bs))));
    [lia|].
  case_bool_decide; [by injection Hf as <- _ _|].
  intros He. eapply nextHeader_no_breakage in Hf; [|done]. by destruct Hf.
Qed.

(** *** The properties of the specification *)

(** Stream breakage, for the header length as [next] reads it.  Let the first
    read of the body deliver a whole 16-byte prefix into a header buffer of
    [MaxHeaderSize] bytes; [hlen] is its first big-endian word read as a
    signed 64-bit integer, and [checksum] its second word.  If [hlen] exceeds
    [MaxHeaderSize], [next] fails with stream breakage #1.  If it does not,
    [next] fails with stream breakage #2 exactly when [checksum] differs from
    [Hash(hlen)].  In both failures no object reader is returned and no
    session is named, and the receive loop ends on that frame without calling
    the callback, its answer being the error.  (For a first word below
    [2^63] the signed reading is the word itself; above, see
    [next_length_is_signed].) *)
Theorem next_stream_breakage (body : Body) (headerBuf bs : list byte)
    (e : option error) (body' : Body) :
  length headerBuf = MaxHeaderSize → (16 ≤ MaxHeaderSize)%nat →
  Read body 16 = (bs, e, body') → length bs = 16%nat →
  let hlen := wrap64 (be_value (take 8 bs)) in
  let checksum := be_value (take 8 (drop 8 bs)) in
  let stop (er : error) :=
    ({| obj := None; sessid := 0; hl64 := hlen; err := Some er |}, body', fill headerBuf bs) in
  (Z.of_nat MaxHeaderSize < hlen → next body headerBuf = Ret (stop (ErrBreakage1 hlen)))
  ∧ (hlen ≤ Z.of_nat MaxHeaderSize →
     (checksum ≠ Hash (uint64 hlen) →
      next body headerBuf = Ret (stop (ErrBreakage2 hlen checksum (Hash (uint64 hlen)))))
     ∧ ((∃ f body2 buf2 a b c,
           next body headerBuf = Ret (f, body2, buf2) ∧ err f = Some (ErrBreakage2 a b c))
        ↔ checksum ≠ Hash (uint64 hlen)))
  ∧ (∀ f body2 buf2 er,
       next body headerBuf = Ret (f, body2, buf2) → err f = Some er → is_breakage er →
       obj f = None ∧ sessid f = 0
       ∧ closeResponse f = RespBadRequest (StreamError er)
       ∧ ∀ fuel h log,
           receiveLoop (S fuel) h body headerBuf log = Ret (h, f, log ++ [EvFrame f])).
Proof.
  intros Hlen Hmax HR Hbs. cbv zeta.
  assert (16 ≤ length headerBuf)%nat as Hbuf by lia.
  pose proof (next_prefix body headerBuf bs e body' Hbuf HR Hbs) as Hnext.
  cbv zeta in Hnext. rewrite Hlen in Hnext.
  split_and!.
  - intros Hgt. rewrite Hnext.
    destruct (Z.ltb_spec (Z.of_nat MaxHeaderSize) (wrap64 (be_value (take 8 bs)))); [done|lia].
  - intros Hle.
    destruct (Z.ltb_spec (Z.of_nat MaxHeaderSize) (wrap64 (be_value (take 8 bs))));
      [lia|].
    split.
    + intros Hne. rewrite Hnext. by rewrite bool_decide_eq_true_2.
    + split.
      * intros (f & body2 & buf2 & a & b & c & Hf & He). rewrite Hnext in Hf.
        case_bool_decide as Hck; [done|].
        apply nextHeader_no_breakage with (er := ErrBreakage2 a b c) in Hf; [|done].
        by destruct Hf.
      * intros Hne. rewrite Hnext. rewrite bool_decide_eq_true_2 by done.
        by eexists _, _, _, _, _, _.
  - intros f body2 buf2 er Hf He Hbr.
    assert (obj f = None ∧ sessid f = 0) as [Ho Hs].
    { rewrite Hnext in Hf. destruct (_ <? _); [by injection Hf as <- _ _|].
      case_bool_decide; [by injection Hf as <- _ _|].
      eapply nextHeader_no_breakage in Hf; [|done]. by destruct Hf. }
    split_and!; [done..| |].
    + unfold closeResponse. rewrite He.
      rewrite bool_decide_eq_true_2; [done|]. intros ->. by destruct Hbr.
    + intros fuel h log.
      rewrite (receiveLoop_stops fuel h body headerBuf log f body2 buf2 Hf Ho)
        by (by rewrite He).
      unfold openFrame. by rewrite bool_decide_eq_false_2 by (by intros []).
Qed.



End ReceiverProps.

(** *** On the concrete receiver *)

(** With the last-frame marker of section 6, the last frame of a session
    announces no object bytes. *)
Lemma last_frame_carries_nothing (Hash : Z → Z) (debug : bool) (body : Body)
    (headerBuf : list byte) (f : frame) (body' : Body) (buf' : list byte) :
  next Hash isLast0 debug body headerBuf = Ret (f, body', buf') →
  obj f = None → sessid f ≠ 0 →
  ∃ hd hl, ExtHeader debug buf' hl = Ret (hd, sessid f) ∧ Dsize hd = 0.
Proof.
  intros Hn Ho Hs.
  destruct (next_last_frame Hash isLast0 debug body headerBuf f body' buf' Hn Ho Hs)
    as (hd & hl & Hext & Hlast).
  exists hd, hl. split; [done|]. by apply bool_decide_eq_true in Hlast.
Qed.

(** C2, where the code misses it.  The header length is the first word of
    the prefix, a big-endian u64; [next] turns it into an [int64] before it
    compares it with the size of the header buffer.  At the prefix whose
    first word is [2^64 - 1], far above [MaxHeaderSize] = 128, the length reads
    as [-1] and no stream breakage #1 is raised: with the hash of that word in
    place the slice [headerBuf[:hlen]] panics, in [next] and so in [receive],
    with or without the debug assertions; with another hash word the error is
    stream breakage #2. *)
Lemma next_oversized_length_unchecked :
  be_value (take 8 (put_u64 (2 ^ 64 - 1))) = 2 ^ 64 - 1
  ∧ Z.of_nat 128 < 2 ^ 64 - 1
  ∧ next hash0 isLast0 false body_huge_header (replicate 128 x00)
    = Panic "slice bounds out of range"
  ∧ next hash0 isLast0 true body_huge_header (replicate 128 x00)
    = Panic "slice bounds out of range"
  ∧ receive 128 hash0 isLast0 false callback0 0 handler0 (put body_huge_header)
    = Panic "slice bounds out of range"
  ∧ next hash0 isLast0 false body_huge_bad_hash (replicate 128 x00)
    = Ret ({| obj := None; sessid := 0; hl64 := -1;
              err := Some (ErrBreakage2 (-1) (hash0 (2 ^ 64 - 1) + 1) (hash0 (2 ^ 64 - 1))) |},
           [], put_u64 (2 ^ 64 - 1) ++ put_u64 (hash0 (2 ^ 64 - 1) + 1) ++ replicate 112 x00).
Proof.
  split_and!; [by vm_compute | lia | by vm_compute..].
Qed.

(** A header of 129 bytes is announced to a buffer of 128: stream breakage #1. *)
Lemma next_stream_breakage_witness :
  ∃ body' buf',
    next hash0 isLast0 false body_long_header (replicate 128 x00)
    = Ret ({| obj := None; sessid := 0; hl64 := 129; err := Some (ErrBreakage1 129) |},
           body', buf').
Proof.
  pose proof (next_stream_breakage 128 hash0 isLast0 false callback0
                body_long_header (replicate 128 x00)
                (Read body_long_header 16).1.1 (Read body_long_header 16).1.2
                (Read body_long_header 16).2
                eq_refl ltac:(lia) eq_refl eq_refl) as (H1 & _).
  eexists _, _. apply H1. vm_compute. reflexivity.
Defined.




(** *** Beyond one request, beyond one frame *)

Section ReceiverMore.

Variable MaxHeaderSize : nat.
Variable Hash : Z → Z.
Variable IsLast : Header → bool.
Variable debug : bool.
Variable callback : Header → Body → list nat.

Local Abbreviation ExtHeader := (Transport.ExtHeader debug).
Local Abbreviation nextHeader := (Transport.nextHeader IsLast debug).
Local Abbreviation next := (Transport.next Hash IsLast debug).
Local Abbreviation objRead := (Transport.objRead debug).
Local Abbreviation objReads := (Transport.objReads debug).
Local Abbreviation receiveLoop := (Transport.receiveLoop Hash IsLast debug callback).
Local Abbreviation receive := (Transport.receive MaxHeaderSize Hash IsLast debug callback).

(** X10. The statistics of a session add up across requests.  For a session
    the handler already knows, with no tombstone older than the cleanup
    timeout, a request leaves [Num], [Size] and [Offset] advanced by the
    callback calls, the [Dsize] and the [hl64 + Dsize] of its frames for that
    session (64-bit sums); a request without a frame of the session, a
    rejected request included, leaves them as they are. *)
Theorem receive_stats_accumulate (now : Z) (h : handler) (r : Request)
    (h' : handler) (resp : response) (log : list event) (s : Z) (st : Stats) :
  receive now h r = Ret (h', resp, log) →
  s ≠ 0 → sessions h !! s = Some st → stats_in_range st →
  (∀ t, oldSessions h !! s = Some t → ¬ cleanupTimeout < now - t) →
  sessions h' !! s
  = Some (bump st (Z.of_nat (length (session_callbacks s log)))
                  (sumZ (Dsize <$> session_callbacks s log))
                  (sumZ ((λ f, hl64 f + payload f) <$> session_frames s log)))
  ∧ (session_frames s log = [] → sessions h' !! s = Some st).
Proof.
  intros Hrecv Hs Hst Hrange Hfresh.
  assert (sessions h' !! s = after (Some st) s log) as Hafter.
  { revert Hrecv. unfold Transport.receive.
    case_bool_decide; [intros [= <- _ <-]; exact Hst|].
    case_bool_decide; [intros [= <- _ <-]; exact Hst|].
    destruct (receiveLoop _ h (rbody r) _ []) as [[[hL fL] logL]| |] eqn:Hr; [|done..].
    cbn [mbind res_bind]. intros [= <- _ <-].
    apply receiveLoop_stats in Hr as (new & -> & _ & Hstats & _ & _ & Hold & _).
    rewrite app_nil_l. rewrite <- Hst, <- Hstats; [|done|by intros st' [= <-]%(eq_trans (eq_sym Hst))].
    unfold closeSession. case_bool_decide; [|done]. simpl.
    destruct (sweep_spec now hL) as (_ & H2 & H3).
    destruct (oldSessions hL !! s) as [t|] eqn:Ht.
    - apply (H2 s t Ht). apply Hfresh. by rewrite <- Hold.
    - by apply H3. }
  assert (session_frames s log = [] → session_callbacks s log = []) as Hwf.
  { revert Hrecv. unfold Transport.receive.
    case_bool_decide; [by intros [= _ _ <-]|].
    case_bool_decide; [by intros [= _ _ <-]|].
    destruct (receiveLoop _ h (rbody r) _ []) as [[[hL fL] logL]| |] eqn:Hr; [|done..].
    cbn [mbind res_bind]. intros [= _ _ <-].
    apply receiveLoop_stats in Hr as (new & -> & Hwf & _). exact (Hwf s). }
  rewrite Hafter. unfold after.
  destruct (session_frames s log) as [|f1 fs] eqn:Hfs.
  - rewrite Hwf by done. simpl. rewrite bump_zero by done. done.
  - split; [done|]. done.
Qed.

(** *** The object reader *)

Lemma Read_bytes (body : Body) (k : nat) :
  bodyBytes body = (Read body k).1.1 ++ bodyBytes (Read body k).2
  ∧ (length (Read body k).1.1 ≤ k)%nat.
Proof.
  unfold Read, bodyBytes. destruct body as [|c rest]; [simpl; split; [done | lia]|].
  destruct (Nat.ltb_spec k (length (cdata c))); simpl.
  - rewrite app_assoc, take_drop. split; [done|]. rewrite length_take. lia.
  - split; [done | lia].
Qed.

(** Inside the object ([0 <= off <= Dsize]) a [Read] asks the body for no
    more than what is left of the object, and does not panic. *)
Lemma objRead_eq (o : objReader) (body : Body) (lenb : nat) :
  0 ≤ off o → off o ≤ Dsize (hdr o) → Dsize (hdr o) < 2 ^ 63 →
  let r := Read body (lenb `min` Z.to_nat (Dsize (hdr o) - off o)) in
  let o' := {| hdr := hdr o; off := off o + Z.of_nat (length r.1.1); hlen := hlen o |} in
  objRead o body lenb =
    Ret (length r.1.1,
         match r.1.2 with
         | None => if Dsize (hdr o) <=? off o' then Some EOF else None
         | Some e => Some e
         end, o', r.2).
Proof.
  intros H0 Hle Hmax. unfold Transport.objRead.
  assert (wrap64 (Dsize (hdr o) - off o) = Dsize (hdr o) - off o) as ->.
  { apply wrap64_id. unfold int64_range. lia. }
  set (k := (lenb `min` Z.to_nat (Dsize (hdr o) - off o))%nat).
  assert ((if Dsize (hdr o) - off o <? Z.of_nat lenb
           then if 0 <=? Dsize (hdr o) - off o
                then Ret (Z.to_nat (Dsize (hdr o) - off o))
                else Panic "slice bounds out of range"
           else Ret lenb) = Ret k) as ->.
  { unfold k. destruct (Z.ltb_spec (Dsize (hdr o) - off o) (Z.of_nat lenb)).
    - destruct (Z.leb_spec 0 (Dsize (hdr o) - off o)); [f_equal; lia | lia].
    - f_equal. lia. }
  cbn [mbind res_bind].
  destruct (Read_bytes body k) as [_ Hlen].
  destruct (Read body k) as [[bs err] body'] eqn:HR. simpl in *.
  assert (add64 (off o) (Z.of_nat (length bs)) = off o + Z.of_nat (length bs)) as ->.
  { apply wrap64_id. unfold int64_range. lia. }
  destruct err as [e|]; [done|].
  destruct (Z.leb_spec (Dsize (hdr o)) (off o + Z.of_nat (length bs))); [|done].
  destruct debug; [|done]. simpl.
  rewrite bool_decide_eq_true_2 by lia. done.
Qed.

(** X11. Inside the object ([0 <= off <= Dsize], as [next] and the reads before
    leave it) [objReader.Read] returns, having passed to the caller at most
    [len(b)] bytes and at most what is left of the object: the offset
    advances by exactly the bytes taken off the body and never passes
    [Dsize]; reaching [Dsize] is reported as an error ([io.EOF] unless the
    body had one of its own), and no error means the object is not finished. *)
Theorem objRead_within_object (o : objReader) (body : Body) (lenb : nat) :
  0 ≤ off o → off o ≤ Dsize (hdr o) → Dsize (hdr o) < 2 ^ 63 →
  ∃ n e o' body',
    objRead o body lenb = Ret (n, e, o', body')
    ∧ (n ≤ lenb)%nat ∧ (n ≤ length (bodyBytes body))%nat
    ∧ bodyBytes body' = drop n (bodyBytes body)
    ∧ hdr o' = hdr o ∧ off o' = off o + Z.of_nat n ∧ off o' ≤ Dsize (hdr o)
    ∧ (off o' = Dsize (hdr o) → is_Some e)
    ∧ (e = None → off o' < Dsize (hdr o))
    ∧ (body = [] → n = 0%nat ∧ e = Some EOF).
Proof.
  intros H0 Hle Hmax. rewrite objRead_eq by done.
  set (k := (lenb `min` Z.to_nat (Dsize (hdr o) - off o))%nat).
  destruct (Read_bytes body k) as [Hbytes Hlen].
  assert (body = [] → Read body k = ([], Some EOF, [])) as Hempty by (by intros ->).
  destruct (Read body k) as [[bs err] body'] eqn:HR. simpl in *.
  eexists _, _, _, _. split; [reflexivity|]. simpl.
  assert (bodyBytes body' = drop (length bs) (bodyBytes body)
          ∧ (length bs ≤ length (bodyBytes body))%nat) as [Hdrop Hfit].
  { rewrite Hbytes, drop_app_length, length_app. split; [done | lia]. }
  split_and!; try done; try lia.
  - intros Heq. destruct err; [done|].
    destruct (Z.leb_spec (Dsize (hdr o)) (off o + Z.of_nat (length bs))); [done | lia].
  - destruct err; [done|].
    destruct (Z.leb_spec (Dsize (hdr o)) (off o + Z.of_nat (length bs))); [done | lia].
  - intros Hb. specialize (Hempty Hb). by injection Hempty as -> ->.
Qed.

(** X12. Past the object, [objReader.Read] panics whatever the buffer: with
    [Dsize - off] negative (an object whose header announces a negative
    size, at its first read) the buffer is resliced to a negative length. *)
Theorem objRead_negative_remainder (o : objReader) (body : Body) (lenb : nat) :
  wrap64 (Dsize (hdr o) - off o) < 0 →
  objRead o body lenb = Panic "slice bounds out of range".
Proof.
  intros Hneg. unfold Transport.objRead.
  destruct (Z.ltb_spec (wrap64 (Dsize (hdr o) - off o)) (Z.of_nat lenb)); [|lia].
  destruct (Z.leb_spec 0 (wrap64 (Dsize (hdr o) - off o))); [lia | done].
Qed.

(** X13. The callback's reads, whatever their number and their buffers, take
    off the body a prefix no longer than what is left of the object: the
    frames behind it are left for [next]. *)
Theorem objReads_within_object (lens : list nat) (o : objReader) (body : Body) :
  0 ≤ off o → off o ≤ Dsize (hdr o) → Dsize (hdr o) < 2 ^ 63 →
  ∃ body' k,
    objReads o body lens = Ret body'
    ∧ bodyBytes body' = drop k (bodyBytes body)
    ∧ (k ≤ length (bodyBytes body))%nat
    ∧ Z.of_nat k ≤ Dsize (hdr o) - off o
    ∧ (k ≤ sum_list lens)%nat.
Proof.
  revert o body. induction lens as [|lenb lens IH]; intros o body H0 Hle Hmax.
  { exists body, 0%nat. simpl. split_and!; try done; lia. }
  cbn [objReads]. rewrite objRead_eq by done.
  set (k := (lenb `min` Z.to_nat (Dsize (hdr o) - off o))%nat).
  destruct (Read_bytes body k) as [Hbytes Hlen].
  destruct (Read body k) as [[bs err] body1] eqn:HR. simpl in *.
  cbn [mbind res_bind].
  destruct (IH {| hdr := hdr o; off := off o + Z.of_nat (length bs); hlen := hlen o |} body1)
    as (body' & k' & -> & Hd & Hk1 & Hk2 & Hk3); simpl; try lia.
  simpl in *. exists body', (length bs + k')%nat.
  assert (bodyBytes body1 = drop (length bs) (bodyBytes body)) as Hb1.
  { by rewrite Hbytes, drop_app_length. }
  split_and!; try done; try lia.
  - by rewrite Hd, Hb1, drop_drop.
  - rewrite Hbytes, length_app. lia.
Qed.

(** *** The wire format *)

Lemma byteZ_byte_of (z : Z) : byteZ (byte_of z) = z mod 256.
Proof.
  unfold byteZ, byte_of.
  pose proof (Z.mod_pos_bound z 256 ltac:(lia)) as Hb.
  destruct (Byte.of_N (Z.to_N (z mod 256))) as [b|] eqn:Hof.
  - apply Byte.to_of_N in Hof. simpl. rewrite Hof. lia.
  - apply Byte.of_N_None_iff in Hof. lia.
Qed.

Lemma length_put_u64 (z : Z) : length (put_u64 z) = 8%nat.
Proof. done. Qed.

Lemma be_value_put_u64 (z : Z) : be_value (put_u64 z) = z mod 2 ^ 64.
Proof.
  unfold put_u64, be_value. cbn [seq fmap list_fmap foldl]. rewrite !byteZ_byte_of.
  change (8 * (7 - Z.of_nat 0)) with 56. change (8 * (7 - Z.of_nat 1)) with 48.
  change (8 * (7 - Z.of_nat 2)) with 40. change (8 * (7 - Z.of_nat 3)) with 32.
  change (8 * (7 - Z.of_nat 4)) with 24. change (8 * (7 - Z.of_nat 5)) with 16.
  change (8 * (7 - Z.of_nat 6)) with 8. change (8 * (7 - Z.of_nat 7)) with 0.
  assert (∀ k, 0 ≤ k → z / 2 ^ (k + 8) = z / 2 ^ k / 256) as Hd.
  { intros k Hk. rewrite Z.pow_add_r by lia. rewrite Z.div_div by lia. done. }
  pose proof (Hd 0 ltac:(lia)) as H1. pose proof (Hd 8 ltac:(lia)) as H2.
  pose proof (Hd 16 ltac:(lia)) as H3. pose proof (Hd 24 ltac:(lia)) as H4.
  pose proof (Hd 32 ltac:(lia)) as H5. pose proof (Hd 40 ltac:(lia)) as H6.
  pose proof (Hd 48 ltac:(lia)) as H7. pose proof (Hd 56 ltac:(lia)) as H8.
  change (0 + 8) with 8 in *. change (8 + 8) with 16 in *. change (16 + 8) with 24 in *.
  change (24 + 8) with 32 in *. change (32 + 8) with 40 in *. change (40 + 8) with 48 in *.
  change (48 + 8) with 56 in *. change (56 + 8) with 64 in *.
  rewrite Z.pow_0_r, Z.div_1_r in *.
  pose proof (Z.div_mod z 256 ltac:(lia)).
  pose proof (Z.div_mod (z / 2 ^ 8) 256 ltac:(lia)).
  pose proof (Z.div_mod (z / 2 ^ 16) 256 ltac:(lia)).
  pose proof (Z.div_mod (z / 2 ^ 24) 256 ltac:(lia)).
  pose proof (Z.div_mod (z / 2 ^ 32) 256 ltac:(lia)).
  pose proof (Z.div_mod (z / 2 ^ 40) 256 ltac:(lia)).
  pose proof (Z.div_mod (z / 2 ^ 48) 256 ltac:(lia)).
  pose proof (Z.div_mod (z / 2 ^ 56) 256 ltac:(lia)).
  pose proof (Z.mod_pos_bound z 256 ltac:(lia)).
  pose proof (Z.mod_pos_bound (z / 2 ^ 8) 256 ltac:(lia)).
  pose proof (Z.mod_pos_bound (z / 2 ^ 16) 256 ltac:(lia)).
  pose proof (Z.mod_pos_bound (z / 2 ^ 24) 256 ltac:(lia)).
  pose proof (Z.mod_pos_bound (z / 2 ^ 32) 256 ltac:(lia)).
  pose proof (Z.mod_pos_bound (z / 2 ^ 40) 256 ltac:(lia)).
  pose proof (Z.mod_pos_bound (z / 2 ^ 48) 256 ltac:(lia)).
  pose proof (Z.mod_pos_bound (z / 2 ^ 56) 256 ltac:(lia)).
  change (z / 2 ^ 8) with (z / 256) in *.
  apply Z.mod_unique_pos with (q := z / 2 ^ 64); lia.
Qed.

Lemma wrap64_mod (z : Z) : int64_range z → wrap64 (z mod 2 ^ 64) = z.
Proof.
  unfold wrap64, int64_range. intros Hz.
  rewrite Zplus_mod_idemp_l. rewrite Z.mod_small by lia. lia.
Qed.

Lemma Uint64_put (z : Z) (post : list byte) :
  Uint64 (put_u64 z ++ post) = Ret (z mod 2 ^ 64).
Proof.
  unfold Uint64. rewrite length_app, length_put_u64.
  destruct (Nat.leb_spec 8 (8 + length post)); [|lia].
  rewrite (take_app_length' (put_u64 z)) by done. by rewrite be_value_put_u64.
Qed.

Lemma extUint_at (buf pre post : list byte) (z : Z) :
  buf = pre ++ put_u64 z ++ post → Z.of_nat (length buf) < 2 ^ 63 →
  extInt64 (Z.of_nat (length pre)) buf
  = Ret (Z.of_nat (length (pre ++ put_u64 z)), wrap64 (z mod 2 ^ 64)).
Proof.
  intros -> Hlt. rewrite !length_app, length_put_u64 in *. unfold extInt64.
  rewrite slice_from_in_range by (rewrite ?length_app; lia).
  rewrite Nat2Z.id, drop_app_length. cbn [mbind res_bind].
  rewrite Uint64_put. cbn [mbind res_bind]. unfold add64, sizeofI64.
  rewrite wrap64_id by (unfold int64_range; lia). do 2 f_equal. lia.
Qed.

Lemma extBytes_at (buf pre s post : list byte) :
  buf = pre ++ put_bytes s ++ post → Z.of_nat (length buf) < 2 ^ 63 →
  extString (Z.of_nat (length pre)) buf = Ret (Z.of_nat (length (pre ++ put_bytes s)), s)
  ∧ extByte (Z.of_nat (length pre)) buf = Ret (Z.of_nat (length (pre ++ put_bytes s)), s).
Proof.
  intros -> Hlt. unfold extString, extByte, put_bytes in *.
  rewrite !length_app, !length_put_u64 in *.
  rewrite slice_from_in_range by (rewrite ?length_app; lia).
  rewrite Nat2Z.id, drop_app_length. cbn [mbind res_bind].
  rewrite <- !app_assoc, Uint64_put. cbn [mbind res_bind]. unfold add64, sizeofI64.
  rewrite (wrap64_mod (Z.of_nat (length s))) by (unfold int64_range; lia).
  rewrite (wrap64_id (Z.of_nat (length pre) + 8)) by (unfold int64_range; lia).
  rewrite (wrap64_id (Z.of_nat (length pre) + 8 + _)) by (unfold int64_range; lia).
  rewrite slice_in_range by (rewrite ?length_app, ?length_put_u64; lia).
  replace (Z.to_nat (Z.of_nat (length pre) + 8 + Z.of_nat (length s) - (Z.of_nat (length pre) + 8)))
    with (length s) by lia.
  replace (Z.to_nat (Z.of_nat (length pre) + 8)) with (length (pre ++ put_u64 (Z.of_nat (length s))))
    by (rewrite length_app, length_put_u64; lia).
  rewrite (app_assoc pre), drop_app_length, take_app_length.
  replace (Z.of_nat (length pre) + 8 + Z.of_nat (length s))
    with (Z.of_nat (length pre + (8 + length s))) by lia. done.
Qed.

Lemma length_header_bytes (h : Header) (sessid : Z) :
  length (header_bytes h sessid)
  = (40 + length (Bucket h) + length (Objname h) + length (Opaque h))%nat.
Proof. unfold header_bytes, put_bytes. rewrite !length_app, !length_put_u64. lia. Qed.

(** X14. [ExtHeader] reads back what the wire format of section 6 lays out:
    from a buffer that starts with the header payload of [h] and [sessid]
    (three length-prefixed fields, then the session id and the size as
    big-endian words) it returns [h] and [sessid], whatever follows in the
    buffer, and the offset it ends at is the length of the payload (the
    assertion of the debug build holds). *)
Theorem ExtHeader_header_bytes (h : Header) (sessid : Z) (post : list byte) :
  int64_range sessid → int64_range (Dsize h) →
  Z.of_nat (length (header_bytes h sessid ++ post)) < 2 ^ 63 →
  ExtHeader (header_bytes h sessid ++ post) (Z.of_nat (length (header_bytes h sessid)))
  = Ret (h, sessid).
Proof.
  intros Hs Hd Hlen. unfold Transport.ExtHeader.
  set (buf := header_bytes h sessid ++ post) in *.
  set (p1 := [] ++ put_bytes (Bucket h)).
  set (p2 := p1 ++ put_bytes (Objname h)).
  set (p3 := p2 ++ put_bytes (Opaque h)).
  set (p4 := p3 ++ put_u64 sessid).
  set (p5 := p4 ++ put_u64 (Dsize h)).
  assert (p5 = header_bytes h sessid) as H5.
  { unfold p5, p4, p3, p2, p1, header_bytes. by rewrite <- ?app_assoc. }
  assert (buf = [] ++ put_bytes (Bucket h) ++ put_bytes (Objname h) ++ put_bytes (Opaque h)
                 ++ put_u64 sessid ++ put_u64 (Dsize h) ++ post) as HB1.
  { unfold buf, header_bytes. by rewrite <- ?app_assoc. }
  assert (buf = p1 ++ put_bytes (Objname h) ++ put_bytes (Opaque h)
                 ++ put_u64 sessid ++ put_u64 (Dsize h) ++ post) as HB2 by done.
  assert (buf = p2 ++ put_bytes (Opaque h)
                 ++ put_u64 sessid ++ put_u64 (Dsize h) ++ post) as HB3.
  { rewrite HB2. unfold p2. by rewrite <- ?app_assoc. }
  assert (buf = p3 ++ put_u64 sessid ++ put_u64 (Dsize h) ++ post) as HB4.
  { rewrite HB3. unfold p3. by rewrite <- ?app_assoc. }
  assert (buf = p4 ++ put_u64 (Dsize h) ++ post) as HB5.
  { rewrite HB4. unfold p4. by rewrite <- ?app_assoc. }
  change 0 with (Z.of_nat (length (@nil byte))) at 1.
  rewrite (proj1 (extBytes_at buf [] (Bucket h) _ HB1 Hlen)). cbn [mbind res_bind].
  fold p1. rewrite (proj1 (extBytes_at buf p1 (Objname h) _ HB2 Hlen)). cbn [mbind res_bind].
  fold p2. rewrite (proj2 (extBytes_at buf p2 (Opaque h) _ HB3 Hlen)). cbn [mbind res_bind].
  fold p3. rewrite (extUint_at buf p3 _ sessid HB4 Hlen). cbn [mbind res_bind].
  fold p4. rewrite (extUint_at buf p4 _ (Dsize h) HB5 Hlen). cbn [mbind res_bind].
  fold p5. rewrite H5.
  rewrite !wrap64_mod by done.
  assert ((if debug
           then Assert (bool_decide (Z.of_nat (length (header_bytes h sessid))
                                     = Z.of_nat (length (header_bytes h sessid)))) "off != hlen"
           else Ret ()) = Ret ()) as ->.
  { destruct debug; [|done]. by rewrite bool_decide_eq_true_2. }
  cbn [mbind res_bind]. by destruct h.
Qed.

(** X15. [next] on a frame of section 6.  When the body delivers the frame of
    [h] and [sessid] and then [payload] in one chunk, the header fits the
    header buffer (strictly, in the debug build) and the hash is a 64-bit
    word, [next] returns the session id, [hl64] = header length + 16, and
    either the last-frame [io.EOF] with no object, or an object reader for
    [h] at offset 0; the body is left at the payload, and the buffer holds
    the header.  With nothing behind the header the body's own end or error
    comes back with the object. *)
Theorem next_frame_bytes (h : Header) (sessid : Z) (payload : list byte) (ce : option ioerr)
    (rest : Body) (headerBuf : list byte) :
  (∀ x, 0 ≤ Hash x < 2 ^ 64) → int64_range sessid → int64_range (Dsize h) →
  (length (header_bytes h sessid) + (if debug then 1 else 0) ≤ length headerBuf)%nat →
  Z.of_nat (length headerBuf) + 16 < 2 ^ 63 →
  next
    ({| cdata := frame_bytes Hash h sessid ++ payload; cerr := ce |} :: rest) headerBuf
  = Ret ({| obj := if IsLast h then None else Some {| hdr := h; off := 0; hlen := 0 |};
            sessid := sessid;
            hl64 := Z.of_nat (length (header_bytes h sessid)) + 16;
            err := if IsLast h then Some EOF
                   else match payload with [] => ReadErr <$> ce | _ => None end |},
         match payload with
         | [] => rest
         | _ => {| cdata := payload; cerr := ce |} :: rest
         end,
         header_bytes h sessid ++ drop (length (header_bytes h sessid)) headerBuf).
Proof.
  intros HH Hs Hd Hfit Hmax.
  set (hb := header_bytes h sessid) in *.
  set (L := Z.of_nat (length hb)).
  assert (40 ≤ length hb)%nat as H40 by (unfold hb; rewrite length_header_bytes; lia).
  set (bs := put_u64 L ++ put_u64 (Hash L)).
  assert (length bs = 16%nat) as Hbs by done.
  assert (frame_bytes Hash h sessid ++ payload = bs ++ hb ++ payload) as Hframe.
  { unfold frame_bytes, bs. fold hb. fold L. by rewrite <- !app_assoc. }
  assert (Read ({| cdata := frame_bytes Hash h sessid ++ payload; cerr := ce |} :: rest) 16
          = (bs, None, {| cdata := hb ++ payload; cerr := ce |} :: rest)) as HR.
  { unfold Read. cbn [cdata cerr]. rewrite Hframe.
    destruct (Nat.ltb_spec 16 (length (bs ++ hb ++ payload))) as [_|Hge];
      [|rewrite !length_app in Hge; lia].
    change 16%nat with (length bs).
    by rewrite (take_app_length bs), (drop_app_length bs). }
  rewrite (next_prefix Hash IsLast debug _ headerBuf bs None _ ltac:(lia) HR Hbs).
  assert (take 8 bs = put_u64 L) as -> by done.
  assert (take 8 (drop 8 bs) = put_u64 (Hash L)) as -> by done.
  rewrite !be_value_put_u64.
  rewrite (wrap64_mod L) by (unfold int64_range, L; lia).
  destruct (Z.ltb_spec (Z.of_nat (length headerBuf)) L) as [Hlt|_]; [unfold L in Hlt; lia|].
  assert (uint64 L = L) as -> by (unfold uint64; apply Z.mod_small; unfold L; lia).
  rewrite (Z.mod_small (Hash L)) by apply HH.
  rewrite bool_decide_eq_false_2 by (by intros []).
  unfold Transport.nextHeader.
  assert (length (fill headerBuf bs) = length headerBuf) as Hlen by (apply length_fill; lia).
  assert ((if debug then Assert (L <? Z.of_nat (length (fill headerBuf bs))) "hlen"
           else Ret ()) = Ret ()) as ->.
  { destruct debug; [|done]. rewrite Hlen.
    destruct (Z.ltb_spec L (Z.of_nat (length headerBuf))); [done | unfold L in *; lia]. }
  cbn [mbind res_bind].
  rewrite slice_in_range by (unfold L; lia). cbn [mbind res_bind].
  unfold L at 1. rewrite Nat2Z.id.
  assert (fill (fill headerBuf bs) hb = hb ++ drop (length hb) headerBuf) as Hfill.
  { unfold fill. f_equal. rewrite drop_app_ge by lia. rewrite drop_drop. f_equal. lia. }
  assert (ExtHeader (hb ++ drop (length hb) headerBuf) L = Ret (h, sessid)) as HE.
  { apply ExtHeader_header_bytes; try done. fold hb.
    rewrite length_app, length_drop. lia. }
  assert ((if debug then Assert (bool_decide (Z.of_nat (length hb) = L)) "n != hlen"
           else Ret ()) = Ret ()) as HA.
  { destruct debug; [|done]. by rewrite bool_decide_eq_true_2. }
  assert (add64 L (sizeofI64 * 2) = L + 16) as Hhl.
  { apply wrap64_id. unfold int64_range, sizeofI64, L. lia. }
  destruct payload as [|p payload].
  - unfold Read. cbn [cdata cerr]. rewrite app_nil_r.
    destruct (Nat.ltb_spec (length hb) (length hb)) as [|_]; [lia|].
    rewrite Hfill. rewrite bool_decide_eq_false_2 by lia.
    rewrite HA. cbn [mbind res_bind]. rewrite HE. cbn [mbind res_bind].
    rewrite Hhl. by destruct (IsLast h).
  - unfold Read. cbn [cdata cerr].
    destruct (Nat.ltb_spec (length hb) (length (hb ++ p :: payload))) as [_|Hge];
      [|rewrite length_app in Hge; simpl in Hge; lia].
    rewrite take_app_length, drop_app_length.
    rewrite Hfill. rewrite bool_decide_eq_false_2 by lia.
    rewrite HA. cbn [mbind res_bind]. rewrite HE. cbn [mbind res_bind].
    rewrite Hhl. by destruct (IsLast h).
Qed.

(** X16. [next] before a whole prefix.  A header buffer shorter than 16 bytes
    panics; at the end of the body [next] returns [io.EOF] and no object; a
    read that delivers fewer than 16 bytes returns the body's error, and
    panics on the assertion when the body reported none (a short read). *)
Theorem next_short_prefix (headerBuf : list byte) :
  ((length headerBuf < 16)%nat →
   ∀ body, next body headerBuf = Panic "slice bounds out of range")
  ∧ ((16 ≤ length headerBuf)%nat →
     next [] headerBuf
     = Ret ({| obj := None; sessid := 0; hl64 := 0; err := Some EOF |}, [], headerBuf)
     ∧ ∀ c rest, (length (cdata c) < 16)%nat →
         next (c :: rest) headerBuf
         = match cerr c with
           | Some e => Ret ({| obj := None; sessid := 0; hl64 := 0; err := Some (ReadErr e) |},
                            rest, fill headerBuf (cdata c))
           | None => Panic "expecting an error or EOF as the reason for failing to read 16 bytes"
           end).
Proof.
  split.
  - intros Hlt body. unfold Transport.next, slice, sizeofI64.
    destruct (Z.leb_spec (8 * 2) (Z.of_nat (length headerBuf))); [lia|]. done.
  - intros Hge. split.
    + unfold Transport.next. rewrite slice_in_range by (unfold sizeofI64; lia).
      cbn. unfold fill. simpl. by rewrite drop_0.
    + intros c rest Hc. unfold Transport.next.
      rewrite slice_in_range by (unfold sizeofI64; lia).
      change (Z.to_nat (sizeofI64 * 2)) with 16%nat. cbn [mbind res_bind].
      unfold Read. destruct (Nat.ltb_spec 16 (length (cdata c))); [lia|].
      destruct (Z.ltb_spec (Z.of_nat (length (cdata c))) (sizeofI64 * 2));
        [|unfold sizeofI64 in *; lia].
      by destruct (cerr c).
Qed.

(** *** Objects without a session *)

Lemma objReads_returns (lens : list nat) (o : objReader) (body : Body) :
  0 ≤ off o → off o ≤ Dsize (hdr o) → Dsize (hdr o) < 2 ^ 63 →
  ∃ body', objReads o body lens = Ret body'.
Proof.
  revert o body. induction lens as [|lenb lens IH]; intros o body H0 Hle Hmax.
  { by exists body. }
  cbn [Transport.objReads]. rewrite objRead_eq by done. cbn [mbind res_bind].
  pose proof (Read_length body (lenb `min` Z.to_nat (Dsize (hdr o) - off o))) as Hn.
  apply IH; simpl; lia.
Qed.

(** X17. An object on session 0.  A PUT for the handler whose body starts with
    the frame of an object (not the last-frame marker) that carries session
    id 0: the callback is called and reads, then the handler panics, as the
    statistics it adds to are those of no session (a nil pointer). *)
Theorem receive_object_without_session (now : Z) (h : handler) (r : Request) (hd : Header)
    (payload : list byte) (ce : option ioerr) (rest : Body) :
  Method r = "PUT" → URLBase r = trname h →
  rbody r = {| cdata := frame_bytes Hash hd 0 ++ payload; cerr := ce |} :: rest →
  (∀ x, 0 ≤ Hash x < 2 ^ 64) →
  IsLast hd = false → 0 ≤ Dsize hd < 2 ^ 63 →
  (length (header_bytes hd 0) + (if debug then 1 else 0) ≤ MaxHeaderSize)%nat →
  Z.of_nat MaxHeaderSize + 16 < 2 ^ 63 →
  receive now h r = Panic "nil pointer dereference".
Proof.
  intros HM HU HB HH HL HD Hfit Hmax. unfold Transport.receive.
  rewrite bool_decide_eq_false_2 by (by rewrite HM; intros []).
  rewrite bool_decide_eq_false_2 by (by rewrite HU; intros []).
  rewrite HB. cbn [Transport.receiveLoop].
  rewrite (next_frame_bytes hd 0 payload ce rest)
    by (rewrite ?length_replicate; unfold int64_range; try done; lia).
  rewrite HL. cbn [mbind res_bind obj].
  match goal with
  | |- context [Transport.objReads debug ?o ?b ?l] =>
      destruct (objReads_returns l o b) as [body' ->]; [simpl; lia ..|]
  end.
  cbn [mbind res_bind sessid]. done.
Qed.

End ReceiverMore.

(** Session 7 of [handler7] while an object arrives on session 8: its
    statistics stay as they are. *)
Lemma receive_stats_accumulate_witness :
  ∃ h' resp log,
    receive 128 hash0 isLast0 false callback0 30 handler7 (put body_obj8) = Ret (h', resp, log)
    ∧ sessions h' !! 7 = Some {| Num := 3; Size := 30; Offset := 300 |}.
Proof.
  destruct (receive 128 hash0 isLast0 false callback0 30 handler7 (put body_obj8))
    as [[[h' resp] log]| |] eqn:Hr; [|by vm_compute in Hr..].
  exists h', resp, log. split; [done|].
  destruct (receive_stats_accumulate 128 hash0 isLast0 false callback0 30 handler7 _ h' resp log 7
              {| Num := 3; Size := 30; Offset := 300 |} Hr ltac:(lia) eq_refl) as [_ Hsame].
  - repeat split; by vm_compute.
  - intros t Ht. vm_compute in Ht. injection Ht as <-. unfold cleanupTimeout. lia.
  - apply Hsame. vm_compute in Hr. by injection Hr as _ _ <-.
Defined.


(** Three of the five bytes of [obj5] through a buffer of three: no error,
    and the offset is 3. *)
Lemma objRead_within_object_witness :
  ∃ o' body',
    objRead true obj5 body_obj5 3 = Ret (3%nat, None, o', body') ∧ off o' = 3.
Proof.
  destruct (objRead_within_object true obj5 body_obj5 3)
    as (n & e & o' & body' & Heq & _ & _ & _ & _ & Hoff & _);
    [simpl; lia ..|].
  assert (n = 3%nat ∧ e = None) as [-> ->].
  { vm_compute in Heq. by injection Heq as <- <- _ _. }
  by exists o', body'.
Defined.

(** The first read of an object announced with [Dsize = -1]. *)
Lemma objRead_negative_remainder_witness :
  objRead false obj_neg body_obj5 0 = Panic "slice bounds out of range".
Proof. apply objRead_negative_remainder. by vm_compute. Defined.

(** A callback that asks for three, three and three bytes of [obj5] leaves
    the last-frame marker in the body. *)
Lemma objReads_within_object_witness :
  objReads true obj5 body_obj5 [3; 3; 3]%nat = Ret [chunk (frame_bytes hash0 (hdr_obj 0) 8)].
Proof.
  destruct (objReads_within_object true [3; 3; 3]%nat obj5 body_obj5)
    as (body' & k & Heq & _); [simpl; lia ..|].
  rewrite Heq. vm_compute in Heq. injection Heq as <-. by vm_compute.
Defined.

(** The header of a three-byte object of session 8, with one more byte in
    the buffer. *)
Lemma ExtHeader_header_bytes_witness :
  ExtHeader false (header_bytes (hdr_obj 3) 8 ++ [x00]) 42 = Ret (hdr_obj 3, 8).
Proof.
  apply (ExtHeader_header_bytes false (hdr_obj 3) 8 [x00]); unfold int64_range; simpl; lia.
Defined.

Lemma hash0_word (x : Z) : 0 ≤ hash0 x < 2 ^ 64.
Proof. unfold hash0. apply Z.mod_pos_bound. lia. Qed.

(** The frame of a three-byte object of session 8 with its payload behind
    it, and a header buffer of 128 bytes. *)
Lemma next_frame_bytes_witness :
  ∃ buf,
    next hash0 isLast0 false [chunk (frame_bytes hash0 (hdr_obj 3) 8 ++ [xab; xab; xab])]
      (replicate 128 x00)
    = Ret ({| obj := Some {| hdr := hdr_obj 3; off := 0; hlen := 0 |};
              sessid := 8; hl64 := 58; err := None |},
           [chunk [xab; xab; xab]], buf).
Proof.
  eexists.
  refine (next_frame_bytes hash0 isLast0 false (hdr_obj 3) 8 [xab; xab; xab] None []
            (replicate 128 x00) hash0_word _ _ _ _);
    unfold int64_range; simpl; lia.
Defined.

(** A three-byte object announced on session 0. *)
Lemma receive_object_without_session_witness :
  receive 128 hash0 isLast0 false callback0 30 handler0
    (put [chunk (frame_bytes hash0 (hdr_obj 3) 0 ++ [xab; xab; xab])])
  = Panic "nil pointer dereference".
Proof.
  apply (receive_object_without_session 128 hash0 isLast0 false callback0 30 handler0 _
           (hdr_obj 3) [xab; xab; xab] None []);
    try done; try apply hash0_word; simpl; lia.
Defined.

End TransportProps.

Module AisProps.

Import Ais.

Local Open Scope Z_scope.

(** *** The start of a list-objects task *)

Lemma renewCount_logCall (reg : Registry) (c : call) :
  renewCount (logCall reg c) = (renewCount reg + if isRenew c then 1 else 0)%nat.
Proof.
  unfold renewCount, logCall. simpl. rewrite filter_app, length_app. f_equal.
  destruct c; reflexivity.
Qed.

Lemma doCount_logCall (reg : Registry) (c : call) :
  doCount (logCall reg c) = (doCount reg + if isDo c then 1 else 0)%nat.
Proof.
  unfold doCount, logCall. simpl. rewrite filter_app, length_app. f_equal.
  destruct c; reflexivity.
Qed.

(** One sequence: what it returns, and the calls it adds. *)
Lemma renewIncWait_spec (reg : Registry) (uuid : string) (ta : TaskAction) (status : Z) :
  ∃ reg', renewIncWait reg uuid ta status
          = Ret (reg', (seqOutcome reg (renewCount reg) (doCount reg) status).1,
                       (seqOutcome reg (renewCount reg) (doCount reg) status).2)
          ∧ calls reg' = calls reg ++ seqCalls reg (renewCount reg) uuid ta
          ∧ renewCount reg' = S (renewCount reg)
          ∧ doCount reg' = (doCount reg + seqDos reg (renewCount reg))%nat
          ∧ renewAns reg' = renewAns reg ∧ doAns reg' = doAns reg.
Proof.
  unfold renewIncWait, RenewBckListNewXact, seqOutcome, seqDos, seqCalls.
  destruct (renewAns reg (renewCount reg)) as [e|task] eqn:Hans.
  - eexists. split; [reflexivity|]. rewrite renewCount_logCall, doCount_logCall. simpl.
    split_and!; [done | lia | lia | done..].
  - unfold waitBckListResp, IncPending.
    rewrite !doCount_logCall. simpl. rewrite !Nat.add_0_r.
    eexists. split; [reflexivity|].
    rewrite !renewCount_logCall, !doCount_logCall. simpl.
    split_and!; [by rewrite <- !app_assoc | lia | lia | done..].
Qed.

(** C7. On [taskAction = start] with the action list-objects: when the first
    renew-increment-wait sequence leaves [ErrGone], the sequence is run once
    more and not again: the calls made are those of the first sequence
    followed by those of the second (in each the renew and, when it yields a
    task, the increment of that task's pending count and then the [Do]), two
    [RenewBckListNewXact] calls in all, and nothing else.  If the retry leaves
    an error, the client gets that error with the status the retried task
    reported (or, when the retry did not get as far as a task, the status the
    first sequence left); if the retry leaves no error, the client gets 202
    Accepted.  When the first sequence leaves anything but [ErrGone], its
    calls are the only ones: there is no retry. *)
Theorem doAsync_retries_once (reg : Registry) (query : Query) (uuid : string) :
  taskAction query = TaskStart →
  let n := renewCount reg in
  let m := doCount reg in
  let first := seqOutcome reg n m StatusInternalServerError in
  (first.2 = Some ErrGone →
   ∃ reg' resp ok,
     doAsync reg query ActListObjects uuid = Ret (reg', resp, ok)
     ∧ calls reg' = calls reg ++ seqCalls reg n uuid TaskStart
                              ++ seqCalls reg (S n) uuid TaskStart
     ∧ renewCount reg' = (n + 2)%nat
     ∧ match renewAns reg (S n) with
       | inr _ =>
           let answer := doAns reg (m + seqDos reg n)%nat in
           match Err answer with
           | Some e => resp = HTTPError (errorText e) (Some (Status answer)) false ∧ ok = false
           | None => resp = WriteHeader StatusAccepted ∧ ok = true
           end
       | inl e => resp = HTTPError (errorText e) (Some first.1) false ∧ ok = false
       end)
  ∧ (first.2 ≠ Some ErrGone →
     ∃ reg' resp ok,
       doAsync reg query ActListObjects uuid = Ret (reg', resp, ok)
       ∧ calls reg' = calls reg ++ seqCalls reg n uuid TaskStart
       ∧ renewCount reg' = (n + 1)%nat
       ∧ match first.2 with
         | Some e => resp = HTTPError (errorText e) (Some first.1) false ∧ ok = false
         | None => resp = WriteHeader StatusAccepted ∧ ok = true
         end).
Proof.
  intros Hta. cbv zeta. unfold doAsync. rewrite Hta.
  rewrite bool_decide_eq_true_2 by done.
  destruct (renewIncWait_spec reg uuid TaskStart StatusInternalServerError)
    as (reg1 & -> & Hc1 & Hn1 & Hm1 & Hra1 & Hda1).
  cbn [mbind res_bind].
  set (first := seqOutcome reg (renewCount reg) (doCount reg) StatusInternalServerError).
  split.
  - intros Hgone. rewrite bool_decide_eq_true_2 by done.
    destruct (renewIncWait_spec reg1 uuid TaskStart first.1)
      as (reg2 & -> & Hc2 & Hn2 & Hm2 & _).
    cbn [mbind res_bind].
    assert (calls reg2 = calls reg ++ seqCalls reg (renewCount reg) uuid TaskStart
                         ++ seqCalls reg (S (renewCount reg)) uuid TaskStart) as Hcalls.
    { rewrite Hc2, Hc1, Hn1, <- app_assoc. unfold seqCalls. by rewrite Hra1. }
    unfold seqOutcome. rewrite Hn1, Hm1, Hra1, Hda1.
    destruct (renewAns reg (S (renewCount reg))) as [e|task]; cbn [fst snd].
    + eexists _, _, _. split; [reflexivity|]. split; [done|]. split; [lia|done].
    + destruct (Err (doAns reg _)) as [e|]; eexists _, _, _;
        (split; [reflexivity|]); (split; [done|]); (split; [lia|done]).
  - intros Hnot. rewrite bool_decide_eq_false_2 by done.
    cbn [mbind res_bind].
    destruct first.2 as [e|]; eexists _, _, _;
      (split; [reflexivity|]); (split; [done|]); (split; [lia|done]).
Qed.

(** On the concrete registry: the first task answers [ErrGone], the task of
    the retry answers; two sequences of three calls each, 202 Accepted. *)
Lemma doAsync_retries_once_witness :
  ∃ reg',
    doAsync registry0 startQuery ActListObjects "u"
    = Ret (reg', WriteHeader StatusAccepted, true)
    ∧ calls reg' = [CallRenewBckList "u"; CallIncPending 0; CallDo 0 TaskStart;
                    CallRenewBckList "u"; CallIncPending 1; CallDo 1 TaskStart]
    ∧ renewCount reg' = 2%nat.
Proof.
  destruct (doAsync_retries_once registry0 startQuery "u" eq_refl) as [Hretry _].
  destruct (Hretry eq_refl) as (reg' & resp & ok & Hr & Hc & Hn & Hresp).
  simpl in Hresp. destruct Hresp as [-> ->].
  exists reg'. split_and!; [exact Hr | exact Hc | exact Hn].
Defined.

(** *** Every branch of [doAsync] *)

Lemma paired_seqCalls (reg : Registry) (n : nat) (uuid : string) (ta : TaskAction)
    (rest : list call) :
  paired (seqCalls reg n uuid ta ++ rest) = paired rest.
Proof.
  unfold seqCalls. destruct (renewAns reg n); simpl; [done|].
  by rewrite bool_decide_eq_true_2.
Qed.

(** X8. What [doAsync] writes and what it returns go together, on every
    branch: it returns false exactly when it has written an error, or when
    [writeJSON] failed; a header alone, or nothing, is written with true.  A
    JSON body is written only to a poll with [taskAction = result], never to a
    start; nothing at all is written only to a poll, other than a result poll,
    of a finished task that is not a bucket list task.  It panics only on the
    assertion: a result poll of a bucket list task whose answer has no error
    and no UUID. *)
Theorem doAsync_answer (reg : Registry) (query : Query) (action : Action) (uuid : string) :
  match doAsync reg query action uuid with
  | Ret (reg', resp, ok) =>
      match resp with
      | HTTPError _ _ _ => ok = false
      | WriteHeader _ => ok = true
      | WriteJSON _ => ok = writeJSONok reg ∧ taskAction query = TaskResult
      | NoWrite =>
          ok = true ∧ taskAction query ≠ TaskStart ∧ taskAction query ≠ TaskResult
          ∧ action ≠ ActListObjects
          ∧ ∃ xact, getXact reg uuid = Some xact ∧ Finished xact = true
                    ∧ (Result xact).2 = None
      end
  | Panic _ =>
      taskAction query = TaskResult ∧ action = ActListObjects
      ∧ ∃ xact task, getXact reg uuid = Some xact ∧ listTask xact = Some task
                     ∧ Err (doAns reg (doCount reg)) = None
                     ∧ UUID (BckList (doAns reg (doCount reg))) = ""
  | OutOfFuel => False
  end.
Proof.
  unfold doAsync. case_bool_decide as Hstart.
  - destruct action as [| |a].
    + destruct (renewIncWait_spec reg uuid (taskAction query) StatusInternalServerError)
        as (reg1 & -> & _).
      cbn [mbind res_bind]. case_bool_decide.
      * destruct (renewIncWait_spec reg1 uuid (taskAction query)
                    (seqOutcome reg (renewCount reg) (doCount reg) StatusInternalServerError).1)
          as (reg2 & -> & _).
        cbn [mbind res_bind]. by destruct (seqOutcome reg1 _ _ _).2.
      * cbn [mbind res_bind]. by destruct (seqOutcome reg _ _ _).2.
    + cbn [mbind res_bind]. by destruct (summaryAns reg).
    + done.
  - destruct (getXact reg uuid) as [xact|] eqn:Hx; [|done].
    case_bool_decide as Hact.
    + destruct (listTask xact) as [task|] eqn:Ht; [|done].
      unfold waitBckListResp, IncPending. rewrite doCount_logCall. simpl.
      rewrite doCount_logCall. simpl. rewrite !Nat.add_0_r.
      destruct (Err (doAns reg (doCount reg))) as [e|] eqn:He; [done|].
      case_bool_decide as Hres; [|done].
      case_bool_decide as Hu; [done|].
      split_and!; [done | done |]. exists xact, task. split_and!; [done..|].
      destruct (decide (UUID (BckList (doAns reg (doCount reg))) = "")); [done|].
      by destruct Hu.
    + destruct (Finished xact) eqn:Hfin; cbn [negb]; [|done].
      destruct (Result xact) as [result [e|]] eqn:Hres.
      * by destruct e.
      * case_bool_decide as Hta; [done|].
        split_and!; [done..|]. exists xact. by rewrite Hres.
Qed.

(** X9. The calls [doAsync] makes, on every branch it returns from.  A start
    never looks the task up and makes at most six calls; a poll looks the task
    up first, never renews anything, and makes at most three.  Whenever a task
    is sent a [Do], its pending count was incremented just before, and every
    increment is followed by that [Do]. *)
Theorem doAsync_calls (reg : Registry) (query : Query) (action : Action) (uuid : string)
    (reg' : Registry) (resp : response) (ok : bool) :
  doAsync reg query action uuid = Ret (reg', resp, ok) →
  ∃ new,
    calls reg' = calls reg ++ new
    ∧ paired new = true
    ∧ (taskAction query = TaskStart →
       filter (λ c, isGetXact c = true) new = [] ∧ (length new ≤ 6)%nat
       ∧ (action ≠ ActListObjects →
          filter (λ c, isRenew c = true) new = [] ∧ (length new ≤ 1)%nat))
    ∧ (taskAction query ≠ TaskStart →
       filter (λ c, isRenew c = true) new = []
       ∧ ∃ rest, new = CallGetXact uuid :: rest
                 ∧ (rest = [] ∨ ∃ xact task, getXact reg uuid = Some xact
                                   ∧ listTask xact = Some task ∧ action = ActListObjects
                                   ∧ rest = [CallIncPending task; CallDo task (taskAction query)])).
Proof.
  unfold doAsync. case_bool_decide as Hstart.
  - assert (∀ n, (length (seqCalls reg n uuid (taskAction query)) ≤ 3)%nat) as Hlen.
    { intros n. unfold seqCalls. destruct (renewAns reg n); simpl; lia. }
    assert (∀ n rest, filter (λ c, isGetXact c = true)
                        (seqCalls reg n uuid (taskAction query) ++ rest)
                      = filter (λ c, isGetXact c = true) rest) as Hget.
    { intros n rest. unfold seqCalls. by destruct (renewAns reg n). }
    destruct action as [| |a].
    + destruct (renewIncWait_spec reg uuid (taskAction query) StatusInternalServerError)
        as (reg1 & -> & Hc1 & Hn1 & _ & Hra1 & _).
      cbn [mbind res_bind]. case_bool_decide.
      * destruct (renewIncWait_spec reg1 uuid (taskAction query)
                    (seqOutcome reg (renewCount reg) (doCount reg) StatusInternalServerError).1)
          as (reg2 & -> & Hc2 & _).
        cbn [mbind res_bind].
        assert (calls reg2 = calls reg ++ (seqCalls reg (renewCount reg) uuid (taskAction query)
                               ++ seqCalls reg (S (renewCount reg)) uuid (taskAction query)))
          as Hcalls.
        { rewrite Hc2, Hc1, Hn1, <- app_assoc. unfold seqCalls. by rewrite Hra1. }
        intros Hr. eexists. split.
        { destruct (seqOutcome reg1 _ _ _).2; injection Hr as <- _ _; exact Hcalls. }
        split_and!.
        -- rewrite paired_seqCalls. rewrite <- (app_nil_r (seqCalls _ _ _ _)).
           by rewrite paired_seqCalls.
        -- intros _. split_and!; [| |done].
           ++ rewrite Hget. rewrite <- (app_nil_r (seqCalls _ _ _ _)). by rewrite Hget.
           ++ rewrite length_app.
              pose proof (Hlen (renewCount reg)). pose proof (Hlen (S (renewCount reg))). lia.
        -- done.
      * cbn [mbind res_bind]. intros Hr.
        exists (seqCalls reg (renewCount reg) uuid (taskAction query)). split.
        { destruct (seqOutcome reg _ _ _).2; injection Hr as <- _ _; exact Hc1. }
        split_and!.
        -- rewrite <- (app_nil_r (seqCalls _ _ _ _)). by rewrite paired_seqCalls.
        -- intros _. split_and!; [| |done].
           ++ rewrite <- (app_nil_r (seqCalls _ _ _ _)). by rewrite Hget.
           ++ pose proof (Hlen (renewCount reg)). lia.
        -- done.
    + cbn [mbind res_bind]. intros Hr. exists [CallRenewSummary]. split.
      { destruct (summaryAns reg); by injection Hr as <- _ _. }
      split_and!; [done | | done]. intros _. split_and!; [done | simpl; lia |].
      intros _. split; [done | simpl; lia].
    + intros [= <- _ _]. exists []. split; [by rewrite app_nil_r|].
      split_and!; [done | | done]. intros _. split_and!; [done | simpl; lia |].
      intros _. split; [done | simpl; lia].
  - destruct (getXact reg uuid) as [xact|] eqn:Hx.
    2:{ intros [= <- _ _]. exists [CallGetXact uuid]. split_and!; [done | done | done |].
        intros _. split; [done|]. exists []. split; [done | by left]. }
    case_bool_decide as Hact.
    + destruct (listTask xact) as [task|] eqn:Ht.
      2:{ intros [= <- _ _]. exists [CallGetXact uuid]. split_and!; [done | done | done |].
          intros _. split; [done|]. exists []. split; [done | by left]. }
      unfold waitBckListResp, IncPending.
      intros Hr.
      exists [CallGetXact uuid; CallIncPending task; CallDo task (taskAction query)].
      split.
      { destruct (Err (doAns _ _)).
        - injection Hr as <- _ _. simpl. by rewrite <- !app_assoc.
        - case_bool_decide.
          + case_bool_decide; [|done]. injection Hr as <- _ _. simpl. by rewrite <- !app_assoc.
          + injection Hr as <- _ _. simpl. by rewrite <- !app_assoc. }
      split_and!; [simpl; by rewrite bool_decide_eq_true_2 | done |].
      intros _. split; [done|]. eexists. split; [done|]. right. by exists xact, task.
    + intros Hr. exists [CallGetXact uuid]. split.
      { destruct (Finished xact); cbn [negb] in Hr; [|by injection Hr as <- _ _].
        destruct (Result xact) as [result [e|]].
        - destruct e; by injection Hr as <- _ _.
        - case_bool_decide; by injection Hr as <- _ _. }
      split_and!; [done | done |].
      intros _. split; [done|]. exists []. split; [done | by left].
Qed.

(** On the concrete registry: a start of a list-objects task, gone at first. *)
Lemma doAsync_calls_witness :
  ∃ reg' new, doAsync registry0 startQuery ActListObjects "u"
              = Ret (reg', WriteHeader StatusAccepted, true)
              ∧ calls reg' = calls registry0 ++ new ∧ paired new = true.
Proof.
  destruct (doAsync registry0 startQuery ActListObjects "u") as [[[reg' resp] ok]| |] eqn:Hd;
    try (vm_compute in Hd; discriminate Hd).
  destruct (doAsync_calls _ _ _ _ _ _ _ Hd) as (new & Hc & Hp & _).
  exists reg', new. split_and!; [|done..].
  vm_compute in Hd. injection Hd as <- <- <-. by vm_compute.
Defined.

End AisProps.
